(** * inject: a reflect based dependency injector

    A shallow embedding of the graph resolver of [inject.go] (tag parsing,
    [Provide], the two population passes, [updateLevel] and the level
    buckets) together with the properties its specification states. *)

From Stdlib Require Import Ascii String ZArith NArith Lia Bool.
From stdpp Require Import base option list strings gmap.

Local Open Scope string_scope.
Local Open Scope nat_scope.
Local Open Scope list_scope.
Set Warnings "-register-all".

(** ** Strings as Go byte strings *)

Module GoString.

(** The double quote, byte 34. *)
Definition dquote : ascii := ascii_of_nat 34.

(** [tag[i:]] *)
Fixpoint from (i : nat) (s : string) : string :=
  match i, s with
  | 0, _ => s
  | S _, EmptyString => EmptyString
  | S i', String _ r => from i' r
  end.

(** [tag[:i]] *)
Fixpoint upto (i : nat) (s : string) : string :=
  match i, s with
  | 0, _ => EmptyString
  | S _, EmptyString => EmptyString
  | S i', String c r => String c (upto i' r)
  end.

(** [tag[i]], when [i < len(tag)] *)
Definition at_ (i : nat) (s : string) : option ascii := String.get i s.

Definition isByte (c : ascii) (o : option ascii) : bool :=
  match o with
  | Some d => Ascii.eqb c d
  | None => false
  end.

Definition len (s : string) : nat := String.length s.

Definition contains (s : string) (c : ascii) : bool :=
  existsb (Ascii.eqb c) (list_ascii_of_string s).

End GoString.

Import GoString.

(** ** strconv.Unquote on double-quoted literals

    [Unquote] belongs to Go's standard library.  The model below covers what
    [extractTag] can hand to it: a literal delimited by double quotes.  It
    follows [strconv.Unquote] and [strconv.UnquoteChar]: a raw newline or a
    bare quote is a syntax error, the single-character escapes, [\xHH],
    three-digit octal and [\uHHHH] / [\UHHHHHHHH] escapes are decoded (the
    latter two to UTF-8), every other byte is copied. *)

Module Strconv.

Definition unhex (c : ascii) : option N :=
  let n := N_of_ascii c in
  if ((48 <=? n) && (n <=? 57))%N then Some (n - 48)%N
  else if ((97 <=? n) && (n <=? 102))%N then Some (n - 97 + 10)%N
  else if ((65 <=? n) && (n <=? 70))%N then Some (n - 65 + 10)%N
  else None.

Definition unoct (c : ascii) : option N :=
  let n := N_of_ascii c in
  if ((48 <=? n) && (n <=? 55))%N then Some (n - 48)%N else None.

(** [v = v<<4 | x] over the first [n] bytes of [s] *)
Fixpoint hexDigits (n : nat) (v : N) (s : string) : option (N * string) :=
  match n with
  | 0 => Some (v, s)
  | S n' =>
      match s with
      | EmptyString => None
      | String c r =>
          match unhex c with
          | Some x => hexDigits n' (N.lor (N.shiftl v 4) x) r
          | None => None
          end
      end
  end.

Fixpoint octDigits (n : nat) (v : N) (s : string) : option (N * string) :=
  match n with
  | 0 => Some (v, s)
  | S n' =>
      match s with
      | EmptyString => None
      | String c r =>
          match unoct c with
          | Some x => octDigits n' (N.lor (N.shiftl v 3) x) r
          | None => None
          end
      end
  end.

Definition byte (n : N) : string := String (ascii_of_N n) EmptyString.

(** [utf8.EncodeRune] on a valid rune *)
Definition encodeRune (v : N) : string :=
  if (v <? 128)%N then byte v
  else if (v <? 2048)%N then
    (byte (N.lor 192 (N.shiftr v 6)) ++ byte (N.lor 128 (N.land v 63)))%string
  else if (v <? 65536)%N then
    (byte (N.lor 224 (N.shiftr v 12)) ++
     byte (N.lor 128 (N.land (N.shiftr v 6) 63)) ++
     byte (N.lor 128 (N.land v 63)))%string
  else
    (byte (N.lor 240 (N.shiftr v 18)) ++
     byte (N.lor 128 (N.land (N.shiftr v 12) 63)) ++
     byte (N.lor 128 (N.land (N.shiftr v 6) 63)) ++
     byte (N.lor 128 (N.land v 63)))%string.

(** [utf8.ValidRune] *)
Definition validRune (v : N) : bool :=
  ((v <? 55296) || ((57343 <? v) && (v <=? 1114111)))%N.

(** The escape after a backslash: [c] is the byte that follows it and [s]
    the rest.  Returns the decoded bytes and what remains. *)
Definition unquoteEscape (c : ascii) (s : string) : option (string * string) :=
  match c with
  | "a"%char => Some (byte 7, s)
  | "b"%char => Some (byte 8, s)
  | "f"%char => Some (byte 12, s)
  | "n"%char => Some (byte 10, s)
  | "r"%char => Some (byte 13, s)
  | "t"%char => Some (byte 9, s)
  | "v"%char => Some (byte 11, s)
  | "\"%char => Some ("\", s)
  | "x"%char =>
      match hexDigits 2 0 s with
      | Some (v, r) => Some (byte v, r)
      | None => None
      end
  | "u"%char =>
      match hexDigits 4 0 s with
      | Some (v, r) => if validRune v then Some (encodeRune v, r) else None
      | None => None
      end
  | "U"%char =>
      match hexDigits 8 0 s with
      | Some (v, r) => if validRune v then Some (encodeRune v, r) else None
      | None => None
      end
  | _ =>
      if Ascii.eqb c dquote then Some (String dquote EmptyString, s) else
      match unoct c with
      | Some d =>
          match octDigits 2 d s with
          | Some (v, r) => if (255 <? v)%N then None else Some (byte v, r)
          | None => None
          end
      | None => None
      end
  end.

(** The loop of [Unquote] over the text between the quotes.  Every round
    consumes at least one byte, so [length s] rounds are enough. *)
Fixpoint unquoteBody (fuel : nat) (s : string) : option string :=
  match s with
  | EmptyString => Some EmptyString
  | String c r =>
      match fuel with
      | 0 => None
      | S fuel' =>
          if Ascii.eqb c dquote then None
          else if Ascii.eqb c "\"%char then
            match r with
            | EmptyString => None
            | String e r' =>
                match unquoteEscape e r' with
                | Some (bytes, rest) =>
                    match unquoteBody fuel' rest with
                    | Some t => Some (bytes ++ t)%string
                    | None => None
                    end
                | None => None
                end
            end
          else
            match unquoteBody fuel' r with
            | Some t => Some (String c t)
            | None => None
            end
      end
  end.

Definition Unquote (s : string) : option string :=
  let n := len s in
  if (n <? 2)%nat then None
  else if negb (isByte dquote (at_ 0 s)) then None
  else if negb (isByte dquote (at_ (n - 1) s)) then None
  else
    let body := upto (n - 2) (from 1 s) in
    if contains body (ascii_of_N 10) then None
    else if negb (contains body "\"%char) && negb (contains body dquote)
    then Some body
    else unquoteBody (len body) body.

End Strconv.

(** ** The tag parser *)

(** The two errors a tag can produce: [errInvalidTag] of [extractTag] and
    [strconv.ErrSyntax] of [Unquote]. *)
Inductive tagError := errInvalidTag | ErrSyntax.

Module Tag.
Record tag := { Name : string; Private : bool }.
End Tag.
Abbreviation tag := Tag.tag.

Definition injectOnly : tag := {| Tag.Name := ""; Tag.Private := false |}.
Definition injectPrivate : tag := {| Tag.Name := ""; Tag.Private := true |}.

Global Instance tag_eq_dec : EqDecision tag.
Proof. solve_decision. Defined.

Global Instance tagError_eq_dec : EqDecision tagError.
Proof. solve_decision. Defined.

(** [for i < len(tag) && tag[i] == ' ' { i++ }]: the index reached *)
Fixpoint skipSpaces (tag : string) : nat :=
  match tag with
  | String c r => if Ascii.eqb c " "%char then S (skipSpaces r) else 0
  | EmptyString => 0
  end.

(** The scan to the colon: [i] advances while [tag[i]] is neither a space,
    a colon nor a double quote. *)
Fixpoint scanKey (tag : string) : nat :=
  match tag with
  | String c r =>
      if Ascii.eqb c " "%char || Ascii.eqb c ":"%char || Ascii.eqb c dquote
      then 0 else S (scanKey r)
  | EmptyString => 0
  end.

(** The quoted-string scan started at [tag[i:]]: how far [i] advances.
    A backslash skips the byte after it, also past the end of the string. *)
Fixpoint scanQuoted (s : string) : nat :=
  match s with
  | EmptyString => 0
  | String c r =>
      if Ascii.eqb c dquote then 0
      else if Ascii.eqb c "\"%char then
        match r with
        | EmptyString => 2
        | String _ r' => 2 + scanQuoted r'
        end
      else 1 + scanQuoted r
  end.

(** The result triple [(found, value, err)] of [extractTag]. *)
Definition extracted : Type := bool * string * option tagError.

(** The loop of [extractTag].  Every round that continues drops at least
    two bytes of [tag], so the fuel [len(tag)] given by [extractTag] lets
    the loop run to its end (see [extractTag_loop_fuel]). *)
Fixpoint extractTag_loop (fuel : nat) (tag : string) : extracted :=
  if String.eqb tag "" then (false, "", None) else
  let tag := from (skipSpaces tag) tag in
  if String.eqb tag "" then (false, "", None) else
  let i := scanKey tag in
  if (len tag <=? i + 1)%nat || negb (isByte ":"%char (at_ i tag))
     || negb (isByte dquote (at_ (i + 1) tag))
  then (false, "", Some errInvalidTag) else
  let name := upto i tag in
  let tag := from (i + 1) tag in
  let i := 1 + scanQuoted (from 1 tag) in
  if (len tag <=? i)%nat then (false, "", Some errInvalidTag) else
  let qvalue := upto (i + 1) tag in
  let tag := from (i + 1) tag in
  if String.eqb "inject" name then
    match Strconv.Unquote qvalue with
    | None => (false, "", Some ErrSyntax)
    | Some value => (true, value, None)
    end
  else
    match fuel with
    | 0 => (false, "", None)
    | S fuel' => extractTag_loop fuel' tag
    end.

Definition extractTag (tag : string) : extracted :=
  extractTag_loop (len tag) tag.

(** [parseTag]: [None] is the nil tag of a field without an inject key. *)
Definition parseTag (t : string) : option tag * option tagError :=
  let '(found, value, err) := extractTag t in
  match err with
  | Some e => (None, Some e)
  | None =>
      if negb found then (None, None)
      else if String.eqb value "" then (Some injectOnly, None)
      else if String.eqb value "private" then (Some injectPrivate, None)
      else (Some {| Tag.Name := value; Tag.Private := false |}, None)
  end.

(** ** Types, as the reflect package shows them *)

(** A defined type is identified by the import path of its package and
    its name; [fmt.Sprint] of a [reflect.Type] prints the package {e name},
    which two different import paths may share. *)
Record tid := { pkgPath : string; pkgName : string; tyName : string }.

Global Instance tid_eq_dec : EqDecision tid.
Proof. solve_decision. Defined.

Inductive rtype :=
  | TBasic (name : string)
  | TStruct (id : tid)
  | TIface (id : tid)
  | TPtr (elem : rtype)
  | TMap (key elem : rtype).

Global Instance rtype_eq_dec : EqDecision rtype.
Proof. solve_decision. Defined.

Inductive Kind := Struct | Ptr | Interface | Map | Scalar.

Global Instance Kind_eq_dec : EqDecision Kind.
Proof. solve_decision. Defined.

Definition kindOf (t : rtype) : Kind :=
  match t with
  | TBasic _ => Scalar
  | TStruct _ => Struct
  | TIface _ => Interface
  | TPtr _ => Ptr
  | TMap _ _ => Map
  end.

Definition qualified (id : tid) : string :=
  (pkgName id ++ "." ++ tyName id)%string.

(** [fmt.Sprint(t)] *)
Fixpoint typeString (t : rtype) : string :=
  match t with
  | TBasic name => name
  | TStruct id => qualified id
  | TIface id => qualified id
  | TPtr elem => ("*" ++ typeString elem)%string
  | TMap key elem => ("map[" ++ typeString key ++ "]" ++ typeString elem)%string
  end.

Definition isStructPtr (t : rtype) : bool :=
  match t with
  | TPtr elem => bool_decide (kindOf elem = Struct)
  | _ => false
  end.

(** One field of a struct type: [exported] is what [CanSet] reports for
    the field of an addressable struct. *)
Record StructField := {
  fieldName : string;
  fieldType : rtype;
  fieldTag : string;
  exported : bool
}.

(** The program's type declarations.  A struct is listed before the
    structs it holds by value (Go admits no by-value cycle, so such an
    order exists); [implements t i] says that the method set of [t]
    satisfies the interface [i]. *)
Record Program := {
  structs : list (tid * list StructField);
  implements : rtype -> tid -> bool
}.

Fixpoint lookupStruct (ds : list (tid * list StructField)) (id : tid)
  : option (list StructField) :=
  match ds with
  | [] => None
  | (id', fs) :: ds' => if decide (id = id') then Some fs else lookupStruct ds' id
  end.

(** ** Values and the heap *)

(** A variable is a cell of the heap; a field of a struct, and a field of
    a struct nested in it by value, is reached by a path of field
    indices into the cell. *)
Definition addr : Type := nat * list nat.

Inductive value :=
  | VNil
  | VScalar (z : Z)
  | VPtr (a : addr)
  | VMap (n : nat)
  | VStruct (fs : list value).

Fixpoint value_eqb (v w : value) : bool :=
  match v, w with
  | VNil, VNil => true
  | VScalar a, VScalar b => bool_decide (a = b)
  | VPtr a, VPtr b => bool_decide (a = b)
  | VMap a, VMap b => bool_decide (a = b)
  | VStruct fs, VStruct gs =>
      (fix all2 (l k : list value) : bool :=
         match l, k with
         | [], [] => true
         | x :: l', y :: k' => value_eqb x y && all2 l' k'
         | _, _ => false
         end) fs gs
  | _, _ => false
  end.

(** [reflect.Zero(t)] *)
Fixpoint Zero (ds : list (tid * list StructField)) (t : rtype) {struct ds} : value :=
  match t with
  | TBasic _ => VScalar 0
  | TIface _ | TPtr _ | TMap _ _ => VNil
  | TStruct id =>
      match ds with
      | [] => VStruct []
      | (id', fs) :: ds' =>
          if decide (id = id')
          then VStruct (map (fun f => Zero ds' (fieldType f)) fs)
          else Zero ds' t
      end
  end.

Fixpoint getPath (v : value) (p : list nat) : option value :=
  match p with
  | [] => Some v
  | i :: p' =>
      match v with
      | VStruct fs =>
          match fs !! i with
          | Some w => getPath w p'
          | None => None
          end
      | _ => None
      end
  end.

Fixpoint setPath (v : value) (p : list nat) (new : value) : option value :=
  match p with
  | [] => Some new
  | i :: p' =>
      match v with
      | VStruct fs =>
          match fs !! i with
          | Some w =>
              match setPath w p' new with
              | Some w' => Some (VStruct (<[i := w']> fs))
              | None => None
              end
          | None => None
          end
      | _ => None
      end
  end.

Definition load (h : list value) (a : addr) : option value :=
  match h !! a.1 with
  | Some c => getPath c a.2
  | None => None
  end.

Definition store (h : list value) (a : addr) (v : value) : option (list value) :=
  match h !! a.1 with
  | Some c =>
      match setPath c a.2 v with
      | Some c' => Some (<[a.1 := c']> h)
      | None => None
      end
  | None => None
  end.

(** The address of field [i] of the struct at [a]. *)
Definition fieldAddr (a : addr) (i : nat) : addr := (a.1, a.2 ++ [i]).

(** ** Objects, the graph and the errors *)

(** An [interface{}] value: the dynamic type and the value it holds. *)
Record iface := { dynType : rtype; dynValue : value }.

Record Object := {
  Value : iface;
  Name : string;
  Complete : bool;
  reflectType : rtype;
  reflectValue : value;
  private : bool;
  level : nat;
  created : bool;
  embedded : bool
}.

(** [&Object{Value: v, Name: name, Complete: complete}] as a caller of the
    package can write it: the other fields are not exported. *)
Definition newObject (v : iface) (name : string) (complete : bool) : Object :=
  {| Value := v; Name := name; Complete := complete;
     reflectType := TBasic ""; reflectValue := VNil;
     private := false; level := 0; created := false; embedded := false |}.

Definition withReflect (o : Object) : Object :=
  {| Value := Value o; Name := Name o; Complete := Complete o;
     reflectType := dynType (Value o); reflectValue := dynValue (Value o);
     private := private o; level := level o; created := created o;
     embedded := embedded o |}.

Definition withLevel (o : Object) (n : nat) : Object :=
  {| Value := Value o; Name := Name o; Complete := Complete o;
     reflectType := reflectType o; reflectValue := reflectValue o;
     private := private o; level := n; created := created o;
     embedded := embedded o |}.

(** A [*Object]: the graph holds every object either in the slice
    [unnamed] or in the map [named]. *)
Inductive oref := RUnnamed (i : nat) | RNamed (name : string).

Global Instance oref_eq_dec : EqDecision oref.
Proof. solve_decision. Defined.

Record Graph := {
  unnamed : list Object;
  unnamedType : gmap string bool;
  named : gmap string Object;
  maxLevel : nat;
  levels : list (list oref)
}.

(** [var g Graph] *)
Definition emptyGraph : Graph :=
  {| unnamed := []; unnamedType := ∅; named := ∅; maxLevel := 0; levels := [] |}.

(** The error kinds, each with the values its message prints. *)
Inductive error :=
  | MalformedTag (rawTag field : string) (owner : rtype)
  | NotAStructReference (t : rtype) (v : value)
  | DuplicateUnnamedType (t : rtype)
  | DuplicateName (name : string)
  | UnexportedInjectTarget (field : string) (owner : rtype)
  | NamedObjectNotFound (name field : string) (owner : rtype)
  | NamedObjectNotAssignable (name : string) (fieldTy : rtype) (field : string) (owner : rtype)
  | PrivateInlineForbidden (field : string) (owner : rtype)
  | MapMustBePrivateOrNamed (field : string) (owner : rtype)
  | UnsupportedInjectField (field : string) (owner : rtype)
  | PrivateCapabilityForbidden (field : string) (owner : rtype)
  | NoAssignableCapabilityValue (field : string) (owner : rtype)
  | AmbiguousCapabilityValue (field : string) (owner : rtype)
      (t1 : rtype) (v1 : value) (t2 : rtype) (v2 : value).

(** ** The state and its monad *)

Record State := { graph : Graph; heap : list value }.

(** How a call ends: it returns, it returns an error, it panics, or the
    model ran out of the fuel given to the work-queue loop. *)
Inductive outcome (A : Type) :=
  | Ret (a : A)
  | Fail (e : error)
  | Crash (why : string)
  | OutOfFuel.

Arguments Ret {A} a.
Arguments Fail {A} e.
Arguments Crash {A} why.
Arguments OutOfFuel {A}.

Definition M (A : Type) : Type := State -> State * outcome A.

Definition ret {A} (a : A) : M A := fun st => (st, Ret a).
Definition fail {A} (e : error) : M A := fun st => (st, Fail e).
Definition crash {A} (why : string) : M A := fun st => (st, Crash why).

Definition bind {A B} (m : M A) (k : A -> M B) : M B :=
  fun st =>
    match m st with
    | (st', Ret a) => k a st'
    | (st', Fail e) => (st', Fail e)
    | (st', Crash why) => (st', Crash why)
    | (st', OutOfFuel) => (st', OutOfFuel)
    end.

Notation "'let*' x ':=' m 'in' k" := (bind m (fun x => k))
  (at level 10, x name, m at level 100, k at level 200).
Notation "m ';;' k" := (bind m (fun _ => k))
  (at level 100, k at level 200, right associativity).

Definition getGraph : M Graph := fun st => (st, Ret (graph st)).
Definition putGraph (g : Graph) : M unit :=
  fun st => ({| graph := g; heap := heap st |}, Ret tt).
Definition getHeap : M (list value) := fun st => (st, Ret (heap st)).
Definition putHeap (h : list value) : M unit :=
  fun st => ({| graph := graph st; heap := h |}, Ret tt).

(** A read that the Go runtime cannot miss; a miss marks a state that no
    Go program reaches. *)
Definition need {A} (o : option A) (why : string) : M A :=
  match o with
  | Some a => ret a
  | None => crash why
  end.

Definition getObject (g : Graph) (r : oref) : option Object :=
  match r with
  | RUnnamed i => unnamed g !! i
  | RNamed name => named g !! name
  end.

Definition setObject (g : Graph) (r : oref) (o : Object) : Graph :=
  match r with
  | RUnnamed i =>
      {| unnamed := <[i := o]> (unnamed g); unnamedType := unnamedType g;
         named := named g; maxLevel := maxLevel g; levels := levels g |}
  | RNamed name =>
      {| unnamed := unnamed g; unnamedType := unnamedType g;
         named := <[name := o]> (named g); maxLevel := maxLevel g;
         levels := levels g |}
  end.

Definition withMaxLevel (g : Graph) (n : nat) : Graph :=
  {| unnamed := unnamed g; unnamedType := unnamedType g; named := named g;
     maxLevel := n; levels := levels g |}.

Definition withLevels (g : Graph) (ls : list (list oref)) : Graph :=
  {| unnamed := unnamed g; unnamedType := unnamedType g; named := named g;
     maxLevel := maxLevel g; levels := ls |}.

(** [if g.maxLevel < newLevel { g.maxLevel = newLevel }] *)
Definition raiseMaxLevel (newLevel : nat) : M unit :=
  let* g := getGraph in
  if maxLevel g <? newLevel then putGraph (withMaxLevel g newLevel) else ret tt.

(** ** Provide *)

(** The body of the loop of [Provide], for one object. *)
Definition provideOne (o : Object) : M unit :=
  let o := withReflect o in
  let* g := getGraph in
  if String.eqb (Name o) "" then
    if negb (isStructPtr (reflectType o)) then
      fail (NotAStructReference (reflectType o) (dynValue (Value o)))
    else if negb (private o) then
      let key := typeString (reflectType o) in
      if default false (unnamedType g !! key) then
        fail (DuplicateUnnamedType (reflectType o))
      else
        putGraph
          {| unnamed := unnamed g ++ [o];
             unnamedType := <[key := true]> (unnamedType g);
             named := named g; maxLevel := maxLevel g; levels := levels g |}
    else
      putGraph
        {| unnamed := unnamed g ++ [o]; unnamedType := unnamedType g;
           named := named g; maxLevel := maxLevel g; levels := levels g |}
  else
    match named g !! Name o with
    | Some _ => fail (DuplicateName (Name o))
    | None =>
        putGraph
          {| unnamed := unnamed g; unnamedType := unnamedType g;
             named := <[Name o := o]> (named g);
             maxLevel := maxLevel g; levels := levels g |}
    end.

Fixpoint Provide (objects : list Object) : M unit :=
  match objects with
  | [] => ret tt
  | o :: rest => provideOne o ;; Provide rest
  end.

(** ** The two population passes *)

(** The order in which the three [range g.named] loops of [Populate] visit
    the keys of the map; Go leaves it unspecified, so it is an input. *)
Record MapOrder := {
  explicitOrder : list string;
  interfaceOrder : list string;
  levelOrder : list string
}.

Section Resolver.

Context (P : Program).

(** [t.AssignableTo(u)] over the types of the model: the same type, or
    [u] an interface that [t] implements. *)
Definition AssignableTo (t u : rtype) : bool :=
  bool_decide (t = u) ||
  match u with
  | TIface i => implements P t i
  | _ => false
  end.

(** The fields of [t.Elem()] for [t] a pointer to a struct. *)
Definition fieldsOf (t : rtype) : option (list StructField) :=
  match t with
  | TPtr (TStruct id) => lookupStruct (structs P) id
  | _ => None
  end.

(** [reflect.DeepEqual] against a zero value, which holds neither a
    pointer nor a map: the two are equal when they have the same shape. *)
Definition DeepEqual (v w : value) : bool := value_eqb v w.

Definition isNilOrZero (v : value) (t : rtype) : bool :=
  match kindOf t with
  | Interface | Ptr => value_eqb v VNil
  | _ => DeepEqual v (Zero (structs P) t)
  end.

(** [field.Set(v)]: reflect panics on a field that is not settable. *)
Definition Set_ (canSet : bool) (a : addr) (v : value) : M unit :=
  if negb canSet then crash "reflect.Value.Set using value obtained using unexported field"
  else
    let* h := getHeap in
    let* h' := need (store h a v) "reflect.Value.Set of a missing field" in
    putHeap h'.

(** [reflect.New(t)]: a pointer to a new zero value of type [t]. *)
Definition New (t : rtype) : M value :=
  let* h := getHeap in
  putHeap (h ++ [Zero (structs P) t]) ;;
  ret (VPtr (length h, [])).

Definition updateLevel (use dep : oref) : M unit :=
  let* g := getGraph in
  let* u := need (getObject g use) "nil use" in
  let* d := need (getObject g dep) "nil dep" in
  let newLevel := level u + 1 in
  if newLevel <=? level d then ret tt
  else
    putGraph (setObject g dep (withLevel d newLevel)) ;;
    raiseMaxLevel newLevel.

(** [for i := start; i < start + count; i++ { body(i) }] *)
Fixpoint forRange (body : nat -> M unit) (count start : nat) : M unit :=
  match count with
  | 0 => ret tt
  | S count' => body start ;; forRange body count' (S start)
  end.

(** The scan of [populateExplicit] over [g.unnamed]: the first object, in
    the order of the slice, that is not private and whose type is
    assignable to the field; [j] is the index of the head of [objs]. *)
Fixpoint findExisting (objs : list Object) (fieldTy : rtype) (j : nat)
  : option (nat * Object) :=
  match objs with
  | [] => None
  | existing :: rest =>
      if private existing then findExisting rest fieldTy (S j)
      else if AssignableTo (reflectType existing) fieldTy then Some (j, existing)
      else findExisting rest fieldTy (S j)
  end.

(** What one round of a struct loop reads first: the object, the address
    of its struct, the declaration of field [i] and the field's value. *)
Definition readField (r : oref) (i : nat) : M (Object * addr * StructField * value) :=
  let* g := getGraph in
  let* o := need (getObject g r) "nil object" in
  let* a :=
    match reflectValue o with
    | VPtr a => ret a
    | _ => crash "call of reflect.Value.NumField on zero Value"
    end in
  let* fields := need (fieldsOf (reflectType o)) "not a struct" in
  let* f := need (fields !! i) "field index out of range" in
  let* h := getHeap in
  let* field := need (load h (fieldAddr a i)) "field index out of range" in
  ret (o, a, f, field).

(** The body of the struct loop of [populateExplicit], for field [i]:
    [o] is the object, [a] the address of its struct, [f] the declaration
    of the field and [field] its value. *)
Definition explicitBody (r : oref) (i : nat) (o : Object) (a : addr)
    (f : StructField) (field : value) : M unit :=
  let fieldTy := fieldType f in
  match parseTag (fieldTag f) with
  | (_, Some _) => fail (MalformedTag (fieldTag f) (fieldName f) (reflectType o))
  | (None, None) => ret tt
  | (Some tag, None) =>
      if negb (exported f) then
        fail (UnexportedInjectTarget (fieldName f) (reflectType o))
      else if negb (isNilOrZero field fieldTy) then ret tt
      else if negb (String.eqb (Tag.Name tag) "") then
        let* g := getGraph in
        match named g !! Tag.Name tag with
        | None =>
            fail (NamedObjectNotFound (Tag.Name tag) (fieldName f) (reflectType o))
        | Some existing =>
            if negb (AssignableTo (reflectType existing) fieldTy) then
              fail (NamedObjectNotAssignable (Tag.Name tag) fieldTy
                      (fieldName f) (reflectType o))
            else
              Set_ (exported f) (fieldAddr a i) (dynValue (Value existing)) ;;
              updateLevel r (RNamed (Tag.Name tag))
        end
      else if bool_decide (kindOf fieldTy = Struct) then
        if bool_decide (tag = injectPrivate) then
          fail (PrivateInlineForbidden (fieldName f) (reflectType o))
        else
          let newLevel := level o + 1 in
          raiseMaxLevel newLevel ;;
          provideOne
            {| Value := {| dynType := TPtr fieldTy;
                           dynValue := VPtr (fieldAddr a i) |};
               Name := ""; Complete := false;
               reflectType := TBasic ""; reflectValue := VNil;
               private := true; level := newLevel;
               created := false; embedded := true |}
      else if bool_decide (kindOf fieldTy = Interface) then ret tt
      else if bool_decide (kindOf fieldTy = Map) then
        if negb (bool_decide (tag = injectPrivate)) then
          fail (MapMustBePrivateOrNamed (fieldName f) (reflectType o))
        else Set_ (exported f) (fieldAddr a i) (VMap 0)
      else if negb (isStructPtr fieldTy) then
        fail (UnsupportedInjectField (fieldName f) (reflectType o))
      else
        let* g := getGraph in
        match
          (if negb (bool_decide (tag = injectPrivate))
           then findExisting (unnamed g) fieldTy 0 else None)
        with
        | Some (j, existing) =>
            Set_ (exported f) (fieldAddr a i) (dynValue (Value existing)) ;;
            updateLevel r (RUnnamed j)
        | None =>
            let* newValue :=
              New (match fieldTy with TPtr elem => elem | _ => fieldTy end) in
            let newLevel := level o + 1 in
            raiseMaxLevel newLevel ;;
            provideOne
              {| Value := {| dynType := fieldTy; dynValue := newValue |};
                 Name := ""; Complete := false;
                 reflectType := TBasic ""; reflectValue := VNil;
                 private := bool_decide (tag = injectPrivate);
                 level := newLevel; created := true; embedded := false |} ;;
            Set_ (exported f) (fieldAddr a i) newValue
        end
  end.

Definition explicitField (r : oref) (i : nat) : M unit :=
  let* rd := readField r i in
  let '(o, a, f, field) := rd in
  explicitBody r i o a f field.

(** The guard and the loop bound shared by the two passes: [None] for a
    named object that is not a pointer to a struct, else [NumField()]. *)
Definition numField (r : oref) : M (option nat) :=
  let* g := getGraph in
  let* o := need (getObject g r) "nil object" in
  if negb (String.eqb (Name o) "") && negb (isStructPtr (reflectType o)) then ret None
  else
    match reflectValue o with
    | VPtr _ =>
        let* fields := need (fieldsOf (reflectType o)) "not a struct" in
        ret (Some (length fields))
    | _ => crash "call of reflect.Value.NumField on zero Value"
    end.

Definition populateExplicit (r : oref) : M unit :=
  let* n := numField r in
  match n with
  | None => ret tt
  | Some n => forRange (explicitField r) n 0
  end.

(** The scan of [populateUnnamedInterface] over [g.unnamed], from index
    [j] for [count] objects: every match is assigned, the second one is
    the error. *)
Fixpoint scanAssignable (r : oref) (o : Object) (a : addr) (f : StructField)
    (i count j : nat) (found : option Object) : M (option Object) :=
  match count with
  | 0 => ret found
  | S count' =>
      let* g := getGraph in
      let* existing := need (unnamed g !! j) "index out of range" in
      if private existing then scanAssignable r o a f i count' (S j) found
      else if AssignableTo (reflectType existing) (fieldType f) then
        match found with
        | Some fnd =>
            fail (AmbiguousCapabilityValue (fieldName f) (reflectType o)
                    (reflectType fnd) (dynValue (Value fnd))
                    (reflectType existing) (reflectValue existing))
        | None =>
            Set_ (exported f) (fieldAddr a i) (dynValue (Value existing)) ;;
            updateLevel r (RUnnamed j) ;;
            scanAssignable r o a f i count' (S j) (Some existing)
        end
      else scanAssignable r o a f i count' (S j) found
  end.

(** The body of the struct loop of [populateUnnamedInterface]. *)
Definition interfaceBody (r : oref) (i : nat) (o : Object) (a : addr)
    (f : StructField) (field : value) : M unit :=
  let fieldTy := fieldType f in
  match parseTag (fieldTag f) with
  | (_, Some _) => fail (MalformedTag (fieldTag f) (fieldName f) (reflectType o))
  | (None, None) => ret tt
  | (Some tag, None) =>
      if negb (bool_decide (kindOf fieldTy = Interface)) then ret tt
      else if bool_decide (tag = injectPrivate) then
        fail (PrivateCapabilityForbidden (fieldName f) (reflectType o))
      else if negb (isNilOrZero field fieldTy) then ret tt
      else if negb (String.eqb (Tag.Name tag) "") then
        crash "unhandled named instance"
      else
        let* g := getGraph in
        let* found := scanAssignable r o a f i (length (unnamed g)) 0 None in
        match found with
        | None => fail (NoAssignableCapabilityValue (fieldName f) (reflectType o))
        | Some _ => ret tt
        end
  end.

Definition interfaceField (r : oref) (i : nat) : M unit :=
  let* rd := readField r i in
  let '(o, a, f, field) := rd in
  interfaceBody r i o a f field.

Definition populateUnnamedInterface (r : oref) : M unit :=
  let* n := numField r in
  match n with
  | None => ret tt
  | Some n => forRange (interfaceField r) n 0
  end.

(** ** Populate *)

(** The first loop of [Populate]: the slice is walked by index while
    objects are appended to it.  Nothing bounds the number of rounds (a
    private field of the type of its own struct never stops creating), so
    the loop takes fuel. *)
Fixpoint explicitQueue (fuel i : nat) : M unit :=
  let* g := getGraph in
  if i =? length (unnamed g) then ret tt
  else
    match fuel with
    | 0 => fun st => (st, OutOfFuel)
    | S fuel' =>
        let* o := need (unnamed g !! i) "index out of range" in
        if Complete o then explicitQueue fuel' (S i)
        else populateExplicit (RUnnamed i) ;; explicitQueue fuel' (S i)
    end.

(** [for _, o := range g.named { if o.Complete { continue }; body(o) }] *)
Fixpoint rangeNamed (body : oref -> M unit) (order : list string) : M unit :=
  match order with
  | [] => ret tt
  | name :: rest =>
      let* g := getGraph in
      match named g !! name with
      | None => rangeNamed body rest
      | Some o =>
          if Complete o then rangeNamed body rest
          else body (RNamed name) ;; rangeNamed body rest
      end
  end.

(** [for _, o := range g.unnamed { if o.Complete { continue }; body(o) }] *)
Definition rangeUnnamed (body : oref -> M unit) : M unit :=
  let* g := getGraph in
  forRange
    (fun j =>
       let* g := getGraph in
       let* o := need (unnamed g !! j) "index out of range" in
       if Complete o then ret tt else body (RUnnamed j))
    (length (unnamed g)) 0.

(** [g.levels[o.level] = append(g.levels[o.level], o)] *)
Definition addToLevel (r : oref) : M unit :=
  let* g := getGraph in
  let* o := need (getObject g r) "nil object" in
  match levels g !! level o with
  | None => crash "index out of range"
  | Some bucket =>
      putGraph (withLevels g (<[level o := bucket ++ [r]]> (levels g)))
  end.

Fixpoint addNamedToLevels (order : list string) : M unit :=
  match order with
  | [] => ret tt
  | name :: rest =>
      let* g := getGraph in
      match named g !! name with
      | None => addNamedToLevels rest
      | Some _ => addToLevel (RNamed name) ;; addNamedToLevels rest
      end
  end.

Definition buildLevels (order : list string) : M unit :=
  let* g := getGraph in
  putGraph (withLevels g (replicate (maxLevel g + 1) [])) ;;
  forRange (fun j => addToLevel (RUnnamed j)) (length (unnamed g)) 0 ;;
  addNamedToLevels order.

Definition Populate (fuel : nat) (order : MapOrder) : M unit :=
  explicitQueue fuel 0 ;;
  rangeNamed populateExplicit (explicitOrder order) ;;
  rangeUnnamed populateUnnamedInterface ;;
  rangeNamed populateUnnamedInterface (interfaceOrder order) ;;
  buildLevels (levelOrder order).

(** [func (g *Graph) Levels() [][]*Object] *)
Definition Levels (g : Graph) : list (list oref) := levels g.

End Resolver.

(** ** The tag grammar of the specification *)

Module TagGrammar.

(** Modelled on the specification's words (section 4.1): a field
    annotation is a sequence of [key:quoted-value] pairs separated by
    spaces, the value being a quoted and escaped string literal.

    [keyOf s k rest]: [s] is the key [k], a colon, then [rest]. *)
Inductive keyOf : string -> string -> string -> Prop :=
  | key_end rest : keyOf (String ":" rest) "" rest
  | key_byte c s k rest :
      c <> " "%char -> c <> ":"%char -> c <> dquote ->
      keyOf s k rest -> keyOf (String c s) (String c k) rest.

(** [bodyOf s body rest]: [s] is [body], the closing quote, then [rest];
    inside [body] a backslash takes the next byte with it. *)
Inductive bodyOf : string -> string -> string -> Prop :=
  | body_end rest : bodyOf (String dquote rest) "" rest
  | body_escape c s body rest :
      bodyOf s body rest ->
      bodyOf (String "\" (String c s)) (String "\" (String c body)) rest
  | body_byte c s body rest :
      c <> dquote -> c <> "\"%char ->
      bodyOf s body rest -> bodyOf (String c s) (String c body) rest.

Definition quoted (body : string) : string :=
  String dquote (body ++ String dquote "")%string.

(** [tagPairs t ps]: the annotation [t] parses, to the pairs [ps]. *)
Inductive tagPairs : string -> list (string * string) -> Prop :=
  | pairs_end : tagPairs "" []
  | pairs_space s ps : tagPairs s ps -> tagPairs (String " " s) ps
  | pairs_pair s k s1 body rest v ps :
      keyOf s k (String dquote s1) ->
      bodyOf s1 body rest ->
      Strconv.Unquote (quoted body) = Some v ->
      tagPairs rest ps ->
      tagPairs s ((k, v) :: ps).

(** The value of the first pair whose key is [inject]. *)
Fixpoint firstInject (ps : list (string * string)) : option string :=
  match ps with
  | [] => None
  | (k, v) :: rest => if String.eqb "inject" k then Some v else firstInject rest
  end.

(** The tag the specification assigns to a parsed annotation: absent,
    plain, private or named. *)
Definition specTag (ps : list (string * string)) : option tag :=
  match firstInject ps with
  | None => None
  | Some v =>
      if String.eqb v "" then Some injectOnly
      else if String.eqb v "private" then Some injectPrivate
      else Some {| Tag.Name := v; Tag.Private := false |}
  end.

End TagGrammar.

(** ** The objects the resolver makes *)

(** The object [populateExplicit] provides for a struct held by value in
    field [i] of the struct at [a], owned by [o]: a private, embedded
    object whose value is the address of the field itself. *)
Definition embeddedObject (o : Object) (a : addr) (i : nat) (fieldTy : rtype) : Object :=
  {| Value := {| dynType := TPtr fieldTy; dynValue := VPtr (fieldAddr a i) |};
     Name := ""; Complete := false;
     reflectType := TPtr fieldTy; reflectValue := VPtr (fieldAddr a i);
     private := true; level := level o + 1;
     created := false; embedded := true |}.

(** The object [populateExplicit] creates for a pointer field of type
    [fieldTy] of [o]: its value is the new cell [cell]. *)
Definition createdObject (o : Object) (fieldTy : rtype) (cell : nat) (priv : bool) : Object :=
  {| Value := {| dynType := fieldTy; dynValue := VPtr (cell, []) |};
     Name := ""; Complete := false;
     reflectType := fieldTy; reflectValue := VPtr (cell, []);
     private := priv; level := level o + 1;
     created := true; embedded := false |}.

(** [g.unnamed = append(g.unnamed, o)] with [g.maxLevel] raised to [n]. *)
Definition appended (g : Graph) (o : Object) (n : nat) : Graph :=
  {| unnamed := unnamed g ++ [o]; unnamedType := unnamedType g;
     named := named g; maxLevel := Nat.max (maxLevel g) n;
     levels := levels g |}.

(** ** FindAssignableUnnamed of the specification *)

Section Registry.

Context (P : Program).

Definition isCandidate (fieldTy : rtype) (e : Object) : bool :=
  negb (private e) && AssignableTo P (reflectType e) fieldTy.

(** Modelled on the specification's words (section 4.2): the linear scan
    of the unnamed entries that returns, in registration order, every
    entry that is not private and whose type satisfies the field type;
    each comes with its index, [j] being the index of the head. *)
Fixpoint FindAssignableUnnamed (fieldTy : rtype) (objs : list Object) (j : nat)
  : list (nat * Object) :=
  match objs with
  | [] => []
  | e :: rest =>
      if isCandidate fieldTy e
      then (j, e) :: FindAssignableUnnamed fieldTy rest (S j)
      else FindAssignableUnnamed fieldTy rest (S j)
  end.

End Registry.

(** ** Relations between graphs *)

(** [extends g g']: every object of [g] is in [g'] under the same
    reference, the same but for its level, which is not lower. *)
Definition extends (g g' : Graph) : Prop :=
  maxLevel g <= maxLevel g' /\
  forall r o, getObject g r = Some o ->
    exists n, level o <= n /\ getObject g' r = Some (withLevel o n).

(** A computation under which the graph only grows, whatever its outcome. *)
Definition grows {A} (m : M A) : Prop :=
  forall st st' out, m st = (st', out) -> extends (graph st) (graph st').

(** [inBucket ls k r]: the reference [r] is in the bucket [ls[k]]. *)
Definition inBucket (ls : list (list oref)) (k : nat) (r : oref) : Prop :=
  exists bucket, ls !! k = Some bucket /\ r ∈ bucket.

(** The graphs differ in their buckets at most. *)
Definition sameObjects (g g' : Graph) : Prop :=
  unnamed g' = unnamed g /\ named g' = named g /\ maxLevel g' = maxLevel g.

(** The references the last loops of [Populate] visit: every unnamed
    object, and the named objects in the order given for the map. *)
Definition visited (order : list string) (r : oref) : Prop :=
  match r with
  | RUnnamed _ => True
  | RNamed name => name ∈ order
  end.

(** [g.unnamed = append(g.unnamed, o)] with the printed type of [o]
    recorded in [g.unnamedType] and [g.maxLevel] raised to [n]. *)
Definition registered (g : Graph) (o : Object) (n : nat) : Graph :=
  {| unnamed := unnamed g ++ [o];
     unnamedType := <[typeString (reflectType o) := true]> (unnamedType g);
     named := named g; maxLevel := Nat.max (maxLevel g) n;
     levels := levels g |}.

(** ** Aliasing *)

(** [occurs c v]: how many pointers to the cell [c] the value [v] holds. *)
Fixpoint occurs (c : nat) (v : value) : nat :=
  match v with
  | VPtr a => if decide (a = (c, [])) then 1 else 0
  | VStruct fs =>
      (fix sum (l : list value) : nat :=
         match l with
         | [] => 0
         | x :: l' => occurs c x + sum l'
         end) fs
  | _ => 0
  end.

(** [aliases c h]: how many fields of the heap [h] point to the cell [c]. *)
Definition aliases (c : nat) (h : list value) : nat :=
  sum_list (map (occurs c) h).

(** [closedb n v]: every pointer in [v] is to one of the first [n] cells. *)
Fixpoint closedb (n : nat) (v : value) : bool :=
  match v with
  | VPtr a => a.1 <? n
  | VStruct fs =>
      (fix all (l : list value) : bool :=
         match l with
         | [] => true
         | x :: l' => closedb n x && all l'
         end) fs
  | _ => true
  end.

(** A state of a Go program: no pointer, in the heap or in the graph,
    leads to a cell that is not allocated. *)
Definition wellFormed (st : State) : Prop :=
  Forall (fun cell => closedb (length (heap st)) cell = true) (heap st) /\
  forall r o, getObject (graph st) r = Some o ->
    closedb (length (heap st)) (dynValue (Value o)) = true.

(** Every object the resolver created as a private instance is a cell of
    its own, to which exactly one field of the heap points and which is
    the value of no other object of the graph. *)
Definition privateIsolated (st : State) : Prop :=
  forall j e,
    unnamed (graph st) !! j = Some e ->
    private e = true -> created e = true ->
    exists c,
      dynValue (Value e) = VPtr (c, []) /\
      aliases c (heap st) = 1 /\
      forall r' o', getObject (graph st) r' = Some o' -> r' <> RUnnamed j ->
        occurs c (dynValue (Value o')) = 0.

Definition isolated (st : State) : Prop := wellFormed st /\ privateIsolated st.

(** A computation that keeps [I], whatever its outcome. *)
Definition preserves {A} (I : State -> Prop) (m : M A) : Prop :=
  forall st st' out, I st -> m st = (st', out) -> I st'.

(** ** Programs and states used as examples *)

Module Examples.

(** A Go raw string with ['] written for the double quote. *)
Fixpoint lit (s : string) : string :=
  match s with
  | EmptyString => EmptyString
  | String c r =>
      String (if Ascii.eqb c "'"%char then dquote else c) (lit r)
  end.

Definition inTest (name : string) : tid :=
  {| pkgPath := "github.com/facebookgo/inject_test";
     pkgName := "inject_test"; tyName := name |}.

Definition tagged (name : string) (t : rtype) (rawTag : string) : StructField :=
  {| fieldName := name; fieldType := t; fieldTag := lit rawTag; exported := true |}.

Definition ptrTo (name : string) : rtype := TPtr (TStruct (inTest name)).

Definition unnamedObject (t : rtype) (cell : nat) : Object :=
  newObject {| dynType := t; dynValue := VPtr (cell, []) |} "" false.

Definition namedObject (t : rtype) (cell : nat) (name : string) : Object :=
  newObject {| dynType := t; dynValue := VPtr (cell, []) |} name false.

Definition noOrder : MapOrder :=
  {| explicitOrder := []; interfaceOrder := []; levelOrder := [] |}.

Definition oneName (name : string) : MapOrder :=
  {| explicitOrder := [name]; interfaceOrder := [name]; levelOrder := [name] |}.

Definition Answerable : tid := inTest "Answerable".

(** The types of the package's tests, with two of their own: a struct
    holding [TypeNestedStruct] by value under the tag [inject:"inline"]
    and one holding it under the plain tag. *)
Definition testProgram : Program :=
  {| structs :=
       [ (inTest "TypeWithInline",
          [tagged "Inline" (TStruct (inTest "TypeNestedStruct")) "inject:'inline'"]);
         (inTest "TypeWithPlainStruct",
          [tagged "Inline" (TStruct (inTest "TypeNestedStruct")) "inject:''"]);
         (inTest "TypeWithJustColon",
          [tagged "A" (ptrTo "TypeAnswerStruct") "inject:"]);
         (inTest "TypeInjectSimple",
          [tagged "A" (ptrTo "TypeAnswerStruct") "inject:''";
           tagged "B" (ptrTo "TypeNestedStruct") "inject:''"]);
         (inTest "TypeInjectPrivate",
          [tagged "A" (ptrTo "TypeAnswerStruct") "inject:'private'";
           tagged "B" (ptrTo "TypeNestedStruct") "inject:''"]);
         (inTest "TypeInjectInterface",
          [tagged "Answerable" (TIface Answerable) "inject:''";
           tagged "A" (ptrTo "TypeAnswerStruct") "inject:''"]);
         (inTest "TypeInjectTwoSatisfyInterface",
          [tagged "Answerable" (TIface Answerable) "inject:''";
           tagged "A" (ptrTo "TypeAnswerStruct") "inject:''";
           tagged "B" (ptrTo "TypeNestedStruct") "inject:''"]);
         (inTest "TypeInjectInterfaceMissing",
          [tagged "Answerable" (TIface Answerable) "inject:''"]);
         (inTest "TypeWithNamed",
          [tagged "A" (TBasic "int") "inject:'answer'"]);
         (inTest "TypeNestedStruct",
          [tagged "A" (ptrTo "TypeAnswerStruct") "inject:''"]);
         (inTest "TypeAnswerStruct",
          [ {| fieldName := "answer"; fieldType := TBasic "int";
               fieldTag := ""; exported := false |};
            {| fieldName := "private"; fieldType := TBasic "int";
               fieldTag := ""; exported := false |} ]) ];
     implements := fun t i =>
       bool_decide (i = Answerable) &&
       (bool_decide (t = ptrTo "TypeAnswerStruct") ||
        bool_decide (t = ptrTo "TypeNestedStruct")) |}.

(** [var v T]: a zero value of the struct type [name], in a cell. *)
Definition zeroOf (name : string) : value :=
  Zero (structs testProgram) (TStruct (inTest name)).

(** The state after [g.Provide(objects...)] on a fresh graph. *)
Definition provided (h : list value) (objects : list Object) : State :=
  fst (Provide objects {| graph := emptyGraph; heap := h |}).

(** Two struct types named [Foo], declared in two packages that are both
    called [injecttest]: different types with one printed name.  [Holder]
    asks for the second. *)
Definition fooA : tid :=
  {| pkgPath := "github.com/facebookgo/inject/injecttesta";
     pkgName := "injecttest"; tyName := "Foo" |}.

Definition fooB : tid :=
  {| pkgPath := "github.com/facebookgo/inject/injecttestb";
     pkgName := "injecttest"; tyName := "Foo" |}.

Definition twoPackages : Program :=
  {| structs :=
       [ (inTest "Holder", [tagged "F" (TPtr (TStruct fooB)) "inject:''"]);
         (fooA, []);
         (fooB, []) ];
     implements := fun _ _ => false |}.

(** The types of [TestForNamedWithUnnamed]: a root whose field asks for a
    [First], which asks for a [Second]. *)
Definition namedRoot : Program :=
  {| structs :=
       [ (inTest "TypeForNamedWithUnnamed",
          [tagged "First" (ptrTo "First") "inject:''"]);
         (inTest "First", [tagged "Second" (ptrTo "Second") "inject:''"]);
         (inTest "Second", []) ];
     implements := fun _ _ => false |}.

(** The root, provided under the name [foo] and populated once. *)
Definition namedRootOnce : State :=
  fst (Populate namedRoot 8 (oneName "foo")
         (provided [VStruct [VNil]]
            [namedObject (ptrTo "TypeForNamedWithUnnamed") 0 "foo"])).

(** The state after the first loop of [Populate]. *)
Definition afterExplicit (st : State) : State :=
  fst (explicitQueue testProgram 8 0 st).

End Examples.

(** ** The rest of the package *)

(** The loops of [Populate] that come before the levels are built: the
    work-queue loop and the sweep of the named objects of the first pass,
    then the two sweeps of the second pass. *)
Definition populatePasses (P : Program) (fuel : nat) (order : MapOrder) : M unit :=
  explicitQueue P fuel 0 ;;
  rangeNamed (populateExplicit P) (explicitOrder order) ;;
  rangeUnnamed (populateUnnamedInterface P) ;;
  rangeNamed (populateUnnamedInterface P) (interfaceOrder order).

(** The function [Populate] of the package, a short-hand for populating a
    graph with the given values: a new graph, every value provided
    without a name, then [g.Populate()].  The map [named] of the new
    graph stays empty, so the [range] loops over it visit nothing. *)
Definition PopulateValues (P : Program) (fuel : nat) (values : list iface) : M unit :=
  putGraph emptyGraph ;;
  Provide (map (fun v => newObject v "" false) values) ;;
  Populate P fuel {| explicitOrder := []; interfaceOrder := []; levelOrder := [] |}.

(** ** Invariants of the graph *)

(** What [Provide] establishes: every unnamed object is a pointer to a
    struct and carries the type and the value of its [Value]; the printed
    type of every unnamed object that is not private is recorded in
    [unnamedType], and no two of them have the same printed type; every
    named object is stored under its own name, which is not empty. *)
Definition registryOK (g : Graph) : Prop :=
  (forall j o, unnamed g !! j = Some o ->
     Name o = "" /\ isStructPtr (reflectType o) = true /\
     reflectType o = dynType (Value o) /\ reflectValue o = dynValue (Value o)) /\
  (forall j o, unnamed g !! j = Some o -> private o = false ->
     unnamedType g !! typeString (reflectType o) = Some true) /\
  (forall i j oi oj, unnamed g !! i = Some oi -> unnamed g !! j = Some oj ->
     private oi = false -> private oj = false ->
     typeString (reflectType oi) = typeString (reflectType oj) -> i = j) /\
  (forall name o, named g !! name = Some o ->
     Name o = name /\ name <> "" /\
     reflectType o = dynType (Value o) /\ reflectValue o = dynValue (Value o)).

(** No level is above [g.maxLevel], and an object the resolver made (for
    a pointer field or for a struct held by value) is above level 0. *)
Definition levelsOK (g : Graph) : Prop :=
  forall r o, getObject g r = Some o ->
    level o <= maxLevel g /\
    (created o = true \/ embedded o = true -> 1 <= level o).

(** A field that is set: it holds a pointer, a map, or a scalar other
    than zero. *)
Definition isSet (v : value) : bool :=
  match v with
  | VPtr _ | VMap _ => true
  | VScalar z => negb (Z.eqb z 0)
  | VNil | VStruct _ => false
  end.

(** [blank v]: no field of [v], at any depth, is set. *)
Fixpoint blank (v : value) : bool :=
  match v with
  | VNil => true
  | VScalar z => Z.eqb z 0
  | VPtr _ | VMap _ => false
  | VStruct fs =>
      (fix all (l : list value) : bool :=
         match l with
         | [] => true
         | x :: l' => blank x && all l'
         end) fs
  end.

(** [keeps h h']: every field that is set in [h] holds the same value in
    [h']. *)
Definition keeps (h h' : list value) : Prop :=
  forall a w, load h a = Some w -> isSet w = true -> load h' a = Some w.

(** [awaitsInstance P st r i a ty]: field [i] of the struct of the object
    [r], at the address [a], is a field that [populateExplicit] is to
    fill with the instance of the type [ty]: it is exported, carries the
    plain tag, is a pointer to a struct and is still nil. *)
Definition awaitsInstance (P : Program) (st : State) (r : oref) (i : nat)
    (a : addr) (ty : rtype) : Prop :=
  exists o f field tag,
    readField P r i st = (st, Ret (o, a, f, field)) /\
    parseTag (fieldTag f) = (Some tag, None) /\
    Tag.Name tag = "" /\ tag <> injectPrivate /\
    exported f = true /\
    fieldType f = ty /\ isStructPtr ty = true /\
    isNilOrZero P field ty = true.

(** ** More programs and states used as examples *)

Module MoreExamples.

Import Examples.

(** [TestInjectSimple]: the root, provided. *)
Definition simpleRoot : State :=
  provided [zeroOf "TypeInjectSimple"]
    [unnamedObject (ptrTo "TypeInjectSimple") 0].

(** The root of [TestInjectSimple] and a [TypeNestedStruct], both
    provided: each has a field [A] of type [*TypeAnswerStruct]. *)
Definition simpleAndNested : State :=
  provided [zeroOf "TypeInjectSimple"; zeroOf "TypeNestedStruct"]
    [unnamedObject (ptrTo "TypeInjectSimple") 0;
     unnamedObject (ptrTo "TypeNestedStruct") 1].

(** [TestCompleteProvides]: the root is provided as [Complete]. *)
Definition completeRoot : State :=
  provided [zeroOf "TypeInjectSimple"]
    [newObject {| dynType := ptrTo "TypeInjectSimple"; dynValue := VPtr (0, []) |}
       "" true].

(** [TestDoesNotOverwrite]: the field [A] of the root is set by the
    caller, to the cell 1. *)
Definition halfSet : State :=
  provided [VStruct [VPtr (1, []); VNil]; zeroOf "TypeAnswerStruct"]
    [unnamedObject (ptrTo "TypeInjectSimple") 0].

(** A struct whose one field is a private pointer to a struct of its own
    type. *)
Definition selfPrivate : Program :=
  {| structs :=
       [ (inTest "Loop", [tagged "Next" (ptrTo "Loop") "inject:'private'"]) ];
     implements := fun _ _ => false |}.

(** [TestInjectTwoSatisfyInterface], after the explicit pass. *)
Definition twoAnswerable : State :=
  afterExplicit
    (provided [zeroOf "TypeInjectTwoSatisfyInterface"]
       [unnamedObject (ptrTo "TypeInjectTwoSatisfyInterface") 0]).

(** [TestInjectInterface]: the root, provided. *)
Definition interfaceRoot : State :=
  provided [zeroOf "TypeInjectInterface"]
    [unnamedObject (ptrTo "TypeInjectInterface") 0].

End MoreExamples.

(** ** What the passes are to fill *)

(** [isTarget f]: the field is a pointer to a struct under the plain or
    the private tag, for which [populateExplicit] wires or creates an
    instance. *)
Definition isTarget (f : StructField) : bool :=
  match parseTag (fieldTag f) with
  | (Some tag, None) => String.eqb (Tag.Name tag) "" && isStructPtr (fieldType f)
  | _ => false
  end.

(** The field at [a] holds a pointer, a map or a non-zero scalar. *)
Definition filled (h : list value) (a : addr) : Prop :=
  exists v, load h a = Some v /\ isSet v = true.

(** The field at [a], when it can be read, is nil or set: what a field of
    pointer type holds in a Go program. *)
Definition tidy (h : list value) (a : addr) : Prop :=
  forall v, load h a = Some v -> v = VNil \/ isSet v = true.

(** [isCapability f]: the field is of interface type under a tag that
    names no object and is not private, for which
    [populateUnnamedInterface] looks for the one value that is
    assignable. *)
Definition isCapability (f : StructField) : bool :=
  match parseTag (fieldTag f) with
  | (Some tag, None) =>
      String.eqb (Tag.Name tag) "" && negb (bool_decide (tag = injectPrivate)) &&
      bool_decide (kindOf (fieldType f) = Interface)
  | _ => false
  end.

(** [fieldOf want P g incomplete j a k]: field [k] of the struct at [a]
    is a field that [want] selects of the unnamed object [j] of the graph
    [g], which is not [Complete] when [incomplete] is set. *)
Definition fieldOf (want : StructField -> bool) (P : Program) (g : Graph)
    (incomplete : bool) (j : nat) (a : addr) (k : nat) : Prop :=
  exists o fs f,
    unnamed g !! j = Some o /\ (incomplete = true -> Complete o = false) /\
    reflectValue o = VPtr a /\
    fieldsOf P (reflectType o) = Some fs /\ fs !! k = Some f /\
    want f = true.

(** The targets of the explicit pass and those of the capability pass. *)
Definition targetOf := fieldOf isTarget.
Definition capabilityOf := fieldOf isCapability.

(** A state of a Go program that holds unnamed objects only: the value of
    every object is a pointer to an allocated cell, and every field that
    one of the two passes is to fill is nil or set. *)
Definition ready (P : Program) (st : State) : Prop :=
  named (graph st) = ∅ /\
  (forall j o, unnamed (graph st) !! j = Some o ->
     exists a, dynValue (Value o) = VPtr a /\ reflectValue o = VPtr a /\
               a.1 < length (heap st)) /\
  (forall j a k,
     fieldOf (fun f => isTarget f || isCapability f) P (graph st) false j a k ->
     tidy (heap st) (fieldAddr a k)).

(** * Properties *)

(** ** The tag parser *)

Section TagParser.

Import TagGrammar.

Lemma extractTag_loop_unfold fuel tag :
  extractTag_loop fuel tag =
  if String.eqb tag "" then (false, "", None) else
  let tag := from (skipSpaces tag) tag in
  if String.eqb tag "" then (false, "", None) else
  let i := scanKey tag in
  if (len tag <=? i + 1)%nat || negb (isByte ":"%char (at_ i tag))
     || negb (isByte dquote (at_ (i + 1) tag))
  then (false, "", Some errInvalidTag) else
  let name := upto i tag in
  let tag := from (i + 1) tag in
  let i := 1 + scanQuoted (from 1 tag) in
  if (len tag <=? i)%nat then (false, "", Some errInvalidTag) else
  let qvalue := upto (i + 1) tag in
  let tag := from (i + 1) tag in
  if String.eqb "inject" name then
    match Strconv.Unquote qvalue with
    | None => (false, "", Some ErrSyntax)
    | Some value => (true, value, None)
    end
  else
    match fuel with
    | 0 => (false, "", None)
    | S fuel' => extractTag_loop fuel' tag
    end.
Proof. destruct fuel; reflexivity. Qed.

Lemma isByte_refl c : isByte c (Some c) = true.
Proof. apply Ascii.eqb_refl. Qed.

Lemma len_from i s : len (from i s) = len s - i.
Proof.
  revert s; induction i as [|i IH]; intros [|c s]; simpl; try lia.
  apply IH.
Qed.


Lemma keyOf_scan s k rest :
  keyOf s k rest ->
  scanKey s = len k /\ upto (len k) s = k /\
  from (len k) s = String ":" rest /\ skipSpaces s = 0 /\ s <> "".
Proof.
  induction 1 as [rest|c s k rest Hs Hc Hq _ (IH1 & IH2 & IH3 & _)]; simpl.
  - repeat split; congruence.
  - destruct (Ascii.eqb_spec c " "); [contradiction|].
    destruct (Ascii.eqb_spec c ":"); [contradiction|].
    destruct (Ascii.eqb_spec c dquote); [contradiction|].
    simpl. rewrite IH1, IH2, IH3. repeat split; congruence.
Qed.

Lemma bodyOf_scan s body rest :
  bodyOf s body rest ->
  scanQuoted s = len body /\ upto (len body + 1) s = (body ++ String dquote "")%string /\
  from (len body + 1) s = rest /\ len body < len s.
Proof.
  induction 1 as [rest|c s body rest _ (IH1 & IH2 & IH3 & IH4)
                 |c s body rest Hq Hb _ (IH1 & IH2 & IH3 & IH4)]; simpl.
  - repeat split; lia.
  - rewrite IH1. change (len body + 1) with (len body + 1) in *.
    rewrite IH2, IH3. repeat split; lia.
  - destruct (Ascii.eqb_spec c dquote); [contradiction|].
    destruct (Ascii.eqb_spec c "\"); [contradiction|].
    rewrite IH1, IH2, IH3. repeat split; lia.
Qed.

Lemma from_succ_colon n s rest :
  from n s = String ":" rest -> from (n + 1) s = rest /\ at_ n s = Some ":"%char
  /\ len s = n + 1 + len rest.
Proof.
  revert s; induction n as [|n IH]; intros s H; simpl in *.
  - subst. repeat split.
  - destruct s as [|c s]; [discriminate|]. simpl.
    destruct (IH _ H) as (-> & E & ->). repeat split. exact E.
Qed.

Lemma at_from n s c rest : from n s = String c rest -> at_ n s = Some c.
Proof.
  revert s; induction n as [|n IH]; intros s H; simpl in *.
  - subst. reflexivity.
  - destruct s as [|d s]; [discriminate|]. simpl. apply IH, H.
Qed.

(** On an annotation that parses, the loop returns the first inject value. *)
Lemma extractTag_loop_pairs t ps :
  tagPairs t ps ->
  forall fuel, len t <= fuel ->
  extractTag_loop fuel t =
  match firstInject ps with
  | Some v => (true, v, None)
  | None => (false, "", None)
  end.
Proof.
  induction 1 as [|s ps _ IH|s k s1 body rest v ps Hk Hb Hu _ IH]; intros fuel Hfuel.
  - rewrite extractTag_loop_unfold. reflexivity.
  - specialize (IH fuel ltac:(simpl in Hfuel; lia)).
    rewrite extractTag_loop_unfold in IH |- *.
    change (String.eqb (String " " s) "") with false. cbv iota.
    change (from (skipSpaces (String " " s)) (String " " s))
      with (from (skipSpaces s) s).
    destruct s as [|c s']; [exact IH|].
    change (String.eqb (String c s') "") with false in IH. exact IH.
  - destruct (keyOf_scan _ _ _ Hk) as (Hscan & Hname & Hfrom & Hsp & Hne).
    destruct (bodyOf_scan _ _ _ Hb) as (Hq & Hval & Hrest & Hlt).
    destruct (from_succ_colon _ _ _ Hfrom) as (Hfrom1 & Hat & Hlen).
    rewrite extractTag_loop_unfold.
    destruct (String.eqb_spec s ""); [contradiction|].
    rewrite Hsp. change (from 0 s) with s. cbv zeta.
    destruct (String.eqb_spec s ""); [contradiction|].
    rewrite Hscan, Hat, Hfrom1, (at_from _ _ _ _ Hfrom1), !isByte_refl.
    change (len (String dquote s1)) with (S (len s1)) in Hlen.
    destruct (Nat.leb_spec (len s) (len k + 1)); [lia|].
    cbn [negb orb from Nat.add]. rewrite Hq.
    change (len (String dquote s1)) with (S (len s1)).
    destruct (Nat.leb_spec (S (len s1)) (S (len body))); [lia|].
    rewrite Hname. cbn [upto from]. rewrite Hval, Hrest.
    fold (quoted body). rewrite Hu.
    cbn [firstInject].
    destruct (String.eqb "inject" k); [reflexivity|].
    destruct fuel as [|fuel]; [lia|].
    apply IH. rewrite <- Hrest, len_from. lia.
Qed.

Lemma parseTag_pairs t ps : tagPairs t ps -> parseTag t = (specTag ps, None).
Proof.
  intros H. unfold parseTag, extractTag, specTag.
  rewrite (extractTag_loop_pairs _ _ H _ (Nat.le_refl _)).
  destruct (firstInject ps) as [v|]; [|reflexivity].
  simpl. destruct (String.eqb v ""); [reflexivity|].
  destruct (String.eqb v "private"); reflexivity.
Qed.

End TagParser.

(** ** Stepping through the struct loops *)

Section Stepping.

Context (P : Program).

Lemma explicitField_read r i st o a f field :
  readField P r i st = (st, Ret (o, a, f, field)) ->
  explicitField P r i st = explicitBody P r i o a f field st.
Proof. intros H. unfold explicitField, bind. rewrite H. reflexivity. Qed.

Lemma interfaceField_read r i st o a f field :
  readField P r i st = (st, Ret (o, a, f, field)) ->
  interfaceField P r i st = interfaceBody P r i o a f field st.
Proof. intros H. unfold interfaceField, bind. rewrite H. reflexivity. Qed.

(** What a successful [readField] has read. *)
Lemma readField_inv r i st st' o a f field :
  readField P r i st = (st', Ret (o, a, f, field)) ->
  st' = st /\ getObject (graph st) r = Some o /\ reflectValue o = VPtr a /\
  (exists fields, fieldsOf P (reflectType o) = Some fields /\ fields !! i = Some f) /\
  load (heap st) (fieldAddr a i) = Some field.
Proof.
  unfold readField, bind, getGraph, getHeap, need, ret, crash.
  destruct (getObject (graph st) r) as [o'|]; [|discriminate].
  destruct (reflectValue o') as [| |a'| |] eqn:Ea; try discriminate.
  destruct (fieldsOf P (reflectType o')) as [fields|] eqn:Ef; [|discriminate].
  destruct (fields !! i) as [f'|] eqn:Ei; [|discriminate].
  destruct (load (heap st) (fieldAddr a' i)) as [v|] eqn:El; [|discriminate].
  intros [= <- <- <- <- <-]. eauto 10.
Qed.

Lemma raiseMaxLevel_run n st :
  raiseMaxLevel n st =
  ({| graph := withMaxLevel (graph st) (Nat.max (maxLevel (graph st)) n);
      heap := heap st |}, Ret tt).
Proof.
  unfold raiseMaxLevel, bind, getGraph, putGraph, ret.
  destruct st as [g h]; simpl.
  destruct (Nat.ltb_spec (maxLevel g) n).
  - rewrite Nat.max_r by lia. reflexivity.
  - rewrite Nat.max_l by lia. destruct g; reflexivity.
Qed.

Lemma getPath_setPath v p w new :
  getPath v p = Some w -> exists v', setPath v p new = Some v'.
Proof.
  revert v; induction p as [|i p IH]; intros v H; simpl in *; [eauto|].
  destruct v as [| | | |fs]; try discriminate.
  destruct (fs !! i) as [x|]; [|discriminate].
  destruct (IH _ H) as [x' ->]. eauto.
Qed.

(** A field that can be read can be written. *)
Lemma load_store h a w new :
  load h a = Some w -> exists h', store h a new = Some h'.
Proof.
  unfold load, store. destruct (h !! a.1) as [c|]; [|discriminate].
  intros H. destruct (getPath_setPath _ _ _ new H) as [c' ->]. eauto.
Qed.

Lemma Set_run a v st h' :
  store (heap st) a v = Some h' ->
  Set_ true a v st = ({| graph := graph st; heap := h' |}, Ret tt).
Proof.
  intros H. unfold Set_, bind, getHeap, putHeap, need, ret. simpl.
  rewrite H. reflexivity.
Qed.

Lemma Set_run_at g h a v h' :
  store h a v = Some h' ->
  Set_ true a v {| graph := g; heap := h |} = ({| graph := g; heap := h' |}, Ret tt).
Proof. intros H. apply (Set_run a v {| graph := g; heap := h |} h' H). Qed.

End Stepping.

(** ** C3 and C6: what the parser accepts *)

Section TagClaims.

Import TagGrammar Examples.

Ltac invert_grammar :=
  repeat match goal with
    | H : tagPairs (String _ _) _ |- _ => inversion H; clear H; subst
    | H : tagPairs EmptyString _ |- _ => inversion H; clear H; subst
    | H : keyOf (String _ _) _ _ |- _ => inversion H; clear H; subst
    | H : keyOf EmptyString _ _ |- _ => inversion H
    | H : bodyOf (String _ _) _ _ |- _ => inversion H; clear H; subst
    | H : bodyOf EmptyString _ _ |- _ => inversion H
    | H : ?c <> ?c |- _ => contradiction
    | H : _ <> dquote |- _ => now (exfalso; apply H)
    end.

Ltac build_key :=
  repeat first
    [ apply key_end
    | apply key_byte; [discriminate | discriminate | discriminate | ] ].

Ltac build_body :=
  repeat first
    [ apply body_end
    | apply body_escape
    | apply body_byte; [discriminate | discriminate | ] ].

(** C3, the claim as stated fails: the annotation [inject:"" x] does not
    parse as a sequence of key:"value" pairs (after the first pair comes a
    key without a colon), and [parseTag] returns the plain tag for it, with
    no error. *)
Lemma parseTag_accepts_trailing_text :
  parseTag (lit "inject:'' x") = (Some injectOnly, None) /\
  ~ (exists ps, tagPairs (lit "inject:'' x") ps).
Proof.
  split; [reflexivity|].
  intros [ps H]. cbv [lit Ascii.eqb Bool.eqb] in H. invert_grammar.
Qed.

(** C3, amended: on every annotation that parses as the grammar,
    [parseTag] returns the tag of the first inject pair (absent when there
    is none, plain for the empty value, private for [private], named for
    any other value); it fails only on annotations that do not parse; and
    when it fails, both struct loops return the error that carries the raw
    annotation, the field name and the owning type. *)
Theorem parseTag_follows_grammar :
  (forall t ps, tagPairs t ps -> parseTag t = (specTag ps, None)) /\
  (forall t e, snd (parseTag t) = Some e -> ~ (exists ps, tagPairs t ps)) /\
  (forall P r i st o a f field e,
     readField P r i st = (st, Ret (o, a, f, field)) ->
     snd (parseTag (fieldTag f)) = Some e ->
     explicitField P r i st =
       (st, Fail (MalformedTag (fieldTag f) (fieldName f) (reflectType o))) /\
     interfaceField P r i st =
       (st, Fail (MalformedTag (fieldTag f) (fieldName f) (reflectType o)))).
Proof.
  split; [exact parseTag_pairs|]. split.
  - intros t e He [ps H]. rewrite (parseTag_pairs _ _ H) in He. discriminate.
  - intros P r i st o a f field e Hread He.
    rewrite (explicitField_read _ _ _ _ _ _ _ _ Hread).
    rewrite (interfaceField_read _ _ _ _ _ _ _ _ Hread).
    unfold explicitBody, interfaceBody.
    destruct (parseTag (fieldTag f)) as [[t|] [e'|]]; try discriminate;
      split; reflexivity.
Qed.

(** The annotations of the package documentation parse, and
    [TestTagWithJustColon] gets the message with its raw tag. *)
Lemma parseTag_follows_grammar_witness :
  parseTag (lit "json:'x' inject:'dev logger'") =
    (Some {| Tag.Name := "dev logger"; Tag.Private := false |}, None) /\
  explicitField testProgram (RUnnamed 0) 0
    (provided [zeroOf "TypeWithJustColon"]
       [unnamedObject (ptrTo "TypeWithJustColon") 0]) =
    (provided [zeroOf "TypeWithJustColon"]
       [unnamedObject (ptrTo "TypeWithJustColon") 0],
     Fail (MalformedTag "inject:" "A" (ptrTo "TypeWithJustColon"))).
Proof.
  destruct parseTag_follows_grammar as (Hok & _ & Hecho). split.
  - apply (Hok _ [("json", "x"); ("inject", "dev logger")]).
    cbv [lit Ascii.eqb Bool.eqb].
    eapply pairs_pair; [build_key | build_body | reflexivity |].
    apply pairs_space.
    eapply pairs_pair; [build_key | build_body | reflexivity |].
    apply pairs_end.
  - refine (proj1 (Hecho testProgram (RUnnamed 0) 0 _
              (withReflect (unnamedObject (ptrTo "TypeWithJustColon") 0))
              (0, []) (tagged "A" (ptrTo "TypeAnswerStruct") "inject:") VNil
              errInvalidTag _ _)); reflexivity.
Defined.

End TagClaims.

Section InlineClaims.

Import Examples.

Context (P : Program).

(** C6, amended: the value [inline] is a name like any other.  The parser
    returns the named tag [inline], and the explicit pass resolves a field
    so tagged, whatever its type, as the binding to the object named
    [inline]: an error when the graph has none or when its type is not
    assignable, and the assignment of that object's value otherwise. *)
Theorem inline_is_a_name r i st o a f field :
  readField P r i st = (st, Ret (o, a, f, field)) ->
  fieldTag f = lit "inject:'inline'" ->
  exported f = true ->
  isNilOrZero P field (fieldType f) = true ->
  parseTag (fieldTag f) = (Some {| Tag.Name := "inline"; Tag.Private := false |}, None) /\
  match named (graph st) !! "inline" with
  | None =>
      explicitField P r i st =
        (st, Fail (NamedObjectNotFound "inline" (fieldName f) (reflectType o)))
  | Some existing =>
      if AssignableTo P (reflectType existing) (fieldType f) then
        explicitField P r i st =
          (Set_ true (fieldAddr a i) (dynValue (Value existing)) ;;
           updateLevel r (RNamed "inline")) st
      else
        explicitField P r i st =
          (st, Fail (NamedObjectNotAssignable "inline" (fieldType f)
                       (fieldName f) (reflectType o)))
  end.
Proof.
  intros Hread Htag Hexp Hzero.
  assert (Hp : parseTag (fieldTag f) =
               (Some {| Tag.Name := "inline"; Tag.Private := false |}, None))
    by (rewrite Htag; reflexivity).
  split; [exact Hp|].
  rewrite (explicitField_read _ _ _ _ _ _ _ _ Hread).
  unfold explicitBody. rewrite Hp, Hexp, Hzero.
  cbn [negb Tag.Name]. change (String.eqb "inline" "") with false. cbn [negb].
  destruct (named (graph st) !! "inline") as [existing|] eqn:En.
  - destruct (AssignableTo P (reflectType existing) (fieldType f)) eqn:Ea;
      unfold bind at 1, getGraph; cbv beta iota; rewrite En, Ea; reflexivity.
  - unfold bind at 1, getGraph; cbv beta iota; rewrite En; reflexivity.
Qed.

(** C7, amended: a struct held by value under the plain tag is not
    rejected.  The explicit pass provides a private, embedded object for
    the storage of the field, one level below its owner, and leaves the
    heap as it is: the field is traversed without an inline marker. *)
Theorem plain_struct_field_is_traversed r i st o a f field :
  readField P r i st = (st, Ret (o, a, f, field)) ->
  parseTag (fieldTag f) = (Some injectOnly, None) ->
  exported f = true ->
  kindOf (fieldType f) = Struct ->
  isNilOrZero P field (fieldType f) = true ->
  explicitField P r i st =
    ({| graph := appended (graph st) (embeddedObject o a i (fieldType f)) (level o + 1);
        heap := heap st |}, Ret tt).
Proof.
  intros Hread Htag Hexp Hkind Hzero.
  rewrite (explicitField_read _ _ _ _ _ _ _ _ Hread).
  unfold explicitBody. rewrite Htag, Hexp, Hzero, Hkind.
  cbn [negb Tag.Name injectOnly String.eqb].
  rewrite bool_decide_eq_true_2 by reflexivity.
  rewrite bool_decide_eq_false_2 by discriminate.
  unfold bind at 1. rewrite raiseMaxLevel_run.
  unfold provideOne, withReflect, bind, getGraph, putGraph, fail. cbn.
  rewrite Hkind. rewrite bool_decide_eq_true_2 by reflexivity. reflexivity.
Qed.

End InlineClaims.

Section InlineExamples.

Import Examples.

(** C6, the claim as stated fails: on a struct that holds
    [TypeNestedStruct] by value under [inject:"inline"], [Populate] looks
    for an object named [inline] and returns the error of a missing named
    object; the field is not traversed. *)
Lemma inline_tag_is_looked_up_by_name :
  parseTag (lit "inject:'inline'") =
    (Some {| Tag.Name := "inline"; Tag.Private := false |}, None) /\
  Populate testProgram 8 noOrder
    (provided [zeroOf "TypeWithInline"] [unnamedObject (ptrTo "TypeWithInline") 0]) =
  (provided [zeroOf "TypeWithInline"] [unnamedObject (ptrTo "TypeWithInline") 0],
   Fail (NamedObjectNotFound "inline" "Inline" (ptrTo "TypeWithInline"))).
Proof. split; reflexivity. Qed.

Lemma inline_is_a_name_witness :
  explicitField testProgram (RUnnamed 0) 0
    (provided [zeroOf "TypeWithInline"] [unnamedObject (ptrTo "TypeWithInline") 0]) =
  (provided [zeroOf "TypeWithInline"] [unnamedObject (ptrTo "TypeWithInline") 0],
   Fail (NamedObjectNotFound "inline" "Inline" (ptrTo "TypeWithInline"))).
Proof.
  refine (proj2 (inline_is_a_name testProgram (RUnnamed 0) 0
            (provided [zeroOf "TypeWithInline"]
               [unnamedObject (ptrTo "TypeWithInline") 0])
            (withReflect (unnamedObject (ptrTo "TypeWithInline") 0)) (0, [])
            (tagged "Inline" (TStruct (inTest "TypeNestedStruct")) "inject:'inline'")
            (VStruct [VNil]) _ _ _ _)); reflexivity.
Defined.

(** C7, the claim as stated fails: on a struct that holds
    [TypeNestedStruct] by value under the plain tag, [Populate] returns
    without an error, having provided the embedded object and filled the
    field [A] of the nested struct. *)
Lemma plain_struct_field_is_accepted :
  snd (Populate testProgram 8 noOrder
         (provided [zeroOf "TypeWithPlainStruct"]
            [unnamedObject (ptrTo "TypeWithPlainStruct") 0])) = Ret tt /\
  heap (fst (Populate testProgram 8 noOrder
         (provided [zeroOf "TypeWithPlainStruct"]
            [unnamedObject (ptrTo "TypeWithPlainStruct") 0]))) =
    [VStruct [VStruct [VPtr (1, [])]]; VStruct [VScalar 0; VScalar 0]] /\
  map (fun o => (reflectType o, embedded o, private o))
    (unnamed (graph (fst (Populate testProgram 8 noOrder
         (provided [zeroOf "TypeWithPlainStruct"]
            [unnamedObject (ptrTo "TypeWithPlainStruct") 0]))))) =
    [(ptrTo "TypeWithPlainStruct", false, false);
     (ptrTo "TypeNestedStruct", true, true);
     (ptrTo "TypeAnswerStruct", false, false)].
Proof. repeat split; vm_compute; reflexivity. Qed.

Lemma plain_struct_field_is_traversed_witness :
  explicitField testProgram (RUnnamed 0) 0
    (provided [zeroOf "TypeWithPlainStruct"]
       [unnamedObject (ptrTo "TypeWithPlainStruct") 0]) =
  ({| graph :=
        appended
          (graph (provided [zeroOf "TypeWithPlainStruct"]
                    [unnamedObject (ptrTo "TypeWithPlainStruct") 0]))
          (embeddedObject
             (withReflect (unnamedObject (ptrTo "TypeWithPlainStruct") 0))
             (0, []) 0 (TStruct (inTest "TypeNestedStruct"))) 1;
      heap := [zeroOf "TypeWithPlainStruct"] |}, Ret tt).
Proof.
  refine (plain_struct_field_is_traversed testProgram (RUnnamed 0) 0 _
            (withReflect (unnamedObject (ptrTo "TypeWithPlainStruct") 0)) (0, [])
            (tagged "Inline" (TStruct (inTest "TypeNestedStruct")) "inject:''")
            (VStruct [VNil]) _ _ _ _ _); reflexivity.
Defined.

End InlineExamples.

(** ** C10: named objects that are not pointers to structs *)

Section NamedValues.

Context (P : Program).

(** Wiring a field to the object its tag names. *)
Lemma explicitField_named r i st o a f field tag e :
  readField P r i st = (st, Ret (o, a, f, field)) ->
  parseTag (fieldTag f) = (Some tag, None) ->
  Tag.Name tag <> "" ->
  exported f = true ->
  isNilOrZero P field (fieldType f) = true ->
  named (graph st) !! Tag.Name tag = Some e ->
  AssignableTo P (reflectType e) (fieldType f) = true ->
  exists h',
    store (heap st) (fieldAddr a i) (dynValue (Value e)) = Some h' /\
    explicitField P r i st =
      updateLevel r (RNamed (Tag.Name tag)) {| graph := graph st; heap := h' |}.
Proof.
  intros Hread Htag Hname Hexp Hzero He Hasg.
  destruct (readField_inv _ _ _ _ _ _ _ _ _ Hread) as (_ & _ & _ & _ & Hload).
  destruct (load_store _ _ _ (dynValue (Value e)) Hload) as [h' Hstore].
  exists h'. split; [exact Hstore|].
  rewrite (explicitField_read _ _ _ _ _ _ _ _ Hread).
  unfold explicitBody. rewrite Htag, Hexp, Hzero.
  destruct (String.eqb_spec (Tag.Name tag) ""); [contradiction|].
  cbn [negb]. unfold bind at 1, getGraph. cbv beta iota.
  rewrite He, Hasg. cbn [negb].
  unfold bind. rewrite (Set_run _ _ _ _ Hstore). reflexivity.
Qed.

Lemma numField_named_value name st e :
  named (graph st) !! name = Some e ->
  Name e <> "" ->
  isStructPtr (reflectType e) = false ->
  numField P (RNamed name) st = (st, Ret None).
Proof.
  intros He Hn Hs. unfold numField, bind, getGraph, need, ret. simpl.
  rewrite He, Hs. destruct (String.eqb_spec (Name e) ""); [contradiction|].
  reflexivity.
Qed.

(** C10: [Provide] accepts a named object whatever the type of its value;
    while the object stays in the graph, both passes return at once on
    it; and a field whose tag names it, and to whose type its value is
    assignable, is set to that value. *)
Theorem named_value_is_kept_as_a_target (o : Object) st :
  Name o <> "" ->
  isStructPtr (dynType (Value o)) = false ->
  named (graph st) !! Name o = None ->
  provideOne o st =
    ({| graph :=
          {| unnamed := unnamed (graph st); unnamedType := unnamedType (graph st);
             named := <[Name o := withReflect o]> (named (graph st));
             maxLevel := maxLevel (graph st); levels := levels (graph st) |};
        heap := heap st |}, Ret tt) /\
  forall st' e,
    named (graph st') !! Name o = Some e ->
    Name e = Name o -> Value e = Value o -> reflectType e = dynType (Value o) ->
    populateExplicit P (RNamed (Name o)) st' = (st', Ret tt) /\
    populateUnnamedInterface P (RNamed (Name o)) st' = (st', Ret tt) /\
    forall r i c a f field tag,
      readField P r i st' = (st', Ret (c, a, f, field)) ->
      parseTag (fieldTag f) = (Some tag, None) ->
      Tag.Name tag = Name o ->
      exported f = true ->
      isNilOrZero P field (fieldType f) = true ->
      AssignableTo P (dynType (Value o)) (fieldType f) = true ->
      exists h',
        store (heap st') (fieldAddr a i) (dynValue (Value o)) = Some h' /\
        explicitField P r i st' =
          updateLevel r (RNamed (Name o)) {| graph := graph st'; heap := h' |}.
Proof.
  intros Hname Hptr Hfree. split.
  - unfold provideOne, bind, getGraph, putGraph, fail. cbn.
    destruct (String.eqb_spec (Name o) ""); [contradiction|].
    rewrite Hfree. reflexivity.
  - intros st' e He Hn Hv Ht.
    assert (Hnum : numField P (RNamed (Name o)) st' = (st', Ret None)).
    { apply (numField_named_value _ _ e); [exact He|congruence|congruence]. }
    split; [|split].
    + unfold populateExplicit, bind. rewrite Hnum. reflexivity.
    + unfold populateUnnamedInterface, bind. rewrite Hnum. reflexivity.
    + intros r i c a f field tag Hread Htag Htn Hexp Hzero Hasg.
      rewrite <- Htn, <- Hv. rewrite <- Htn in He.
      apply (explicitField_named r i st' c a f field tag e); try assumption.
      * congruence.
      * rewrite Ht. exact Hasg.
Qed.

End NamedValues.

Section NamedValuesExample.

Import Examples.

(** An [int] named [answer], provided next to a struct whose field asks
    for it by name. *)
Lemma named_value_is_kept_as_a_target_witness :
  provideOne (newObject {| dynType := TBasic "int"; dynValue := VScalar 42 |} "answer" false)
    (provided [zeroOf "TypeWithNamed"] [unnamedObject (ptrTo "TypeWithNamed") 0]) =
  (provided [zeroOf "TypeWithNamed"]
     [unnamedObject (ptrTo "TypeWithNamed") 0;
      newObject {| dynType := TBasic "int"; dynValue := VScalar 42 |} "answer" false],
   Ret tt).
Proof.
  refine (proj1 (named_value_is_kept_as_a_target testProgram
            (newObject {| dynType := TBasic "int"; dynValue := VScalar 42 |} "answer" false)
            (provided [zeroOf "TypeWithNamed"] [unnamedObject (ptrTo "TypeWithNamed") 0])
            _ _ _)); [discriminate | reflexivity | reflexivity].
Defined.

End NamedValuesExample.

(** ** updateLevel *)

Section Levels.

Context (P : Program).

Lemma updateLevel_run use dep st u d :
  getObject (graph st) use = Some u ->
  getObject (graph st) dep = Some d ->
  updateLevel use dep st =
  (if level u + 1 <=? level d then st
   else {| graph :=
             withMaxLevel (setObject (graph st) dep (withLevel d (level u + 1)))
               (Nat.max (maxLevel (graph st)) (level u + 1));
           heap := heap st |}, Ret tt).
Proof.
  intros Hu Hd. unfold updateLevel, bind, getGraph, need, ret. simpl.
  rewrite Hu, Hd. simpl.
  destruct (level u + 1 <=? level d); [reflexivity|].
  unfold putGraph. rewrite raiseMaxLevel_run. simpl.
  destruct dep; reflexivity.
Qed.

Lemma setObject_unnamed_length g r o :
  length (unnamed (setObject g r o)) = length (unnamed g).
Proof. destruct r; simpl; [apply length_insert|reflexivity]. Qed.

Lemma setObject_unnamed_other g k o m :
  m <> k -> unnamed (setObject g (RUnnamed k) o) !! m = unnamed g !! m.
Proof. intros H. simpl. apply list_lookup_insert_ne. congruence. Qed.

End Levels.

(** ** C2: the capability pass on one field *)

Section CapabilityPass.

Context (P : Program).

Lemma find_nil ty objs j :
  FindAssignableUnnamed P ty objs j = [] ->
  Forall (fun e => isCandidate P ty e = false) objs.
Proof.
  revert j; induction objs as [|e objs IH]; intros j H; [constructor|].
  simpl in H. destruct (isCandidate P ty e) eqn:E; [discriminate|].
  constructor; [exact E|]. exact (IH _ H).
Qed.

Lemma find_cons ty objs j k e rest :
  FindAssignableUnnamed P ty objs j = (k, e) :: rest ->
  exists l1 l2,
    objs = l1 ++ e :: l2 /\ k = j + length l1 /\
    Forall (fun x => isCandidate P ty x = false) l1 /\
    isCandidate P ty e = true /\
    FindAssignableUnnamed P ty l2 (S k) = rest.
Proof.
  revert j; induction objs as [|x objs IH]; intros j H; [discriminate|].
  simpl in H. destruct (isCandidate P ty x) eqn:E.
  - injection H as <- <- <-. exists [], objs. simpl.
    repeat split; [lia|constructor|exact E].
  - destruct (IH _ H) as (l1 & l2 & -> & -> & Hl1 & He & Hrest).
    exists (x :: l1), l2. simpl.
    repeat split; [lia|constructor; assumption|exact He|exact Hrest].
Qed.

Lemma scanAssignable_skip r o a f i count j found st :
  (forall k e, j <= k < j + count -> unnamed (graph st) !! k = Some e ->
               isCandidate P (fieldType f) e = false) ->
  j + count <= length (unnamed (graph st)) ->
  scanAssignable P r o a f i count j found st = (st, Ret found).
Proof.
  revert j; induction count as [|count IH]; intros j Hno Hlen; [reflexivity|].
  simpl. unfold bind at 1, getGraph. cbv beta iota.
  destruct (lookup_lt_is_Some_2 (unnamed (graph st)) j ltac:(lia)) as [e He].
  unfold bind at 1, need. rewrite He. unfold ret at 1. cbv beta iota.
  pose proof (Hno j e ltac:(lia) He) as Hc. unfold isCandidate in Hc.
  destruct (private e); simpl in Hc.
  - apply IH; [intros k x Hk; apply Hno; lia | lia].
  - rewrite Hc. apply IH; [intros k x Hk; apply Hno; lia | lia].
Qed.

Lemma scanAssignable_split r o a f i c1 c2 j found st :
  scanAssignable P r o a f i (c1 + c2) j found st =
  match scanAssignable P r o a f i c1 j found st with
  | (st', Ret fnd) => scanAssignable P r o a f i c2 (j + c1) fnd st'
  | (st', Fail e) => (st', Fail e)
  | (st', Crash why) => (st', Crash why)
  | (st', OutOfFuel) => (st', OutOfFuel)
  end.
Proof.
  revert j found st; induction c1 as [|c1 IH]; intros j found st.
  - simpl. unfold ret. rewrite Nat.add_0_r. reflexivity.
  - simpl. unfold bind, getGraph, need, ret, crash, fail.
    replace (j + S c1) with (S j + c1) by lia.
    destruct (unnamed (graph st) !! j) as [existing|]; [|reflexivity].
    destruct (private existing); [apply IH|].
    destruct (AssignableTo P (reflectType existing) (fieldType f)); [|apply IH].
    destruct found; [reflexivity|].
    destruct (Set_ _ _ _ st) as [st2 [[]| | |]]; try reflexivity.
    destruct (updateLevel _ _ st2) as [st3 [[]| | |]]; try reflexivity.
    apply IH.
Qed.

Lemma updateLevel_unnamed_other use k st st' out :
  updateLevel use (RUnnamed k) st = (st', out) ->
  length (unnamed (graph st')) = length (unnamed (graph st)) /\
  forall m, m <> k -> unnamed (graph st') !! m = unnamed (graph st) !! m.
Proof.
  unfold updateLevel, bind, getGraph, need, ret, crash, putGraph.
  destruct (getObject (graph st) use) as [u|]; [|intros [= <- <-]; auto].
  simpl. destruct (unnamed (graph st) !! k) as [d|]; [|intros [= <- <-]; auto].
  destruct (level u + 1 <=? level d); [intros [= <- <-]; auto|].
  rewrite raiseMaxLevel_run. simpl. intros [= <- <-]. simpl. split.
  - apply length_insert.
  - intros m Hm. apply list_lookup_insert_ne. congruence.
Qed.

(** One round of the scan on a candidate, nothing found before it. *)
Lemma scanAssignable_first r o a f i count k e st h' :
  getObject (graph st) r = Some o ->
  unnamed (graph st) !! k = Some e ->
  isCandidate P (fieldType f) e = true ->
  exported f = true ->
  store (heap st) (fieldAddr a i) (dynValue (Value e)) = Some h' ->
  exists st2,
    updateLevel r (RUnnamed k) {| graph := graph st; heap := h' |} = (st2, Ret tt) /\
    scanAssignable P r o a f i (S count) k None st =
    scanAssignable P r o a f i count (S k) (Some e) st2.
Proof.
  intros Hr Hk Hc Hexp Hstore. unfold isCandidate in Hc.
  apply andb_true_iff in Hc as [Hp Ha]. apply negb_true_iff in Hp.
  pose proof (updateLevel_run r (RUnnamed k) {| graph := graph st; heap := h' |}
                o e Hr Hk) as Hup.
  eexists. split; [exact Hup|].
  simpl. unfold bind, getGraph, need, ret. rewrite Hk, Hp, Ha, Hexp.
  rewrite (Set_run _ _ _ _ Hstore), Hup. reflexivity.
Qed.

(** One round of the scan on a candidate, one found before it. *)
Lemma scanAssignable_second r o a f i count k e fnd st :
  unnamed (graph st) !! k = Some e ->
  isCandidate P (fieldType f) e = true ->
  scanAssignable P r o a f i (S count) k (Some fnd) st =
  (st, Fail (AmbiguousCapabilityValue (fieldName f) (reflectType o)
               (reflectType fnd) (dynValue (Value fnd))
               (reflectType e) (reflectValue e))).
Proof.
  intros Hk Hc. unfold isCandidate in Hc.
  apply andb_true_iff in Hc as [Hp Ha]. apply negb_true_iff in Hp.
  simpl. unfold bind, getGraph, need, ret. rewrite Hk, Hp, Ha. reflexivity.
Qed.

(** C2: the capability pass on a field of interface type that carries the
    plain tag and is still nil.  The candidates are the unnamed objects
    that are not private and assignable to the field, in the order of the
    slice.  With none, the error of a missing value, naming the field and
    the owning type; with exactly one, the field is set to its value and
    [updateLevel] records the dependency; with two or more, the error
    that reports the types and values of the first two. *)
Theorem capability_field_resolution r i st o a f field tag :
  readField P r i st = (st, Ret (o, a, f, field)) ->
  kindOf (fieldType f) = Interface ->
  parseTag (fieldTag f) = (Some tag, None) ->
  Tag.Name tag = "" ->
  tag <> injectPrivate ->
  exported f = true ->
  isNilOrZero P field (fieldType f) = true ->
  match FindAssignableUnnamed P (fieldType f) (unnamed (graph st)) 0 with
  | [] =>
      interfaceField P r i st =
        (st, Fail (NoAssignableCapabilityValue (fieldName f) (reflectType o)))
  | [(j, e)] =>
      exists h',
        store (heap st) (fieldAddr a i) (dynValue (Value e)) = Some h' /\
        interfaceField P r i st =
          updateLevel r (RUnnamed j) {| graph := graph st; heap := h' |} /\
        snd (interfaceField P r i st) = Ret tt
  | (j1, e1) :: (j2, e2) :: _ =>
      exists st',
        interfaceField P r i st =
          (st', Fail (AmbiguousCapabilityValue (fieldName f) (reflectType o)
                        (reflectType e1) (dynValue (Value e1))
                        (reflectType e2) (reflectValue e2)))
  end.
Proof.
  intros Hread Hkind Htag Hname Hpriv Hexp Hzero.
  destruct (readField_inv _ _ _ _ _ _ _ _ _ Hread) as (_ & Hobj & _ & _ & Hload).
  assert (Hbody : interfaceField P r i st =
    match scanAssignable P r o a f i (length (unnamed (graph st))) 0 None st with
    | (st', Ret None) =>
        (st', Fail (NoAssignableCapabilityValue (fieldName f) (reflectType o)))
    | (st', Ret (Some _)) => (st', Ret tt)
    | (st', Fail e) => (st', Fail e)
    | (st', Crash why) => (st', Crash why)
    | (st', OutOfFuel) => (st', OutOfFuel)
    end).
  { rewrite (interfaceField_read _ _ _ _ _ _ _ _ Hread).
    unfold interfaceBody. rewrite Htag, Hkind, Hzero, Hname.
    rewrite bool_decide_eq_true_2 by reflexivity.
    rewrite bool_decide_eq_false_2 by exact Hpriv.
    cbn [negb String.eqb]. unfold bind, getGraph.
    destruct (scanAssignable _ _ _ _ _ _ _ _ _ _) as [st' [[x|]| | |]]; reflexivity. }
  destruct (FindAssignableUnnamed P (fieldType f) (unnamed (graph st)) 0)
    as [|[k e] rest] eqn:Hfind.
  - rewrite Hbody, scanAssignable_skip; [reflexivity| |simpl; lia].
    intros k e _ Hk. pose proof (find_nil _ _ _ Hfind) as Hall.
    rewrite Forall_forall in Hall. apply Hall.
    apply list_elem_of_lookup. eauto.
  - destruct (find_cons _ _ _ _ _ _ Hfind) as (l1 & l2 & Hobjs & -> & Hl1 & Hc & Hrest).
    change (0 + length l1) with (length l1) in *.
    destruct (load_store _ _ _ (dynValue (Value e)) Hload) as [h' Hstore].
    assert (Hk : unnamed (graph st) !! length l1 = Some e).
    { rewrite Hobjs. apply list_lookup_middle. reflexivity. }
    destruct (scanAssignable_first r o a f i (length l2) _ e st h'
                Hobj Hk Hc Hexp Hstore) as (st2 & Hup & Hstep).
    destruct (updateLevel_unnamed_other _ _ _ _ _ Hup) as [Hlen2 Hsame].
    simpl in Hlen2, Hsame.
    assert (Hscan : scanAssignable P r o a f i (length (unnamed (graph st))) 0 None st =
                    scanAssignable P r o a f i (length l2) (S (length l1)) (Some e) st2).
    { rewrite Hobjs at 1. rewrite length_app. simpl length.
      rewrite scanAssignable_split, scanAssignable_skip.
      - simpl. exact Hstep.
      - intros m x Hm Hx. rewrite Forall_forall in Hl1. apply Hl1.
        rewrite Hobjs, lookup_app_l in Hx by lia.
        apply list_elem_of_lookup. eauto.
      - rewrite Hobjs, length_app. lia. }
    assert (Hl2 : forall m x, unnamed (graph st2) !! (S (length l1) + m) = Some x ->
                              l2 !! m = Some x).
    { intros m x Hx. rewrite Hsame, Hobjs in Hx by lia.
      rewrite lookup_app_r in Hx by lia.
      replace (S (length l1) + m - length l1) with (S m) in Hx by lia.
      exact Hx. }
    destruct rest as [|[k2 e2] rest].
    + exists h'. split; [exact Hstore|].
      assert (Hend : interfaceField P r i st = (st2, Ret tt)).
      { rewrite Hbody, Hscan, scanAssignable_skip; [reflexivity| |].
        - intros m x Hm Hx. pose proof (find_nil _ _ _ Hrest) as Hall.
          rewrite Forall_forall in Hall. apply Hall.
          replace m with (S (length l1) + (m - S (length l1))) in Hx by lia.
          apply Hl2 in Hx. apply list_elem_of_lookup. eauto.
        - rewrite Hlen2, Hobjs, length_app. simpl. lia. }
      rewrite Hend, Hup. split; reflexivity.
    + destruct (find_cons _ _ _ _ _ _ Hrest) as (l3 & l4 & Hobjs2 & -> & Hl3 & Hc2 & _).
      exists st2. rewrite Hbody, Hscan, Hobjs2, length_app. simpl length.
      rewrite scanAssignable_split, scanAssignable_skip.
      * rewrite (scanAssignable_second _ _ _ _ _ _ _ e2); [reflexivity| |exact Hc2].
        rewrite Hsame, Hobjs, Hobjs2 by lia.
        rewrite lookup_app_r by lia.
        replace (S (length l1) + length l3 - length l1) with (S (length l3)) by lia.
        simpl. apply list_lookup_middle. reflexivity.
      * intros m x Hm Hx. rewrite Forall_forall in Hl3. apply Hl3.
        replace m with (S (length l1) + (m - S (length l1))) in Hx by lia.
        apply Hl2 in Hx. rewrite Hobjs2, lookup_app_l in Hx by lia.
        apply list_elem_of_lookup. eauto.
      * rewrite Hlen2, Hobjs, Hobjs2, !length_app. simpl. rewrite length_app. simpl. lia.
Qed.

End CapabilityPass.

Section CapabilityExample.

Import Examples.

(** [TestInjectInterface]: after the explicit pass the created
    [TypeAnswerStruct] is the one candidate for the field [Answerable]. *)
Lemma capability_field_resolution_witness :
  snd (interfaceField testProgram (RUnnamed 0) 0
         (afterExplicit (provided [zeroOf "TypeInjectInterface"]
            [unnamedObject (ptrTo "TypeInjectInterface") 0]))) = Ret tt.
Proof.
  pose proof (capability_field_resolution testProgram (RUnnamed 0) 0
    (afterExplicit (provided [zeroOf "TypeInjectInterface"]
       [unnamedObject (ptrTo "TypeInjectInterface") 0]))
    (withReflect (unnamedObject (ptrTo "TypeInjectInterface") 0)) (0, [])
    (tagged "Answerable" (TIface Answerable) "inject:''") VNil injectOnly
    eq_refl eq_refl eq_refl eq_refl ltac:(discriminate) eq_refl eq_refl) as H.
  destruct H as (h' & _ & _ & H). exact H.
Defined.

(** [TestInjectTwoSatisfyInterface]: two candidates, the error names both. *)
Example two_values_satisfy_the_interface :
  snd (Populate testProgram 8 noOrder
         (provided [zeroOf "TypeInjectTwoSatisfyInterface"]
            [unnamedObject (ptrTo "TypeInjectTwoSatisfyInterface") 0])) =
  Fail (AmbiguousCapabilityValue "Answerable" (ptrTo "TypeInjectTwoSatisfyInterface")
          (ptrTo "TypeAnswerStruct") (VPtr (1, []))
          (ptrTo "TypeNestedStruct") (VPtr (2, []))).
Proof. vm_compute. reflexivity. Qed.

End CapabilityExample.

(** ** C8: levels only rise *)

Section Monotone.

Context (P : Program).

Lemma withLevel_same o : withLevel o (level o) = o.
Proof. destruct o; reflexivity. Qed.

Lemma withLevel_twice o n m : withLevel (withLevel o n) m = withLevel o m.
Proof. reflexivity. Qed.

Lemma extends_refl g : extends g g.
Proof.
  split; [lia|]. intros r o H. exists (level o).
  rewrite withLevel_same. auto.
Qed.

Lemma extends_trans g1 g2 g3 : extends g1 g2 -> extends g2 g3 -> extends g1 g3.
Proof.
  intros [Hm1 H1] [Hm2 H2]. split; [lia|].
  intros r o Ho. destruct (H1 _ _ Ho) as (n & Hn & Ho2).
  destruct (H2 _ _ Ho2) as (m & Hm & Ho3). simpl in Hm.
  exists m. split; [lia|]. exact Ho3.
Qed.

Lemma grows_ret {A} (a : A) : grows (ret a).
Proof. intros st st' out [= <- <-]. apply extends_refl. Qed.

Lemma grows_fail {A} e : grows (@fail A e).
Proof. intros st st' out [= <- <-]. apply extends_refl. Qed.

Lemma grows_crash {A} why : grows (@crash A why).
Proof. intros st st' out [= <- <-]. apply extends_refl. Qed.

Lemma grows_bind {A B} (m : M A) (k : A -> M B) :
  grows m -> (forall a, grows (k a)) -> grows (bind m k).
Proof.
  intros Hm Hk st st' out. unfold bind.
  destruct (m st) as [st1 [a| | |]] eqn:E.
  - intros H. eapply extends_trans; [exact (Hm _ _ _ E)|exact (Hk _ _ _ _ H)].
  - intros [= <- <-]. exact (Hm _ _ _ E).
  - intros [= <- <-]. exact (Hm _ _ _ E).
  - intros [= <- <-]. exact (Hm _ _ _ E).
Qed.

Lemma grows_getGraph : grows getGraph.
Proof. intros st st' out [= <- <-]. apply extends_refl. Qed.

Lemma grows_getHeap : grows getHeap.
Proof. intros st st' out [= <- <-]. apply extends_refl. Qed.

Lemma grows_putHeap h : grows (putHeap h).
Proof. intros st st' out [= <- <-]. apply extends_refl. Qed.

Lemma grows_need {A} (o : option A) why : grows (need o why).
Proof. destruct o; [apply grows_ret|apply grows_crash]. Qed.

Lemma grows_Set canSet a v : grows (Set_ canSet a v).
Proof.
  unfold Set_. destruct canSet; simpl; [|apply grows_crash].
  apply grows_bind; [apply grows_getHeap|intros h].
  apply grows_bind; [apply grows_need|intros h']. apply grows_putHeap.
Qed.

Lemma grows_New t : grows (New P t).
Proof.
  unfold New. apply grows_bind; [apply grows_getHeap|intros h].
  apply grows_bind; [apply grows_putHeap|intros _]. apply grows_ret.
Qed.

Lemma grows_raiseMaxLevel n : grows (raiseMaxLevel n).
Proof.
  intros st st' out. rewrite raiseMaxLevel_run. intros [= <- <-]. simpl.
  split; [simpl; lia|]. intros r o H. exists (level o).
  rewrite withLevel_same. split; [lia|]. destruct r; exact H.
Qed.

Lemma grows_provideOne o : grows (provideOne o).
Proof.
  intros st st' out. unfold provideOne, bind, getGraph, putGraph, fail.
  cbn [withReflect Name private reflectType Value].
  assert (Happ : forall g' : Graph,
            maxLevel g' = maxLevel (graph st) ->
            unnamed g' = unnamed (graph st) ++ [withReflect o] ->
            named g' = named (graph st) -> extends (graph st) g').
  { intros g' Hm Hu Hn. split; [lia|]. intros r x Hx. exists (level x).
    rewrite withLevel_same. split; [lia|]. destruct r as [j|name]; simpl in *.
    - rewrite Hu. apply lookup_app_l_Some. exact Hx.
    - rewrite Hn. exact Hx. }
  destruct (String.eqb (Name o) "") eqn:En.
  - destruct (isStructPtr (dynType (Value o))); simpl;
      [|intros [= <- <-]; apply extends_refl].
    destruct (private o); simpl.
    + intros [= <- <-]. apply Happ; reflexivity.
    + destruct (default false _); intros [= <- <-];
        [apply extends_refl|apply Happ; reflexivity].
  - destruct (named (graph st) !! Name o) eqn:Hfree;
      intros [= <- <-]; [apply extends_refl|].
    split; [simpl; lia|]. intros r x Hx. exists (level x).
    rewrite withLevel_same. split; [lia|]. destruct r as [j|name]; simpl in *.
    + exact Hx.
    + rewrite lookup_insert_ne; [exact Hx|]. congruence.
Qed.

Lemma grows_updateLevel use dep : grows (updateLevel use dep).
Proof.
  intros st st' out. unfold updateLevel, bind, getGraph, need, ret, crash.
  destruct (getObject (graph st) use) as [u|]; [|intros [= <- <-]; apply extends_refl].
  destruct (getObject (graph st) dep) as [d|] eqn:Hd;
    [|intros [= <- <-]; apply extends_refl].
  destruct (Nat.leb_spec (level u + 1) (level d));
    [intros [= <- <-]; apply extends_refl|].
  unfold putGraph. rewrite raiseMaxLevel_run. intros [= <- <-]. simpl.
  split; [destruct dep; simpl; lia|]. intros r o Ho.
  destruct (decide (r = dep)) as [->|Hne].
  - rewrite Hd in Ho. injection Ho as <-. exists (level u + 1). split; [lia|].
    destruct dep as [j|name]; simpl in *.
    + apply list_lookup_insert_eq. eapply lookup_lt_Some, Hd.
    + apply lookup_insert_eq.
  - exists (level o). rewrite withLevel_same. split; [lia|].
    destruct dep as [j|name], r as [j'|name']; simpl in *; try exact Ho.
    + rewrite list_lookup_insert_ne; [exact Ho|congruence].
    + rewrite lookup_insert_ne; [exact Ho|congruence].
Qed.

Ltac grows_step :=
  first
    [ apply grows_ret | apply grows_fail | apply grows_crash
    | apply grows_getGraph | apply grows_getHeap | apply grows_putHeap
    | apply grows_need | apply grows_Set | apply grows_New
    | apply grows_raiseMaxLevel | apply grows_provideOne
    | apply grows_updateLevel
    | match goal with H : context [grows] |- _ => apply H end
    | apply grows_bind; [|intros ?]
    | match goal with
      | |- grows (match ?x with _ => _ end) => destruct x
      end ].

Ltac grows_tac := repeat grows_step.

Lemma grows_forRange body count start :
  (forall i, grows (body i)) -> grows (forRange body count start).
Proof.
  intros Hb. revert start; induction count as [|count IH]; intros start; simpl.
  - apply grows_ret.
  - apply grows_bind; [apply Hb|intros _; apply IH].
Qed.

Lemma grows_readField r i : grows (readField P r i).
Proof. unfold readField. grows_tac. Qed.

Lemma grows_explicitBody r i o a f field : grows (explicitBody P r i o a f field).
Proof. unfold explicitBody. grows_tac. Qed.

Lemma grows_explicitField r i : grows (explicitField P r i).
Proof.
  unfold explicitField. apply grows_bind; [apply grows_readField|].
  intros [[[o a] f] field]. apply grows_explicitBody.
Qed.

Lemma grows_numField r : grows (numField P r).
Proof. unfold numField. grows_tac. Qed.

Lemma grows_populateExplicit r : grows (populateExplicit P r).
Proof.
  unfold populateExplicit. apply grows_bind; [apply grows_numField|].
  intros [n|]; [|apply grows_ret].
  apply grows_forRange. intros i. apply grows_explicitField.
Qed.

Lemma grows_scanAssignable r o a f i count j found :
  grows (scanAssignable P r o a f i count j found).
Proof.
  revert j found; induction count as [|count IH]; intros j found; simpl.
  - apply grows_ret.
  - grows_tac.
Qed.

Lemma grows_interfaceBody r i o a f field : grows (interfaceBody P r i o a f field).
Proof.
  unfold interfaceBody.
  pose proof (grows_scanAssignable r o a f i) as Hscan. grows_tac.
Qed.

Lemma grows_interfaceField r i : grows (interfaceField P r i).
Proof.
  unfold interfaceField. apply grows_bind; [apply grows_readField|].
  intros [[[o a] f] field]. apply grows_interfaceBody.
Qed.

Lemma grows_populateUnnamedInterface r : grows (populateUnnamedInterface P r).
Proof.
  unfold populateUnnamedInterface. apply grows_bind; [apply grows_numField|].
  intros [n|]; [|apply grows_ret].
  apply grows_forRange. intros i. apply grows_interfaceField.
Qed.

Lemma grows_explicitQueue fuel i : grows (explicitQueue P fuel i).
Proof.
  revert i; induction fuel as [|fuel IH]; intros i; simpl.
  - apply grows_bind; [apply grows_getGraph|intros g].
    destruct (i =? length (unnamed g)); [apply grows_ret|].
    intros st st' out [= <- <-]. apply extends_refl.
  - pose proof grows_populateExplicit as Hp. grows_tac.
Qed.

Lemma grows_rangeNamed body order :
  (forall r, grows (body r)) -> grows (rangeNamed body order).
Proof.
  intros Hb. induction order as [|name order IH]; simpl; [apply grows_ret|].
  grows_tac.
Qed.

Lemma grows_rangeUnnamed body :
  (forall r, grows (body r)) -> grows (rangeUnnamed body).
Proof.
  intros Hb. unfold rangeUnnamed. apply grows_bind; [apply grows_getGraph|intros g].
  apply grows_forRange. intros j. grows_tac.
Qed.

Lemma extends_withLevels g ls : extends g (withLevels g ls).
Proof.
  split; [simpl; lia|]. intros r o H. exists (level o).
  rewrite withLevel_same. split; [lia|]. destruct r; exact H.
Qed.

Lemma grows_addToLevel r : grows (addToLevel r).
Proof.
  intros st st' out. unfold addToLevel, bind, getGraph, need, ret, crash, putGraph.
  destruct (getObject (graph st) r) as [o|]; [|intros [= <- <-]; apply extends_refl].
  destruct (levels (graph st) !! level o);
    intros [= <- <-]; [apply extends_withLevels|apply extends_refl].
Qed.

Lemma grows_addNamedToLevels order : grows (addNamedToLevels order).
Proof.
  induction order as [|name order IH]; simpl; [apply grows_ret|].
  pose proof grows_addToLevel as Ha. grows_tac.
Qed.

Lemma grows_buildLevels order : grows (buildLevels order).
Proof.
  intros st st' out H. unfold buildLevels in H.
  unfold bind at 1, getGraph in H. cbv beta iota in H.
  unfold bind at 1, putGraph in H. cbv beta iota in H.
  eapply extends_trans; [apply (extends_withLevels _ (replicate (maxLevel (graph st) + 1) []))|].
  revert H. apply (grows_bind _ _).
  - apply grows_forRange. intros j. apply grows_addToLevel.
  - intros _. apply grows_addNamedToLevels.
Qed.

(** Whatever its outcome, [Populate] lowers the level of no object and
    removes none. *)
Lemma grows_Populate fuel order : grows (Populate P fuel order).
Proof.
  unfold Populate.
  apply grows_bind; [apply grows_explicitQueue|intros _].
  apply grows_bind;
    [apply grows_rangeNamed; intros r; apply grows_populateExplicit|intros _].
  apply grows_bind;
    [apply grows_rangeUnnamed; intros r; apply grows_populateUnnamedInterface|intros _].
  apply grows_bind;
    [apply grows_rangeNamed; intros r; apply grows_populateUnnamedInterface|intros _].
  apply grows_buildLevels.
Qed.

End Monotone.

(** ** C8: the level buckets *)

Section Buckets.

Context (P : Program).

Lemma bind_Ret {A B} (m : M A) (k : A -> M B) st st' b :
  bind m k st = (st', Ret b) ->
  exists st1 a, m st = (st1, Ret a) /\ k a st1 = (st', Ret b).
Proof.
  unfold bind. destruct (m st) as [st1 [a| | |]]; try discriminate. eauto.
Qed.

Lemma sameObjects_getObject g g' r :
  sameObjects g g' -> getObject g' r = getObject g r.
Proof. intros (Hu & Hn & _). destruct r; simpl; congruence. Qed.

Lemma addToLevel_Ret r st st' :
  addToLevel r st = (st', Ret tt) ->
  exists o,
    getObject (graph st) r = Some o /\
    sameObjects (graph st) (graph st') /\
    length (levels (graph st')) = length (levels (graph st)) /\
    forall k r', inBucket (levels (graph st')) k r' <->
                 inBucket (levels (graph st)) k r' \/ (r' = r /\ k = level o).
Proof.
  unfold addToLevel, bind, getGraph, need, ret, crash, putGraph.
  destruct (getObject (graph st) r) as [o|]; [|discriminate].
  destruct (levels (graph st) !! level o) as [bucket|] eqn:Hb; [|discriminate].
  intros [= <-]. exists o. simpl. split; [reflexivity|]. split; [repeat split|].
  split; [apply length_insert|]. intros k r'. unfold inBucket.
  destruct (decide (k = level o)) as [->|Hne].
  - rewrite list_lookup_insert_eq by (eapply lookup_lt_Some, Hb). split.
    + intros (b & [= <-] & Hin). apply elem_of_app in Hin as [Hin|Hin].
      * left. eauto.
      * right. apply list_elem_of_singleton in Hin. auto.
    + intros [(b & Hb' & Hin)|[-> _]]; eexists; (split; [reflexivity|]).
      * rewrite Hb in Hb'. injection Hb' as <-. apply elem_of_app. auto.
      * apply elem_of_app. right. apply list_elem_of_singleton. reflexivity.
  - rewrite list_lookup_insert_ne by congruence. split; [auto|].
    intros [H|[_ ->]]; [exact H|contradiction].
Qed.

Lemma addUnnamed_Ret count start st st' :
  forRange (fun j => addToLevel (RUnnamed j)) count start st = (st', Ret tt) ->
  sameObjects (graph st) (graph st') /\
  length (levels (graph st')) = length (levels (graph st)) /\
  forall k r', inBucket (levels (graph st')) k r' <->
    inBucket (levels (graph st)) k r' \/
    exists j o, start <= j < start + count /\ r' = RUnnamed j /\
                unnamed (graph st) !! j = Some o /\ k = level o.
Proof.
  revert start st; induction count as [|count IH]; intros start st; simpl.
  - intros [= <-]. split; [repeat split|]. split; [reflexivity|].
    intros k r'. split; [auto|]. intros [H|(j & o & Hj & _)]; [exact H|lia].
  - intros H. apply bind_Ret in H as (st1 & [] & H1 & H2).
    apply addToLevel_Ret in H1 as (o & Ho & Hs1 & Hl1 & Hb1).
    apply IH in H2 as (Hs2 & Hl2 & Hb2).
    destruct Hs1 as (Hu1 & Hn1 & Hm1), Hs2 as (Hu2 & Hn2 & Hm2).
    split; [repeat split; congruence|]. split; [congruence|].
    intros k r'. rewrite Hb2, Hb1. rewrite Hu1. split.
    + intros [[H|[-> ->]]|(j & x & Hj & -> & Hx & ->)].
      * auto.
      * right. exists start, o. repeat split; [lia|lia|exact Ho].
      * right. exists j, x. repeat split; [lia|lia|exact Hx].
    + intros [H|(j & x & Hj & -> & Hx & ->)]; [auto|].
      destruct (decide (j = start)) as [->|Hne].
      * left. right. simpl in Ho. rewrite Ho in Hx. injection Hx as <-. auto.
      * right. exists j, x. repeat split; [lia|lia|exact Hx].
Qed.

Lemma addNamed_Ret order st st' :
  addNamedToLevels order st = (st', Ret tt) ->
  sameObjects (graph st) (graph st') /\
  length (levels (graph st')) = length (levels (graph st)) /\
  forall k r', inBucket (levels (graph st')) k r' <->
    inBucket (levels (graph st)) k r' \/
    exists name o, name ∈ order /\ r' = RNamed name /\
                   named (graph st) !! name = Some o /\ k = level o.
Proof.
  revert st; induction order as [|name order IH]; intros st; simpl.
  - intros [= <-]. split; [repeat split|]. split; [reflexivity|].
    intros k r'. split; [auto|]. intros [H|(n & o & Hn & _)]; [exact H|].
    apply elem_of_nil in Hn. contradiction.
  - unfold bind at 1, getGraph. cbv beta iota.
    destruct (named (graph st) !! name) as [o|] eqn:Hname.
    + intros H. apply bind_Ret in H as (st1 & [] & H1 & H2).
      apply addToLevel_Ret in H1 as (o' & Ho & Hs1 & Hl1 & Hb1).
      simpl in Ho. rewrite Hname in Ho. injection Ho as <-.
      apply IH in H2 as (Hs2 & Hl2 & Hb2).
      destruct Hs1 as (Hu1 & Hn1 & Hm1), Hs2 as (Hu2 & Hn2 & Hm2).
      split; [repeat split; congruence|]. split; [congruence|].
      intros k r'. rewrite Hb2, Hb1. rewrite Hn1. split.
      * intros [[H|[-> ->]]|(n & x & Hn & -> & Hx & ->)].
        -- auto.
        -- right. exists name, o. repeat split; [apply elem_of_cons; auto|exact Hname].
        -- right. exists n, x. repeat split; [apply elem_of_cons; auto|exact Hx].
      * intros [H|(n & x & Hn & -> & Hx & ->)]; [auto|].
        apply elem_of_cons in Hn as [->|Hn].
        -- left. right. rewrite Hname in Hx. injection Hx as <-. auto.
        -- right. exists n, x. repeat split; assumption.
    + intros H. apply IH in H as (Hs & Hl & Hb). split; [exact Hs|].
      split; [exact Hl|]. intros k r'. rewrite Hb. split.
      * intros [H|(n & x & Hn & -> & Hx & ->)]; [auto|].
        right. exists n, x. repeat split; [apply elem_of_cons; auto|exact Hx].
      * intros [H|(n & x & Hn & -> & Hx & ->)]; [auto|].
        apply elem_of_cons in Hn as [->|Hn]; [congruence|].
        right. exists n, x. repeat split; assumption.
Qed.

Lemma buildLevels_Ret order st st' :
  buildLevels order st = (st', Ret tt) ->
  sameObjects (graph st) (graph st') /\
  length (levels (graph st')) = maxLevel (graph st) + 1 /\
  forall k r, inBucket (levels (graph st')) k r <->
    exists o, getObject (graph st) r = Some o /\ level o = k /\ visited order r.
Proof.
  unfold buildLevels. unfold bind at 1, getGraph. cbv beta iota.
  unfold bind at 1, putGraph. cbv beta iota.
  intros H. apply bind_Ret in H as (st1 & [] & H1 & H2).
  apply addUnnamed_Ret in H1 as (Hs1 & Hl1 & Hb1).
  apply addNamed_Ret in H2 as (Hs2 & Hl2 & Hb2).
  destruct Hs1 as (Hu1 & Hn1 & Hm1), Hs2 as (Hu2 & Hn2 & Hm2). simpl in *.
  split; [repeat split; congruence|].
  split; [rewrite Hl2, Hl1; apply length_replicate|].
  intros k r. rewrite Hb2, Hb1, Hn1. split.
  - intros [[(b & Hb & Hin)|(j & o & Hj & -> & Ho & ->)]|(n & o & Hn & -> & Ho & ->)].
    + apply lookup_replicate in Hb as [-> _]. apply elem_of_nil in Hin. contradiction.
    + exists o. repeat split. exact Ho.
    + exists o. repeat split; assumption.
  - intros (o & Ho & <- & Hv). destruct r as [j|name]; simpl in *.
    + left. right. exists j, o. repeat split; [lia| |exact Ho].
      simpl. eapply lookup_lt_Some, Ho.
    + right. exists name, o. repeat split; assumption.
Qed.

End Buckets.

(** ** The explicit pass on a pointer field *)

Section PointerFields.

Context (P : Program).

Lemma findExisting_head ty objs j :
  findExisting P objs ty j = head (FindAssignableUnnamed P ty objs j).
Proof.
  revert j; induction objs as [|e objs IH]; intros j; [reflexivity|].
  simpl. unfold isCandidate. destruct (private e); simpl; [apply IH|].
  destruct (AssignableTo P (reflectType e) ty); [reflexivity|apply IH].
Qed.

Lemma findExisting_Some ty objs j k e :
  findExisting P objs ty j = Some (k, e) ->
  exists l1 l2, objs = l1 ++ e :: l2 /\ k = j + length l1 /\
    Forall (fun x => isCandidate P ty x = false) l1 /\
    private e = false /\ AssignableTo P (reflectType e) ty = true.
Proof.
  rewrite findExisting_head.
  destruct (FindAssignableUnnamed P ty objs j) as [|[k' e'] rest] eqn:E;
    [discriminate|].
  intros [= -> ->].
  destruct (find_cons _ _ _ _ _ _ _ E) as (l1 & l2 & H1 & H2 & H3 & H4 & _).
  unfold isCandidate in H4. apply andb_true_iff in H4 as [Hp Ha].
  apply negb_true_iff in Hp. eauto 10.
Qed.

(** The branches of [explicitBody] a pointer to a struct reaches. *)
Lemma explicitBody_pointer r i o a f field tag st :
  parseTag (fieldTag f) = (Some tag, None) ->
  Tag.Name tag = "" ->
  exported f = true ->
  isNilOrZero P field (fieldType f) = true ->
  isStructPtr (fieldType f) = true ->
  explicitBody P r i o a f field st =
  (let* g := getGraph in
   match
     (if negb (bool_decide (tag = injectPrivate))
      then findExisting P (unnamed g) (fieldType f) 0 else None)
   with
   | Some (j, existing) =>
       Set_ (exported f) (fieldAddr a i) (dynValue (Value existing)) ;;
       updateLevel r (RUnnamed j)
   | None =>
       let* newValue :=
         New P (match fieldType f with TPtr elem => elem | _ => fieldType f end) in
       let newLevel := level o + 1 in
       raiseMaxLevel newLevel ;;
       provideOne
         {| Value := {| dynType := fieldType f; dynValue := newValue |};
            Name := ""; Complete := false;
            reflectType := TBasic ""; reflectValue := VNil;
            private := bool_decide (tag = injectPrivate);
            level := newLevel; created := true; embedded := false |} ;;
       Set_ (exported f) (fieldAddr a i) newValue
   end) st.
Proof.
  intros Htag Hname Hexp Hzero Hptr. unfold explicitBody.
  rewrite Htag, Hexp, Hzero, Hname, Hptr.
  destruct (fieldType f) as [| | |elem|] eqn:Et; try discriminate.
  reflexivity.
Qed.

(** A field that can be read in [h] can be written in [h] grown by a cell. *)
Lemma load_store_grown h a w z new :
  load h a = Some w ->
  exists h', store h a new = Some h' /\ store (h ++ [z]) a new = Some (h' ++ [z]).
Proof.
  unfold load, store. destruct (h !! a.1) as [c|] eqn:Hc; [|discriminate].
  intros H. destruct (getPath_setPath _ _ _ new H) as [c' Hc'].
  rewrite (lookup_app_l_Some _ _ _ _ Hc), Hc'.
  eexists. split; [reflexivity|]. f_equal.
  apply insert_app_l. eapply lookup_lt_Some, Hc.
Qed.

(** Wiring to the first existing object that fits. *)
Lemma explicitField_existing r i st o a f field tag j e :
  readField P r i st = (st, Ret (o, a, f, field)) ->
  parseTag (fieldTag f) = (Some tag, None) ->
  Tag.Name tag = "" -> tag <> injectPrivate ->
  exported f = true ->
  isNilOrZero P field (fieldType f) = true ->
  isStructPtr (fieldType f) = true ->
  findExisting P (unnamed (graph st)) (fieldType f) 0 = Some (j, e) ->
  exists h',
    store (heap st) (fieldAddr a i) (dynValue (Value e)) = Some h' /\
    explicitField P r i st =
      updateLevel r (RUnnamed j) {| graph := graph st; heap := h' |}.
Proof.
  intros Hread Htag Hname Hpriv Hexp Hzero Hptr Hfind.
  destruct (readField_inv _ _ _ _ _ _ _ _ _ Hread) as (_ & _ & _ & _ & Hload).
  destruct (load_store _ _ _ (dynValue (Value e)) Hload) as [h' Hstore].
  exists h'. split; [exact Hstore|].
  rewrite (explicitField_read _ _ _ _ _ _ _ _ Hread).
  rewrite (explicitBody_pointer _ _ _ _ _ _ _ _ Htag Hname Hexp Hzero Hptr).
  unfold bind at 1, getGraph. cbv beta iota.
  rewrite bool_decide_eq_false_2 by exact Hpriv. cbn [negb].
  rewrite Hfind, Hexp. unfold bind. rewrite (Set_run _ _ _ _ Hstore). reflexivity.
Qed.

(** Creating the object: no existing one fits (or the tag is private) and
    [Provide] takes the new one. *)
Lemma explicitField_create r i st o a f field tag elem :
  readField P r i st = (st, Ret (o, a, f, field)) ->
  parseTag (fieldTag f) = (Some tag, None) ->
  Tag.Name tag = "" ->
  exported f = true ->
  isNilOrZero P field (fieldType f) = true ->
  fieldType f = TPtr elem -> kindOf elem = Struct ->
  (tag <> injectPrivate ->
   findExisting P (unnamed (graph st)) (fieldType f) 0 = None /\
   default false (unnamedType (graph st) !! typeString (fieldType f)) = false) ->
  exists h',
    store (heap st) (fieldAddr a i) (VPtr (length (heap st), [])) = Some h' /\
    explicitField P r i st =
      ({| graph :=
            (if bool_decide (tag = injectPrivate) then appended else registered)
              (graph st)
              (createdObject o (fieldType f) (length (heap st))
                 (bool_decide (tag = injectPrivate)))
              (level o + 1);
          heap := h' ++ [Zero (structs P) elem] |}, Ret tt).
Proof.
  intros Hread Htag Hname Hexp Hzero Hty Hkind Hnone.
  destruct (readField_inv _ _ _ _ _ _ _ _ _ Hread) as (_ & _ & _ & _ & Hload).
  destruct (load_store_grown _ _ _ (Zero (structs P) elem)
              (VPtr (length (heap st), [])) Hload) as (h' & Hstore & Hgrown).
  exists h'. split; [exact Hstore|].
  assert (Hptr : isStructPtr (fieldType f) = true).
  { rewrite Hty. simpl. rewrite Hkind. reflexivity. }
  rewrite (explicitField_read _ _ _ _ _ _ _ _ Hread).
  rewrite (explicitBody_pointer _ _ _ _ _ _ _ _ Htag Hname Hexp Hzero Hptr).
  unfold bind at 1, getGraph. cbv beta iota.
  assert (Hscan : (if negb (bool_decide (tag = injectPrivate))
                   then findExisting P (unnamed (graph st)) (fieldType f) 0
                   else None) = None).
  { destruct (decide (tag = injectPrivate)) as [->|Hne].
    - reflexivity.
    - rewrite bool_decide_eq_false_2 by exact Hne. apply (Hnone Hne). }
  rewrite Hscan, Hty, Hexp.
  unfold New, bind, getHeap, putHeap, ret. cbn [graph heap].
  rewrite raiseMaxLevel_run. cbn [graph heap].
  unfold provideOne, bind, getGraph, putGraph, fail.
  cbn [withReflect Name private reflectType Value dynType dynValue String.eqb
       isStructPtr graph heap withMaxLevel unnamed unnamedType named maxLevel levels].
  rewrite Hkind. rewrite (bool_decide_eq_true_2 (Struct = Struct)) by reflexivity.
  cbn [negb].
  destruct (decide (tag = injectPrivate)) as [->|Hne].
  - rewrite (bool_decide_eq_true_2 (injectPrivate = injectPrivate)) by reflexivity.
    cbn [negb]. rewrite (Set_run_at _ _ _ _ _ Hgrown). reflexivity.
  - rewrite (bool_decide_eq_false_2 (tag = injectPrivate)) by exact Hne.
    cbn [negb]. destruct (Hnone Hne) as [_ Hkey]. rewrite Hty in Hkey.
    rewrite Hkey. rewrite (Set_run_at _ _ _ _ _ Hgrown). reflexivity.
Qed.

End PointerFields.

(** ** C1, C4 and C9: three runs *)

Section Runs.

Import Examples.

(** C4: [Provide] is given a [Foo] of one package, then a [Foo] of
    another package with the same name.  No object of the second type is
    in the graph, yet the second object is refused as a duplicate: the
    key of [unnamedType] is the printed type, which the two types share. *)
Theorem provide_refuses_a_type_with_the_same_printed_name :
  TPtr (TStruct fooA) <> TPtr (TStruct fooB) /\
  typeString (TPtr (TStruct fooA)) = typeString (TPtr (TStruct fooB)) /\
  Provide [unnamedObject (TPtr (TStruct fooA)) 0;
           unnamedObject (TPtr (TStruct fooB)) 1]
    {| graph := emptyGraph; heap := [VStruct []; VStruct []] |} =
  (provided [VStruct []; VStruct []] [unnamedObject (TPtr (TStruct fooA)) 0],
   Fail (DuplicateUnnamedType (TPtr (TStruct fooB)))).
Proof. split; [discriminate|]. split; reflexivity. Qed.

(** C1: the graph holds a [Holder] and a [Foo] of the first package; the
    field of [Holder] asks for the [Foo] of the second.  No object is
    assignable to the field, and yet none is created for it: [Provide]
    refuses the new object for its printed type, [Populate] returns that
    error and the field stays nil. *)
Theorem no_instance_for_a_type_with_the_same_printed_name :
  FindAssignableUnnamed twoPackages (TPtr (TStruct fooB))
    (unnamed (graph (provided [VStruct [VNil]; VStruct []]
       [unnamedObject (ptrTo "Holder") 0; unnamedObject (TPtr (TStruct fooA)) 1]))) 0 = [] /\
  snd (Populate twoPackages 8 noOrder
         (provided [VStruct [VNil]; VStruct []]
            [unnamedObject (ptrTo "Holder") 0; unnamedObject (TPtr (TStruct fooA)) 1])) =
    Fail (DuplicateUnnamedType (TPtr (TStruct fooB))) /\
  load (heap (fst (Populate twoPackages 8 noOrder
         (provided [VStruct [VNil]; VStruct []]
            [unnamedObject (ptrTo "Holder") 0; unnamedObject (TPtr (TStruct fooA)) 1])))) (0, [0]) =
    Some VNil.
Proof. repeat split; vm_compute; reflexivity. Qed.

(** C9: a root provided under a name.  The first [Populate] returns
    without an error and leaves the field of the [First] it created nil
    (the objects a named object makes are appended after the loop over
    the unnamed ones has ended); the second [Populate] sets that field. *)
Theorem second_populate_sets_a_field :
  snd (Populate namedRoot 8 (oneName "foo")
         (provided [VStruct [VNil]]
            [namedObject (ptrTo "TypeForNamedWithUnnamed") 0 "foo"])) = Ret tt /\
  heap namedRootOnce = [VStruct [VPtr (1, [])]; VStruct [VNil]] /\
  Populate namedRoot 8 (oneName "foo") namedRootOnce =
    ({| graph := graph (fst (Populate namedRoot 8 (oneName "foo") namedRootOnce));
        heap := [VStruct [VPtr (1, [])]; VStruct [VPtr (2, [])]; VStruct []] |},
     Ret tt).
Proof. repeat split; vm_compute; reflexivity. Qed.

End Runs.

(** ** C8: levels *)

Section LevelClaim.

Import Examples.

(** C8.  [updateLevel] raises the level of the dependency to the level
    of its user plus one exactly when it is lower, raising the running
    maximum with it, and changes nothing else.  Each pass calls it where
    it wires a field to an object of the graph: the explicit pass for the
    object a tag names and for the first existing object that fits, the
    capability pass for the candidate it assigns.  Hence [Populate],
    whatever its outcome, keeps every object and lowers no level; and when
    it returns, [Levels] has the buckets [0] to [maxLevel] and each bucket
    [k] holds the objects whose level is [k]. *)
Theorem levels_track_dependency_depth :
  (forall st use dep u d,
     getObject (graph st) use = Some u ->
     getObject (graph st) dep = Some d ->
     exists st',
       updateLevel use dep st = (st', Ret tt) /\
       heap st' = heap st /\
       getObject (graph st') dep =
         Some (withLevel d (if level d <? level u + 1 then level u + 1 else level d)) /\
       maxLevel (graph st') =
         (if level d <? level u + 1
          then Nat.max (maxLevel (graph st)) (level u + 1)
          else maxLevel (graph st)) /\
       forall r, r <> dep -> getObject (graph st') r = getObject (graph st) r) /\
  (forall P r i st o a f field tag e,
     readField P r i st = (st, Ret (o, a, f, field)) ->
     parseTag (fieldTag f) = (Some tag, None) ->
     Tag.Name tag <> "" ->
     exported f = true ->
     isNilOrZero P field (fieldType f) = true ->
     named (graph st) !! Tag.Name tag = Some e ->
     AssignableTo P (reflectType e) (fieldType f) = true ->
     exists h',
       store (heap st) (fieldAddr a i) (dynValue (Value e)) = Some h' /\
       explicitField P r i st =
         updateLevel r (RNamed (Tag.Name tag)) {| graph := graph st; heap := h' |}) /\
  (forall P r i st o a f field tag j e,
     readField P r i st = (st, Ret (o, a, f, field)) ->
     parseTag (fieldTag f) = (Some tag, None) ->
     Tag.Name tag = "" -> tag <> injectPrivate ->
     exported f = true ->
     isNilOrZero P field (fieldType f) = true ->
     isStructPtr (fieldType f) = true ->
     findExisting P (unnamed (graph st)) (fieldType f) 0 = Some (j, e) ->
     exists h',
       store (heap st) (fieldAddr a i) (dynValue (Value e)) = Some h' /\
       explicitField P r i st =
         updateLevel r (RUnnamed j) {| graph := graph st; heap := h' |}) /\
  (forall P r o a f i count k e st h',
     getObject (graph st) r = Some o ->
     unnamed (graph st) !! k = Some e ->
     isCandidate P (fieldType f) e = true ->
     exported f = true ->
     store (heap st) (fieldAddr a i) (dynValue (Value e)) = Some h' ->
     exists st2,
       updateLevel r (RUnnamed k) {| graph := graph st; heap := h' |} = (st2, Ret tt) /\
       scanAssignable P r o a f i (S count) k None st =
       scanAssignable P r o a f i count (S k) (Some e) st2) /\
  (forall P fuel order st st' out,
     Populate P fuel order st = (st', out) -> extends (graph st) (graph st')) /\
  (forall P fuel order st st',
     Populate P fuel order st = (st', Ret tt) ->
     length (Levels (graph st')) = maxLevel (graph st') + 1 /\
     forall k r,
       inBucket (Levels (graph st')) k r <->
       exists o, getObject (graph st') r = Some o /\ level o = k /\
                 visited (levelOrder order) r).
Proof.
  split; [|split; [|split; [|split; [|split]]]].
  - intros st use dep u d Hu Hd. eexists. split; [apply (updateLevel_run _ _ _ _ _ Hu Hd)|].
    destruct (Nat.ltb_spec (level d) (level u + 1)) as [Hlt|Hge].
    + destruct (Nat.leb_spec (level u + 1) (level d)); [lia|]. simpl.
      split; [reflexivity|]. split; [|split].
      * destruct dep as [j|name]; simpl in *.
        -- apply list_lookup_insert_eq. eapply lookup_lt_Some, Hd.
        -- apply lookup_insert_eq.
      * destruct dep; reflexivity.
      * intros r Hr. destruct dep as [j|name], r as [j'|name']; simpl; try reflexivity.
        -- apply list_lookup_insert_ne. congruence.
        -- apply lookup_insert_ne. congruence.
    + destruct (Nat.leb_spec (level u + 1) (level d)); [|lia].
      split; [reflexivity|]. split; [|split; [reflexivity|reflexivity]].
      rewrite withLevel_same. exact Hd.
  - intros P. apply explicitField_named.
  - intros P. apply explicitField_existing.
  - intros P. apply scanAssignable_first.
  - intros P fuel order st st' out H. exact (grows_Populate P fuel order _ _ _ H).
  - intros P fuel order st st' H. unfold Populate in H.
    apply bind_Ret in H as (st1 & [] & _ & H).
    apply bind_Ret in H as (st2 & [] & _ & H).
    apply bind_Ret in H as (st3 & [] & _ & H).
    apply bind_Ret in H as (st4 & [] & _ & H).
    apply buildLevels_Ret in H as (Hs & Hlen & Hb).
    unfold Levels. destruct Hs as (Hu & Hn & Hm). split; [congruence|].
    intros k r. rewrite Hb.
    rewrite (sameObjects_getObject (graph st4) (graph st') r) by (repeat split; assumption).
    reflexivity.
Qed.

(** The run of [TestInjectSimple]: the root at level 0, the deepest
    dependency at level 2, three buckets. *)
Lemma levels_track_dependency_depth_witness :
  maxLevel (graph (fst (Populate testProgram 8 noOrder
    (provided [zeroOf "TypeInjectSimple"]
       [unnamedObject (ptrTo "TypeInjectSimple") 0])))) = 2 /\
  length (Levels (graph (fst (Populate testProgram 8 noOrder
    (provided [zeroOf "TypeInjectSimple"]
       [unnamedObject (ptrTo "TypeInjectSimple") 0]))))) = 2 + 1 /\
  extends
    (graph (provided [zeroOf "TypeInjectSimple"]
              [unnamedObject (ptrTo "TypeInjectSimple") 0]))
    (graph (fst (Populate testProgram 8 noOrder
       (provided [zeroOf "TypeInjectSimple"]
          [unnamedObject (ptrTo "TypeInjectSimple") 0])))).
Proof.
  destruct levels_track_dependency_depth as (_ & _ & _ & _ & Hgrow & Hlevels).
  split; [vm_compute; reflexivity|]. split.
  - refine (proj1 (Hlevels testProgram 8 noOrder
      (provided [zeroOf "TypeInjectSimple"]
         [unnamedObject (ptrTo "TypeInjectSimple") 0]) _ _)).
    vm_compute. reflexivity.
  - refine (Hgrow testProgram 8 noOrder _ _ (Ret tt) _). vm_compute. reflexivity.
Defined.

End LevelClaim.

(** ** Values: equality, zero values, pointers *)

Section Values.

Lemma value_ind' (Q : value -> Prop) :
  Q VNil -> (forall z, Q (VScalar z)) -> (forall a, Q (VPtr a)) ->
  (forall n, Q (VMap n)) -> (forall fs, Forall Q fs -> Q (VStruct fs)) ->
  forall v, Q v.
Proof.
  intros Hnil Hscalar Hptr Hmap Hstruct.
  fix IH 1. intros [| z | a | n | fs].
  - exact Hnil.
  - apply Hscalar.
  - apply Hptr.
  - apply Hmap.
  - apply Hstruct. induction fs as [|x fs IHfs]; constructor; [apply IH|exact IHfs].
Qed.

Lemma occurs_struct c fs : occurs c (VStruct fs) = sum_list (map (occurs c) fs).
Proof. induction fs as [|x fs IH]; simpl in *; [reflexivity|]. rewrite IH. reflexivity. Qed.

Lemma closedb_struct n fs : closedb n (VStruct fs) = forallb (closedb n) fs.
Proof. induction fs as [|x fs IH]; simpl in *; [reflexivity|]. rewrite IH. reflexivity. Qed.

Lemma value_eqb_struct fs gs :
  value_eqb (VStruct fs) (VStruct gs) =
  (fix all2 (l k : list value) : bool :=
     match l, k with
     | [], [] => true
     | x :: l', y :: k' => value_eqb x y && all2 l' k'
     | _, _ => false
     end) fs gs.
Proof. reflexivity. Qed.

Lemma value_eqb_eq v w : value_eqb v w = true -> v = w.
Proof.
  revert w; induction v as [| z | a | n | fs IH] using value_ind';
    intros [| z' | a' | n' | gs]; simpl; try discriminate; try reflexivity.
  - intros H. apply bool_decide_eq_true in H. congruence.
  - intros H. apply bool_decide_eq_true in H. congruence.
  - intros H. apply bool_decide_eq_true in H. congruence.
  - intros H. f_equal. revert gs H.
    induction IH as [|x fs Hx _ IHfs]; intros [|y gs] H; try discriminate;
      [reflexivity|].
    apply andb_true_iff in H as [H1 H2]. f_equal; [apply Hx, H1|apply IHfs, H2].
Qed.

Lemma occurs_Zero c ds t : occurs c (Zero ds t) = 0.
Proof.
  revert t; induction ds as [|[id' fs] ds IH]; intros [name|id|id|elem|key elem];
    try reflexivity.
  simpl. destruct (decide (id = id')); [|apply IH].
  rewrite occurs_struct. induction fs as [|f fs IHfs]; simpl; [reflexivity|].
  rewrite IH, IHfs. reflexivity.
Qed.

Lemma closedb_Zero n ds t : closedb n (Zero ds t) = true.
Proof.
  revert t; induction ds as [|[id' fs] ds IH]; intros [name|id|id|elem|key elem];
    try reflexivity.
  simpl. destruct (decide (id = id')); [|apply IH].
  rewrite closedb_struct. induction fs as [|f fs IHfs]; simpl; [reflexivity|].
  rewrite IH, IHfs. reflexivity.
Qed.

Lemma closedb_mono n m v : n <= m -> closedb n v = true -> closedb m v = true.
Proof.
  intros Hnm. induction v as [| z | a | k | fs IH] using value_ind';
    try (intros _; reflexivity).
  - simpl. intros H. apply Nat.ltb_lt in H. apply Nat.ltb_lt. lia.
  - rewrite !closedb_struct. induction IH as [|x fs Hx _ IHfs]; simpl; [auto|].
    intros H. apply andb_true_iff in H as [H1 H2].
    rewrite Hx, IHfs by assumption. reflexivity.
Qed.

(** A pointer-closed value holds no pointer to a cell beyond the bound. *)
Lemma closedb_occurs n c v : closedb n v = true -> n <= c -> occurs c v = 0.
Proof.
  intros H Hc. induction v as [| z | a | k | fs IH] using value_ind';
    try reflexivity.
  - simpl in *. apply Nat.ltb_lt in H. destruct (decide (a = (c, []))) as [->|];
      [simpl in H; lia|reflexivity].
  - rewrite occurs_struct. rewrite closedb_struct in H.
    induction IH as [|x fs Hx _ IHfs]; simpl; [auto|].
    simpl in H. apply andb_true_iff in H as [H1 H2].
    rewrite Hx, IHfs by assumption. reflexivity.
Qed.

Lemma sum_list_insert (f : value -> nat) (l : list value) i w w' :
  l !! i = Some w ->
  sum_list (map f (<[i := w']> l)) + f w = sum_list (map f l) + f w'.
Proof.
  revert i; induction l as [|x l IH]; intros [|i] H; simpl in *; try discriminate.
  - injection H as ->. lia.
  - specialize (IH _ H). lia.
Qed.

Lemma forallb_insert (f : value -> bool) (l : list value) i w' :
  forallb f l = true -> f w' = true -> forallb f (<[i := w']> l) = true.
Proof.
  revert i; induction l as [|x l IH]; intros [|i] H Hw; simpl in *; auto;
    apply andb_true_iff in H as [H1 H2]; apply andb_true_iff; auto.
Qed.

Lemma forallb_lookup (f : value -> bool) (l : list value) i w :
  forallb f l = true -> l !! i = Some w -> f w = true.
Proof.
  revert i; induction l as [|x l IH]; intros [|i] H Hw; simpl in *; try discriminate;
    apply andb_true_iff in H as [H1 H2]; [congruence|eauto].
Qed.

Lemma setPath_occurs c v p old new v' :
  getPath v p = Some old -> setPath v p new = Some v' ->
  occurs c v' + occurs c old = occurs c v + occurs c new.
Proof.
  revert v v'; induction p as [|i p IH]; intros v v' Hg Hs; simpl in *.
  - injection Hg as ->. injection Hs as ->. lia.
  - destruct v as [| | | |fs]; try discriminate.
    destruct (fs !! i) as [w|] eqn:Hi; [|discriminate].
    destruct (setPath w p new) as [w'|] eqn:Hw; [|discriminate].
    injection Hs as <-. specialize (IH _ _ Hg Hw).
    rewrite !occurs_struct.
    pose proof (sum_list_insert (occurs c) fs i w w' Hi). lia.
Qed.

Lemma getPath_closedb n v p w :
  closedb n v = true -> getPath v p = Some w -> closedb n w = true.
Proof.
  revert v; induction p as [|i p IH]; intros v Hc Hg; simpl in *.
  - congruence.
  - destruct v as [| | | |fs]; try discriminate.
    destruct (fs !! i) as [x|] eqn:Hi; [|discriminate].
    rewrite closedb_struct in Hc. eapply IH; [|exact Hg].
    eapply forallb_lookup; eassumption.
Qed.

Lemma setPath_closedb n v p new v' :
  closedb n v = true -> closedb n new = true ->
  setPath v p new = Some v' -> closedb n v' = true.
Proof.
  revert v v'; induction p as [|i p IH]; intros v v' Hc Hn Hs; simpl in *.
  - congruence.
  - destruct v as [| | | |fs]; try discriminate.
    destruct (fs !! i) as [w|] eqn:Hi; [|discriminate].
    destruct (setPath w p new) as [w'|] eqn:Hw; [|discriminate].
    injection Hs as <-. rewrite closedb_struct in Hc |- *.
    apply forallb_insert; [exact Hc|].
    eapply IH; [|exact Hn|exact Hw]. eapply forallb_lookup; eassumption.
Qed.

Lemma store_length h a v h' : store h a v = Some h' -> length h' = length h.
Proof.
  unfold store. destruct (h !! a.1); [|discriminate].
  destruct (setPath _ _ _); [|discriminate]. intros [= <-]. apply length_insert.
Qed.

Lemma store_aliases c h a old new h' :
  load h a = Some old -> store h a new = Some h' ->
  aliases c h' + occurs c old = aliases c h + occurs c new.
Proof.
  unfold load, store, aliases.
  destruct (h !! a.1) as [cell|] eqn:Hc; [|discriminate].
  intros Hg. destruct (setPath cell a.2 new) as [cell'|] eqn:Hs; [|discriminate].
  intros [= <-]. pose proof (setPath_occurs c _ _ _ _ _ Hg Hs).
  pose proof (sum_list_insert (occurs c) h a.1 cell cell' Hc). lia.
Qed.

Lemma store_closed n h a new h' :
  Forall (fun cell => closedb n cell = true) h ->
  closedb n new = true -> store h a new = Some h' ->
  Forall (fun cell => closedb n cell = true) h'.
Proof.
  unfold store. intros Hh Hn.
  destruct (h !! a.1) as [cell|] eqn:Hc; [|discriminate].
  destruct (setPath cell a.2 new) as [cell'|] eqn:Hs; [|discriminate].
  intros [= <-]. apply Forall_insert; [exact Hh|].
  eapply setPath_closedb; [|exact Hn|exact Hs].
  rewrite Forall_forall in Hh. apply Hh. apply list_elem_of_lookup. eauto.
Qed.

Lemma load_closed n h a w :
  Forall (fun cell => closedb n cell = true) h ->
  load h a = Some w -> closedb n w = true.
Proof.
  unfold load. intros Hh. destruct (h !! a.1) as [cell|] eqn:Hc; [|discriminate].
  apply getPath_closedb. rewrite Forall_forall in Hh. apply Hh.
  apply list_elem_of_lookup. eauto.
Qed.

End Values.

(** ** C5: private instances stay isolated *)

Section Isolation.

Context (P : Program).

Lemma isNilOrZero_occurs field ty c :
  isNilOrZero P field ty = true -> occurs c field = 0.
Proof.
  unfold isNilOrZero, DeepEqual. intros H.
  assert (field = VNil \/ field = Zero (structs P) ty) as [->| ->].
  { destruct (kindOf ty); apply value_eqb_eq in H; auto. }
  - reflexivity.
  - apply occurs_Zero.
Qed.

Lemma aliases_closed n c h :
  Forall (fun cell => closedb n cell = true) h -> n <= c -> aliases c h = 0.
Proof.
  intros Hh Hc. unfold aliases. induction Hh as [|x h Hx _ IH]; simpl; [reflexivity|].
  rewrite (closedb_occurs _ _ _ Hx Hc), IH. reflexivity.
Qed.

Lemma aliases_app c h z : aliases c (h ++ [z]) = aliases c h + occurs c z.
Proof.
  unfold aliases. rewrite map_app, sum_list_with_app. simpl. lia.
Qed.

(** The graph changed in levels and buckets only. *)
Lemma isolated_same_values st st' :
  isolated st ->
  heap st' = heap st ->
  (forall r o', getObject (graph st') r = Some o' ->
     exists o, getObject (graph st) r = Some o /\ Value o' = Value o /\
               private o' = private o /\ created o' = created o) ->
  isolated st'.
Proof.
  intros [[Hheap Hreg] Hpriv] Hh Hback. split; [split|].
  - rewrite Hh. exact Hheap.
  - intros r o' Ho'. destruct (Hback _ _ Ho') as (o & Ho & -> & _).
    rewrite Hh. eauto.
  - intros j e' He' Hp Hc.
    destruct (Hback (RUnnamed j) _ He') as (e & He & Hv & Hp' & Hc').
    destruct (Hpriv j e He ltac:(congruence) ltac:(congruence)) as (c & Hval & Hal & Hoth).
    exists c. rewrite Hv, Hh. split; [exact Hval|]. split; [exact Hal|].
    intros r' o' Ho' Hne. destruct (Hback _ _ Ho') as (o & Ho & -> & _). eauto.
Qed.

(** A cell of zeros is allocated. *)
Lemma isolated_alloc st g' z :
  isolated st ->
  closedb (length (heap st)) z = true -> (forall c, occurs c z = 0) ->
  (forall r, getObject g' r = getObject (graph st) r) ->
  isolated {| graph := g'; heap := heap st ++ [z] |}.
Proof.
  intros [[Hheap Hreg] Hpriv] Hz Hz0 Hsame. split; [split|unfold privateIsolated]; simpl.
  - rewrite length_app. simpl. apply Forall_app. split.
    + eapply Forall_impl; [exact Hheap|]. intros x. apply closedb_mono. lia.
    + constructor; [|constructor]. eapply closedb_mono; [|exact Hz]. lia.
  - intros r o Ho. rewrite Hsame in Ho. rewrite length_app.
    eapply closedb_mono; [|eauto]. lia.
  - intros j e He Hp Hc. pose proof (Hsame (RUnnamed j)) as Hj. simpl in Hj.
    rewrite Hj in He.
    destruct (Hpriv j e He Hp Hc) as (c & Hval & Hal & Hoth).
    exists c. split; [exact Hval|]. split.
    + rewrite aliases_app, Hal, Hz0. reflexivity.
    + intros r' o' Ho'. rewrite Hsame in Ho'. eauto.
Qed.

(** A field that holds a zero value is set to the value of an object that
    is named, or unnamed and not private. *)
Lemma isolated_wire st a old r' existing h' :
  isolated st ->
  load (heap st) a = Some old -> (forall c, occurs c old = 0) ->
  getObject (graph st) r' = Some existing ->
  (forall j, r' = RUnnamed j -> private existing = false) ->
  store (heap st) a (dynValue (Value existing)) = Some h' ->
  isolated {| graph := graph st; heap := h' |}.
Proof.
  intros [[Hheap Hreg] Hpriv] Hload Hold Hex Hnp Hstore.
  pose proof (store_length _ _ _ _ Hstore) as Hlen.
  split; [split|unfold privateIsolated]; simpl.
  - rewrite Hlen. eapply store_closed; [exact Hheap| |exact Hstore]. eauto.
  - intros r o Ho. rewrite Hlen. eauto.
  - intros j e He Hp Hc.
    destruct (Hpriv j e He Hp Hc) as (c & Hval & Hal & Hoth).
    exists c. split; [exact Hval|]. split; [|exact Hoth].
    pose proof (store_aliases c _ _ _ _ _ Hload Hstore) as Hs.
    rewrite Hold in Hs. rewrite (Hoth r' existing Hex) in Hs; [lia|].
    intros ->. specialize (Hnp j eq_refl). simpl in Hex. congruence.
Qed.

(** A field that holds a zero value is set to a value without pointers. *)
Lemma isolated_write_plain st a old new h' :
  isolated st ->
  load (heap st) a = Some old -> (forall c, occurs c old = 0) ->
  (forall c, occurs c new = 0) -> (forall n, closedb n new = true) ->
  store (heap st) a new = Some h' ->
  isolated {| graph := graph st; heap := h' |}.
Proof.
  intros [[Hheap Hreg] Hpriv] Hload Hold Hnew Hcl Hstore.
  pose proof (store_length _ _ _ _ Hstore) as Hlen.
  split; [split|unfold privateIsolated]; simpl.
  - rewrite Hlen. eapply store_closed; [exact Hheap|apply Hcl|exact Hstore].
  - intros r o Ho. rewrite Hlen. eauto.
  - intros j e He Hp Hc.
    destruct (Hpriv j e He Hp Hc) as (c & Hval & Hal & Hoth).
    exists c. split; [exact Hval|]. split; [|exact Hoth].
    pose proof (store_aliases c _ _ _ _ _ Hload Hstore) as Hs.
    rewrite Hold, Hnew in Hs. lia.
Qed.

Lemma getObject_appended g g' x r o :
  unnamed g' = unnamed g ++ [x] -> named g' = named g ->
  getObject g' r = Some o ->
  getObject g r = Some o \/ (r = RUnnamed (length (unnamed g)) /\ o = x).
Proof.
  intros Hu Hn. destruct r as [j|name]; simpl; rewrite ?Hu, ?Hn; [|auto].
  intros H. apply lookup_app_Some in H as [H|[Hj H]]; [auto|].
  right. destruct (j - length (unnamed g)) as [|k] eqn:Hk; simpl in H; [|discriminate].
  injection H as <-. split; [f_equal; lia|reflexivity].
Qed.

(** An object that is not a created private instance enters the graph:
    the embedded object of a struct field. *)
Lemma isolated_embedded st g' o a i ty w :
  isolated st ->
  load (heap st) (fieldAddr a i) = Some w ->
  unnamed g' = unnamed (graph st) ++ [embeddedObject o a i ty] ->
  named g' = named (graph st) ->
  isolated {| graph := g'; heap := heap st |}.
Proof.
  intros [[Hheap Hreg] Hpriv] Hload Hu Hn.
  assert (Hcell : a.1 < length (heap st)).
  { unfold load in Hload. simpl in Hload.
    destruct (heap st !! a.1) eqn:E; [|discriminate]. eapply lookup_lt_Some, E. }
  split; [split|unfold privateIsolated]; simpl.
  - exact Hheap.
  - intros r x Hx. destruct (getObject_appended _ _ _ _ _ Hu Hn Hx) as [Hx'|[_ ->]];
      [eauto|]. simpl. apply Nat.ltb_lt. exact Hcell.
  - intros j e He Hp Hc.
    destruct (getObject_appended _ _ _ (RUnnamed j) _ Hu Hn He) as [He'|[_ ->]];
      [|discriminate].
    destruct (Hpriv j e He' Hp Hc) as (c & Hval & Hal & Hoth).
    exists c. split; [exact Hval|]. split; [exact Hal|].
    intros r' o' Ho' Hne.
    destruct (getObject_appended _ _ _ _ _ Hu Hn Ho') as [Ho''|[_ ->]]; [eauto|].
    simpl. destruct (decide (fieldAddr a i = (c, []))) as [E|]; [|reflexivity].
    unfold fieldAddr in E. injection E as _ E. destruct (a.2); discriminate.
Qed.

(** The object made for a pointer field enters the graph and the field
    is set to its cell, the new last cell of the heap. *)
Lemma isolated_created st g' o ty priv a old h' z :
  isolated st ->
  load (heap st) a = Some old -> (forall c, occurs c old = 0) ->
  store (heap st) a (VPtr (length (heap st), [])) = Some h' ->
  closedb (length (heap st)) z = true -> (forall c, occurs c z = 0) ->
  unnamed g' = unnamed (graph st) ++ [createdObject o ty (length (heap st)) priv] ->
  named g' = named (graph st) ->
  isolated {| graph := g'; heap := h' ++ [z] |}.
Proof.
  intros [[Hheap Hreg] Hpriv] Hload Hold Hstore Hz Hz0 Hu Hn.
  pose proof (store_length _ _ _ _ Hstore) as Hlen.
  assert (Hfresh : forall c, occurs c (VPtr (length (heap st), [])) =
                             if decide (c = length (heap st)) then 1 else 0).
  { intros c. simpl. destruct (decide (c = length (heap st))) as [->|Hne].
    - rewrite decide_True; reflexivity.
    - rewrite decide_False; [reflexivity|congruence]. }
  split; [split|unfold privateIsolated]; simpl.
  - rewrite length_app, Hlen. simpl. apply Forall_app. split.
    + eapply Forall_impl.
      * eapply (store_closed (length (heap st) + 1)); [|
          |exact Hstore].
        -- eapply Forall_impl; [exact Hheap|]. intros x. apply closedb_mono. lia.
        -- simpl. apply Nat.ltb_lt. lia.
      * intros x Hx. exact Hx.
    + constructor; [|constructor]. eapply closedb_mono; [|exact Hz]. lia.
  - intros r x Hx. rewrite length_app, Hlen. simpl.
    destruct (getObject_appended _ _ _ _ _ Hu Hn Hx) as [Hx'|[_ ->]].
    + eapply closedb_mono; [|eauto]. lia.
    + simpl. apply Nat.ltb_lt. lia.
  - intros j e He Hp Hc.
    destruct (getObject_appended _ _ _ (RUnnamed j) _ Hu Hn He) as [He'|[Hj ->]].
    + destruct (Hpriv j e He' Hp Hc) as (c & Hval & Hal & Hoth).
      assert (Hc' : c < length (heap st)).
      { specialize (Hreg _ _ He'). rewrite Hval in Hreg. simpl in Hreg.
        apply Nat.ltb_lt in Hreg. exact Hreg. }
      exists c. split; [exact Hval|]. split.
      * rewrite aliases_app, Hz0.
        pose proof (store_aliases c _ _ _ _ _ Hload Hstore) as Hs.
        rewrite Hold, Hfresh in Hs. rewrite decide_False in Hs by lia. lia.
      * intros r' o' Ho' Hne.
        destruct (getObject_appended _ _ _ _ _ Hu Hn Ho') as [Ho''|[_ ->]]; [eauto|].
        cbn [createdObject Value dynValue]. rewrite Hfresh.
        rewrite decide_False by lia. reflexivity.
    + exists (length (heap st)). split; [reflexivity|]. split.
      * rewrite aliases_app, Hz0.
        pose proof (store_aliases (length (heap st)) _ _ _ _ _ Hload Hstore) as Hs.
        rewrite Hold, Hfresh in Hs. rewrite decide_True in Hs by reflexivity.
        rewrite (aliases_closed _ _ _ Hheap (Nat.le_refl _)) in Hs. lia.
      * intros r' o' Ho' Hne.
        destruct (getObject_appended _ _ _ _ _ Hu Hn Ho') as [Ho''|[Hr _]].
        -- eapply closedb_occurs; [eauto|lia].
        -- injection Hj as ->. contradiction.
Qed.

Lemma bind_state {A B} (m : M A) (k : A -> M B) st st' out :
  bind m k st = (st', out) ->
  (exists st1 a, m st = (st1, Ret a) /\ k a st1 = (st', out)) \/
  (exists out', m st = (st', out') /\ forall a, out' <> Ret a).
Proof.
  unfold bind. destruct (m st) as [st1 [a| | |]]; [eauto| | |];
    intros [= <- <-]; right; eexists; (split; [reflexivity|discriminate]).
Qed.

Lemma preserves_bind {A B} I (m : M A) (k : A -> M B) :
  preserves I m -> (forall a, preserves I (k a)) -> preserves I (bind m k).
Proof.
  intros Hm Hk st st' out HI H.
  apply bind_state in H as [(st1 & a & H1 & H2)|(out' & H1 & _)].
  - eapply Hk; [|exact H2]. eapply Hm; eassumption.
  - eapply Hm; eassumption.
Qed.

Lemma preserves_ret {A} I (a : A) : preserves I (ret a).
Proof. intros st st' out HI [= <- <-]. exact HI. Qed.

Lemma preserves_fail {A} I e : preserves I (@fail A e).
Proof. intros st st' out HI [= <- <-]. exact HI. Qed.

Lemma preserves_crash {A} I why : preserves I (@crash A why).
Proof. intros st st' out HI [= <- <-]. exact HI. Qed.

Lemma preserves_getGraph I : preserves I getGraph.
Proof. intros st st' out HI [= <- <-]. exact HI. Qed.

Lemma preserves_need {A} I (o : option A) why : preserves I (need o why).
Proof. destruct o; [apply preserves_ret|apply preserves_crash]. Qed.

Lemma preserves_forRange I body count start :
  (forall i, preserves I (body i)) -> preserves I (forRange body count start).
Proof.
  intros Hb. revert start; induction count as [|count IH]; intros start; simpl.
  - apply preserves_ret.
  - apply preserves_bind; [apply Hb|intros _; apply IH].
Qed.

Lemma readField_state r i st st' out :
  readField P r i st = (st', out) -> st' = st.
Proof.
  unfold readField, bind, getGraph, getHeap, need, ret, crash.
  destruct (getObject (graph st) r) as [o|]; [|intros [= <- _]; reflexivity].
  destruct (reflectValue o); try (intros [= <- _]; reflexivity).
  destruct (fieldsOf P (reflectType o)) as [fields|]; [|intros [= <- _]; reflexivity].
  destruct (fields !! i); [|intros [= <- _]; reflexivity].
  destruct (load (heap st) (fieldAddr a i)); intros [= <- _]; reflexivity.
Qed.

Lemma numField_state r st st' out : numField P r st = (st', out) -> st' = st.
Proof.
  unfold numField, bind, getGraph, need, ret, crash.
  destruct (getObject (graph st) r) as [o|]; [|intros [= <- _]; reflexivity].
  destruct (negb _ && negb _); [intros [= <- _]; reflexivity|].
  destruct (reflectValue o); try (intros [= <- _]; reflexivity).
  destruct (fieldsOf P (reflectType o)); intros [= <- _]; reflexivity.
Qed.

Lemma Set_cases canSet a v st :
  Set_ canSet a v st =
  if canSet then
    match store (heap st) a v with
    | Some h' => ({| graph := graph st; heap := h' |}, Ret tt)
    | None => (st, Crash "reflect.Value.Set of a missing field")
    end
  else (st, Crash "reflect.Value.Set using value obtained using unexported field").
Proof.
  unfold Set_, bind, getHeap, putHeap, need, ret, crash.
  destruct canSet; [|reflexivity]. simpl. destruct (store (heap st) a v); reflexivity.
Qed.

Lemma preserves_raiseMaxLevel n : preserves isolated (raiseMaxLevel n).
Proof.
  intros st st' out HI. rewrite raiseMaxLevel_run. intros [= <- <-].
  apply (isolated_same_values st); [exact HI|reflexivity|].
  intros r o' Ho'. exists o'. split; [destruct r; exact Ho'|auto].
Qed.

Lemma preserves_updateLevel use dep : preserves isolated (updateLevel use dep).
Proof.
  intros st st' out HI. unfold updateLevel, bind, getGraph, need, ret, crash.
  destruct (getObject (graph st) use) as [u|]; [|intros [= <- <-]; exact HI].
  destruct (getObject (graph st) dep) as [d|] eqn:Hd; [|intros [= <- <-]; exact HI].
  destruct (level u + 1 <=? level d); [intros [= <- <-]; exact HI|].
  unfold putGraph. rewrite raiseMaxLevel_run. intros [= <- <-].
  apply (isolated_same_values st); [exact HI|reflexivity|]. simpl.
  intros r o' Ho'.
  assert (Hr : getObject (setObject (graph st) dep (withLevel d (level u + 1))) r = Some o')
    by (destruct r, dep; exact Ho').
  clear Ho'. destruct (decide (r = dep)) as [->|Hne].
  - exists d. split; [exact Hd|].
    assert (o' = withLevel d (level u + 1)) as ->; [|auto].
    destruct dep as [j|name]; simpl in *.
    + rewrite list_lookup_insert_eq in Hr by (eapply lookup_lt_Some, Hd). congruence.
    + rewrite lookup_insert_eq in Hr. congruence.
  - exists o'. split; [|auto].
    destruct dep as [j|name], r as [j'|name']; simpl in *; try exact Hr.
    + rewrite list_lookup_insert_ne in Hr by congruence. exact Hr.
    + rewrite lookup_insert_ne in Hr by congruence. exact Hr.
Qed.

(** What [Provide] does with an unnamed object. *)
Lemma provideOne_unnamed x st st' out :
  Name x = "" ->
  provideOne x st = (st', out) ->
  (st' = st /\ exists e, out = Fail e) \/
  (out = Ret tt /\ heap st' = heap st /\
   unnamed (graph st') = unnamed (graph st) ++ [withReflect x] /\
   named (graph st') = named (graph st)).
Proof.
  intros Hn. unfold provideOne, bind, getGraph, putGraph, fail.
  cbn [withReflect Name private reflectType Value]. rewrite Hn. cbn [String.eqb].
  destruct (isStructPtr _); cbn [negb]; [|intros [= <- <-]; eauto].
  destruct (private x); cbn [negb]; [intros [= <- <-]; right; auto|].
  destruct (default false _); intros [= <- <-]; [eauto|right; auto].
Qed.

Ltac same_state H HI :=
  unfold fail, ret, crash in H; injection H as <- <-; exact HI.

(** Setting a zero field to the value of an object that may be wired,
    then recording the dependency. *)
Lemma isolated_wire_update st a i f field r r' existing st' out :
  isolated st ->
  load (heap st) (fieldAddr a i) = Some field ->
  (forall c, occurs c field = 0) ->
  getObject (graph st) r' = Some existing ->
  (forall j, r' = RUnnamed j -> private existing = false) ->
  (Set_ (exported f) (fieldAddr a i) (dynValue (Value existing)) ;;
   updateLevel r r') st = (st', out) ->
  isolated st'.
Proof.
  intros HI Hload Hold Hex Hnp H.
  apply bind_state in H as [(st1 & [] & H1 & H2)|(out' & H1 & _)];
    rewrite Set_cases in H1; destruct (exported f);
    try (injection H1 as <- _; exact HI); try discriminate;
    destruct (store (heap st) (fieldAddr a i) (dynValue (Value existing)))
      as [h'|] eqn:Hstore; try discriminate;
    try (injection H1 as <- _; exact HI).
  - injection H1 as <-.
    eapply preserves_updateLevel; [|exact H2].
    eapply isolated_wire; eassumption.
  - injection H1 as <- _. eapply isolated_wire; eassumption.
Qed.

Lemma preserves_explicitBody r i o a f field st st' out :
  isolated st ->
  load (heap st) (fieldAddr a i) = Some field ->
  explicitBody P r i o a f field st = (st', out) ->
  isolated st'.
Proof.
  intros HI Hload H. unfold explicitBody in H.
  destruct (parseTag (fieldTag f)) as [[tag|] [e|]]; try (same_state H HI).
  destruct (exported f) eqn:Hexp; cbn [negb] in H; [|same_state H HI].
  destruct (isNilOrZero P field (fieldType f)) eqn:Hzero; cbn [negb] in H;
    [|same_state H HI].
  pose proof (fun c => isNilOrZero_occurs _ _ c Hzero) as Hold.
  destruct (String.eqb (Tag.Name tag) ""); cbn [negb] in H.
  - destruct (bool_decide (kindOf (fieldType f) = Struct)).
    { destruct (bool_decide (tag = injectPrivate)); [same_state H HI|].
      apply bind_state in H as [(st1 & [] & H1 & H2)|(out' & H1 & _)];
        [|eapply preserves_raiseMaxLevel; eassumption].
      pose proof (preserves_raiseMaxLevel _ _ _ _ HI H1) as HI1.
      rewrite raiseMaxLevel_run in H1. injection H1 as <-.
      apply provideOne_unnamed in H2; [|reflexivity].
      destruct H2 as [[E _]|(_ & Hh & Hu & Hn)]; [rewrite E; exact HI1|].
      destruct st' as [g' h']. simpl in Hh, Hu, Hn. subst h'.
      eapply (isolated_embedded _ g' o a i (fieldType f));
        [exact HI1|exact Hload|exact Hu|exact Hn]. }
    destruct (bool_decide (kindOf (fieldType f) = Interface)); [same_state H HI|].
    destruct (bool_decide (kindOf (fieldType f) = Map)).
    { destruct (bool_decide (tag = injectPrivate)); cbn [negb] in H; [|same_state H HI].
      rewrite Set_cases in H.
      destruct (store (heap st) (fieldAddr a i) (VMap 0)) as [h'|] eqn:Hstore;
        [|same_state H HI].
      injection H as <- _.
      eapply isolated_write_plain; [exact HI|exact Hload|exact Hold| | |exact Hstore];
        reflexivity. }
    destruct (isStructPtr (fieldType f)); cbn [negb] in H; [|same_state H HI].
    unfold bind at 1, getGraph in H. cbv beta iota in H.
    destruct (if negb (bool_decide (tag = injectPrivate))
              then findExisting P (unnamed (graph st)) (fieldType f) 0
              else None) as [[j existing]|] eqn:Hfind.
    + destruct (negb (bool_decide (tag = injectPrivate))); [|discriminate].
      destruct (findExisting_Some _ _ _ _ _ _ Hfind)
        as (l1 & l2 & Hobjs & Hj & _ & Hnp & _).
      rewrite <- Hexp in H.
      eapply (isolated_wire_update st a i f field r (RUnnamed j) existing);
        try eassumption.
      * simpl. rewrite Hobjs, Hj. apply list_lookup_middle. reflexivity.
      * intros _ _. exact Hnp.
    + clear Hfind. unfold New in H. unfold bind at 1 2, getHeap in H.
      cbv beta iota in H. unfold bind at 1, putHeap, ret in H. cbv beta iota in H.
      set (z := Zero (structs P)
                  match fieldType f with TPtr elem => elem | _ => fieldType f end) in *.
      cbn [graph heap] in H.
      assert (HIz : isolated {| graph := graph st; heap := heap st ++ [z] |}).
      { apply isolated_alloc; [exact HI|apply closedb_Zero|intros c; apply occurs_Zero|].
        reflexivity. }
      apply bind_state in H as [(st1 & [] & H1 & H2)|(out' & H1 & _)];
        [|eapply preserves_raiseMaxLevel; eassumption].
      pose proof (preserves_raiseMaxLevel _ _ _ _ HIz H1) as HI1.
      rewrite raiseMaxLevel_run in H1. injection H1 as <-.
      apply bind_state in H2 as [(st2 & [] & H2 & H3)|(out' & H2 & Hnot)].
      * apply provideOne_unnamed in H2; [|reflexivity].
        destruct H2 as [[_ [e' He']]|(_ & Hh & Hu & Hn)]; [discriminate|].
        destruct st2 as [g2 h2]. simpl in Hh, Hu, Hn. subst h2.
        rewrite Set_cases in H3.
        destruct (load_store_grown _ _ _ z (VPtr (length (heap st), [])) Hload)
          as (h' & Hstore & Hgrown).
        cbn [graph heap] in H3. rewrite Hgrown in H3. injection H3 as <- _.
        eapply (isolated_created st g2 o (fieldType f)
                  (bool_decide (tag = injectPrivate)));
          [exact HI|exact Hload|exact Hold|exact Hstore|apply closedb_Zero
          |intros c; apply occurs_Zero|exact Hu|exact Hn].
      * apply provideOne_unnamed in H2; [|reflexivity].
        destruct H2 as [[E _]|(Hout & Hh & Hu & Hn)]; [rewrite E; exact HI1|].
        exfalso. exact (Hnot tt Hout).
  - unfold bind at 1, getGraph in H. cbv beta iota in H.
    destruct (named (graph st) !! Tag.Name tag) as [existing|] eqn:Hex;
      [|same_state H HI].
    destruct (AssignableTo P (reflectType existing) (fieldType f)); cbn [negb] in H;
      [|same_state H HI].
    rewrite <- Hexp in H.
    eapply (isolated_wire_update st a i f field r (RNamed (Tag.Name tag)) existing);
      try eassumption. intros j Hj. discriminate.
Qed.

Lemma preserves_explicitField r i : preserves isolated (explicitField P r i).
Proof.
  intros st st' out HI H. unfold explicitField in H.
  apply bind_state in H as [(st1 & [[[o a] f] field] & H1 & H2)|(out' & H1 & _)].
  - destruct (readField_inv _ _ _ _ _ _ _ _ _ H1) as (-> & _ & _ & _ & Hload).
    eapply preserves_explicitBody; eassumption.
  - apply readField_state in H1 as ->. exact HI.
Qed.

Lemma preserves_numField r : preserves isolated (numField P r).
Proof. intros st st' out HI H. apply numField_state in H as ->. exact HI. Qed.

Lemma preserves_populateExplicit r : preserves isolated (populateExplicit P r).
Proof.
  unfold populateExplicit. apply preserves_bind; [apply preserves_numField|].
  intros [n|]; [|apply preserves_ret].
  apply preserves_forRange. intros i. apply preserves_explicitField.
Qed.

(** The scan of the capability pass: it writes at most once, and then
    into the field that is still nil. *)
Lemma preserves_scanAssignable r o a f i count j found st st' out :
  isolated st ->
  (found = None ->
   exists old, load (heap st) (fieldAddr a i) = Some old /\
               forall c, occurs c old = 0) ->
  scanAssignable P r o a f i count j found st = (st', out) ->
  isolated st'.
Proof.
  revert j found st; induction count as [|count IH]; intros j found st HI Hold;
    simpl.
  - intros [= <- <-]. exact HI.
  - unfold bind at 1, getGraph. cbv beta iota.
    unfold bind at 1, need.
    destruct (unnamed (graph st) !! j) as [existing|] eqn:Hex;
      [|intros [= <- <-]; exact HI].
    unfold ret at 1. cbv beta iota.
    destruct (private existing) eqn:Hp; [apply IH; assumption|].
    destruct (AssignableTo P (reflectType existing) (fieldType f));
      [|apply IH; assumption].
    destruct found as [fnd|]; [intros [= <- <-]; exact HI|].
    destruct (Hold eq_refl) as (old & Hload & Hzero).
    intros H. apply bind_state in H as [(st1 & [] & H1 & H2)|(out' & H1 & _)].
    + apply bind_state in H2 as [(st2 & [] & H2 & H3)|(out' & H2 & _)].
      * eapply (IH _ (Some existing) st2); [|discriminate|exact H3].
        eapply (isolated_wire_update st a i f old r (RUnnamed j) existing);
          [exact HI|exact Hload|exact Hzero|exact Hex|intros _ _; exact Hp|].
        unfold bind. rewrite H1. exact H2.
      * eapply (isolated_wire_update st a i f old r (RUnnamed j) existing);
          [exact HI|exact Hload|exact Hzero|exact Hex|intros _ _; exact Hp|].
        unfold bind. rewrite H1. exact H2.
    + rewrite Set_cases in H1. destruct (exported f); [|injection H1 as <- _; exact HI].
      destruct (store _ _ _) as [h'|] eqn:Hstore; [|injection H1 as <- _; exact HI].
      injection H1 as <- _.
      eapply (isolated_wire st _ old (RUnnamed j) existing);
        [exact HI|exact Hload|exact Hzero|exact Hex| |exact Hstore].
      intros _ _. exact Hp.
Qed.

Lemma preserves_interfaceBody r i o a f field st st' out :
  isolated st ->
  load (heap st) (fieldAddr a i) = Some field ->
  interfaceBody P r i o a f field st = (st', out) ->
  isolated st'.
Proof.
  intros HI Hload H. unfold interfaceBody in H.
  destruct (parseTag (fieldTag f)) as [[tag|] [e|]]; try (same_state H HI).
  destruct (bool_decide (kindOf (fieldType f) = Interface)); cbn [negb] in H;
    [|same_state H HI].
  destruct (bool_decide (tag = injectPrivate)); [same_state H HI|].
  destruct (isNilOrZero P field (fieldType f)) eqn:Hzero; cbn [negb] in H;
    [|same_state H HI].
  destruct (String.eqb (Tag.Name tag) ""); cbn [negb] in H; [|same_state H HI].
  unfold bind at 1, getGraph in H. cbv beta iota in H.
  apply bind_state in H as [(st1 & found & H1 & H2)|(out' & H1 & _)].
  - assert (HI1 : isolated st1).
    { eapply preserves_scanAssignable; [exact HI| |exact H1].
      intros _. exists field. split; [exact Hload|].
      intros c. eapply isNilOrZero_occurs, Hzero. }
    destruct found; same_state H2 HI1.
  - eapply preserves_scanAssignable; [exact HI| |exact H1].
    intros _. exists field. split; [exact Hload|].
    intros c. eapply isNilOrZero_occurs, Hzero.
Qed.

Lemma preserves_interfaceField r i : preserves isolated (interfaceField P r i).
Proof.
  intros st st' out HI H. unfold interfaceField in H.
  apply bind_state in H as [(st1 & [[[o a] f] field] & H1 & H2)|(out' & H1 & _)].
  - destruct (readField_inv _ _ _ _ _ _ _ _ _ H1) as (-> & _ & _ & _ & Hload).
    eapply preserves_interfaceBody; eassumption.
  - apply readField_state in H1 as ->. exact HI.
Qed.

Lemma preserves_populateUnnamedInterface r :
  preserves isolated (populateUnnamedInterface P r).
Proof.
  unfold populateUnnamedInterface. apply preserves_bind; [apply preserves_numField|].
  intros [n|]; [|apply preserves_ret].
  apply preserves_forRange. intros i. apply preserves_interfaceField.
Qed.

Lemma preserves_explicitQueue fuel i : preserves isolated (explicitQueue P fuel i).
Proof.
  revert i; induction fuel as [|fuel IH]; intros i; simpl.
  - apply preserves_bind; [apply preserves_getGraph|intros g].
    destruct (i =? length (unnamed g)); [apply preserves_ret|].
    intros st st' out HI [= <- <-]. exact HI.
  - apply preserves_bind; [apply preserves_getGraph|intros g].
    destruct (i =? length (unnamed g)); [apply preserves_ret|].
    apply preserves_bind; [apply preserves_need|intros o].
    destruct (Complete o); [apply IH|].
    apply preserves_bind; [apply preserves_populateExplicit|intros _; apply IH].
Qed.

Lemma preserves_rangeNamed I body order :
  (forall r, preserves I (body r)) -> preserves I (rangeNamed body order).
Proof.
  intros Hb. induction order as [|name order IH]; simpl; [apply preserves_ret|].
  apply preserves_bind; [apply preserves_getGraph|intros g].
  destruct (named g !! name) as [o|]; [|exact IH].
  destruct (Complete o); [exact IH|].
  apply preserves_bind; [apply Hb|intros _; exact IH].
Qed.

Lemma preserves_rangeUnnamed I body :
  (forall r, preserves I (body r)) -> preserves I (rangeUnnamed body).
Proof.
  intros Hb. unfold rangeUnnamed.
  apply preserves_bind; [apply preserves_getGraph|intros g].
  apply preserves_forRange. intros j.
  apply preserves_bind; [apply preserves_getGraph|intros g'].
  apply preserves_bind; [apply preserves_need|intros o].
  destruct (Complete o); [apply preserves_ret|apply Hb].
Qed.

Lemma isolated_withLevels st ls :
  isolated st -> isolated {| graph := withLevels (graph st) ls; heap := heap st |}.
Proof.
  intros HI. apply (isolated_same_values st); [exact HI|reflexivity|].
  intros r o' Ho'. exists o'. split; [destruct r; exact Ho'|auto].
Qed.

Lemma preserves_addToLevel r : preserves isolated (addToLevel r).
Proof.
  intros st st' out HI. unfold addToLevel, bind, getGraph, need, ret, crash, putGraph.
  destruct (getObject (graph st) r) as [o|]; [|intros [= <- <-]; exact HI].
  destruct (levels (graph st) !! level o); intros [= <- <-];
    [apply isolated_withLevels|]; exact HI.
Qed.

Lemma preserves_addNamedToLevels order : preserves isolated (addNamedToLevels order).
Proof.
  induction order as [|name order IH]; simpl; [apply preserves_ret|].
  apply preserves_bind; [apply preserves_getGraph|intros g].
  destruct (named g !! name); [|exact IH].
  apply preserves_bind; [apply preserves_addToLevel|intros _; exact IH].
Qed.

Lemma preserves_buildLevels order : preserves isolated (buildLevels order).
Proof.
  intros st st' out HI H. unfold buildLevels in H.
  unfold bind at 1, getGraph in H. cbv beta iota in H.
  unfold bind at 1, putGraph in H. cbv beta iota in H.
  revert H. apply (preserves_bind isolated).
  - apply preserves_forRange. intros j. apply preserves_addToLevel.
  - intros _. apply preserves_addNamedToLevels.
  - apply isolated_withLevels. exact HI.
Qed.

(** [Populate] keeps the private instances isolated, whatever its
    outcome. *)
Lemma preserves_Populate fuel order : preserves isolated (Populate P fuel order).
Proof.
  unfold Populate.
  apply preserves_bind; [apply preserves_explicitQueue|intros _].
  apply preserves_bind;
    [apply preserves_rangeNamed; intros r; apply preserves_populateExplicit|intros _].
  apply preserves_bind;
    [apply preserves_rangeUnnamed; intros r; apply preserves_populateUnnamedInterface
    |intros _].
  apply preserves_bind;
    [apply preserves_rangeNamed; intros r; apply preserves_populateUnnamedInterface
    |intros _].
  apply preserves_buildLevels.
Qed.

End Isolation.

Section PrivateClaim.

Import Examples.

Lemma isolated_initial st :
  wellFormed st ->
  (forall j e, unnamed (graph st) !! j = Some e -> private e = false) ->
  isolated st.
Proof.
  intros Hwf Hnone. split; [exact Hwf|].
  intros j e He Hp. rewrite (Hnone _ _ He) in Hp. discriminate.
Qed.

(** C5.  A field of pointer-to-struct type under the private tag, still
    nil, is set to a new cell, whatever the graph holds: the object made
    for it is appended with [private] set, and in a well-formed state its
    value is the value of no object that was in the graph.  Both scans
    pass over an object whose [private] is set: the scan of the explicit
    pass never returns one, and the scan of the capability pass steps
    over it.  Hence [Populate], whatever its outcome, keeps every created
    private instance isolated: exactly one field of the heap points to it,
    and it is the value of no other object. *)
Theorem private_instances_are_isolated :
  (forall P r i st o a f field elem,
     readField P r i st = (st, Ret (o, a, f, field)) ->
     parseTag (fieldTag f) = (Some injectPrivate, None) ->
     exported f = true ->
     isNilOrZero P field (fieldType f) = true ->
     fieldType f = TPtr elem -> kindOf elem = Struct ->
     (exists h',
        store (heap st) (fieldAddr a i) (VPtr (length (heap st), [])) = Some h' /\
        explicitField P r i st =
          ({| graph :=
                appended (graph st)
                  (createdObject o (fieldType f) (length (heap st)) true)
                  (level o + 1);
              heap := h' ++ [Zero (structs P) elem] |}, Ret tt)) /\
     (wellFormed st ->
      forall r' o', getObject (graph st) r' = Some o' ->
        dynValue (Value o') <> VPtr (length (heap st), []))) /\
  (forall P objs ty j k e,
     findExisting P objs ty j = Some (k, e) -> private e = false) /\
  (forall P r o a f i count k found st e,
     unnamed (graph st) !! k = Some e -> private e = true ->
     scanAssignable P r o a f i (S count) k found st =
     scanAssignable P r o a f i count (S k) found st) /\
  (forall P fuel order st st' out,
     isolated st -> Populate P fuel order st = (st', out) -> isolated st').
Proof.
  split; [|split; [|split]].
  - intros P r i st o a f field elem Hread Htag Hexp Hzero Hty Hkind. split.
    + destruct (explicitField_create P r i st o a f field injectPrivate elem
                  Hread Htag eq_refl Hexp Hzero Hty Hkind) as (h' & Hstore & Hrun).
      { intros Hne. contradiction. }
      exists h'. split; [exact Hstore|]. rewrite Hrun.
      rewrite (bool_decide_eq_true_2 (injectPrivate = injectPrivate)) by reflexivity.
      reflexivity.
    + intros [_ Hreg] r' o' Ho' Heq. specialize (Hreg _ _ Ho').
      rewrite Heq in Hreg. simpl in Hreg. apply Nat.ltb_lt in Hreg. lia.
  - intros P objs ty j k e H.
    destruct (findExisting_Some _ _ _ _ _ _ H) as (_ & _ & _ & _ & _ & Hp & _).
    exact Hp.
  - intros P r o a f i count k found st e He Hp.
    simpl. unfold bind, getGraph, need, ret. rewrite He, Hp. reflexivity.
  - intros P fuel order st st' out HI H.
    exact (preserves_Populate P fuel order _ _ _ HI H).
Qed.

(** [TestPrivate]: the field [A] is private, the field [B] is not. *)
Lemma private_instances_are_isolated_witness :
  isolated (fst (Populate testProgram 8 noOrder
    (provided [zeroOf "TypeInjectPrivate"]
       [unnamedObject (ptrTo "TypeInjectPrivate") 0]))).
Proof.
  destruct private_instances_are_isolated as (_ & _ & _ & Hkeep).
  refine (Hkeep testProgram 8 noOrder
            (provided [zeroOf "TypeInjectPrivate"]
               [unnamedObject (ptrTo "TypeInjectPrivate") 0]) _
            (snd (Populate testProgram 8 noOrder
                    (provided [zeroOf "TypeInjectPrivate"]
                       [unnamedObject (ptrTo "TypeInjectPrivate") 0]))) _
            (surjective_pairing _)).
  apply isolated_initial.
  - split.
    + repeat constructor.
    + intros [[|j]|name] o H.
      * injection H as <-. reflexivity.
      * destruct j; discriminate H.
      * change (named emptyGraph !! name = Some o) in H. simpl in H.
        rewrite lookup_empty in H. discriminate H.
  - intros [|j] e H; [injection H as <-; reflexivity|].
    destruct j; discriminate H.
Defined.

(** In that run the private instance is the cell 1, the one field [A]
    points to it, and the [A] of the nested struct is another cell. *)
Example private_instance_of_TestPrivate :
  heap (fst (Populate testProgram 8 noOrder
    (provided [zeroOf "TypeInjectPrivate"]
       [unnamedObject (ptrTo "TypeInjectPrivate") 0]))) =
    [ VStruct [VPtr (1, []); VPtr (2, [])];
      VStruct [VScalar 0; VScalar 0];
      VStruct [VPtr (3, [])];
      VStruct [VScalar 0; VScalar 0] ] /\
  aliases 1 (heap (fst (Populate testProgram 8 noOrder
    (provided [zeroOf "TypeInjectPrivate"]
       [unnamedObject (ptrTo "TypeInjectPrivate") 0])))) = 1.
Proof. split; vm_compute; reflexivity. Qed.

End PrivateClaim.

(** ** One pair of an annotation *)

Section TagPairs.

Import TagGrammar.

Lemma contains_cons s c d : contains (String d s) c = Ascii.eqb c d || contains s c.
Proof. reflexivity. Qed.


Lemma len_app (a b : string) : len (a ++ b)%string = len a + len b.
Proof.
  induction a as [|x a IH]; [reflexivity|].
  change (S (len (a ++ b)%string) = S (len a + len b)). f_equal. exact IH.
Qed.

Lemma keyOf_app k rest :
  contains k " " = false -> contains k ":" = false -> contains k dquote = false ->
  keyOf (k ++ String ":" rest) k rest.
Proof.
  induction k as [|c k IH]; simpl; intros Hs Hc Hq; [constructor|].
  rewrite contains_cons in Hs, Hc, Hq.
  apply orb_false_iff in Hs as [Hs1 Hs2], Hc as [Hc1 Hc2], Hq as [Hq1 Hq2].
  apply Ascii.eqb_neq in Hs1, Hc1, Hq1.
  constructor; [congruence|congruence|congruence|]. apply IH; assumption.
Qed.






End TagPairs.

Section TagPairsExample.

Import TagGrammar Examples.


End TagPairsExample.

(** ** Provide *)

Section ProvideSteps.

Lemma provideOne_outcome o st st' out :
  provideOne o st = (st', out) ->
  heap st' = heap st /\ ((st' = st /\ exists e, out = Fail e) \/ out = Ret tt).
Proof.
  unfold provideOne, bind, getGraph, putGraph, fail.
  destruct (String.eqb (Name (withReflect o)) "").
  - destruct (negb (isStructPtr _)); [intros [= <- <-]; eauto|].
    destruct (negb (private _)).
    + destruct (default false _); intros [= <- <-]; eauto.
    + intros [= <- <-]; eauto.
  - destruct (named (graph st) !! _); intros [= <- <-]; eauto.
Qed.


End ProvideSteps.

(** ** Invariants of the graph *)

Section GraphInvariant.

Context (P : Program) (J : Graph -> Prop).

Hypothesis J_raise :
  forall g n, J g -> J (withMaxLevel g (Nat.max (maxLevel g) n)).
Hypothesis J_update :
  forall use dep, preserves (fun st => J (graph st)) (updateLevel use dep).
Hypothesis J_made :
  forall g h r o x st' out,
    J g -> getObject g r = Some o ->
    Name x = "" -> level x = level o + 1 ->
    created x = true \/ embedded x = true ->
    provideOne x
      {| graph := withMaxLevel g (Nat.max (maxLevel g) (level o + 1));
         heap := h |} = (st', out) ->
    J (graph st').
Hypothesis J_levels : forall g ls, J g -> J (withLevels g ls).

Let JS (st : State) : Prop := J (graph st).

Lemma gi_Set canSet a v : preserves JS (Set_ canSet a v).
Proof.
  intros st st' out HJ. rewrite Set_cases. destruct canSet; [|intros [= <- <-]; exact HJ].
  destruct (store (heap st) a v); intros [= <- <-]; exact HJ.
Qed.

Ltac gi_step :=
  first
    [ apply preserves_ret | apply preserves_fail | apply preserves_crash
    | apply preserves_getGraph | apply preserves_need
    | apply gi_Set | apply J_update
    | match goal with H : context [preserves] |- _ => apply H end
    | apply preserves_bind; [|intros ?]
    | match goal with
      | |- preserves _ (match ?x with _ => _ end) => destruct x
      end ].

Ltac gi_tac := repeat gi_step.

Lemma gi_made g h r o x st' out :
  J g -> getObject g r = Some o ->
  Name x = "" -> level x = level o + 1 ->
  created x = true \/ embedded x = true ->
  (raiseMaxLevel (level o + 1) ;; provideOne x) {| graph := g; heap := h |} = (st', out) ->
  J (graph st').
Proof.
  intros HJ Ho Hn Hl Hc. unfold bind. rewrite raiseMaxLevel_run. cbn [graph heap].
  apply (J_made g h r o); assumption.
Qed.

Lemma gi_explicitBody r i o a f field st st' out :
  JS st -> getObject (graph st) r = Some o ->
  explicitBody P r i o a f field st = (st', out) -> JS st'.
Proof.
  intros HJ Ho. unfold explicitBody.
  destruct (parseTag (fieldTag f)) as [[tag|] [e|]];
    try (intros [= <- <-]; exact HJ).
  destruct (negb (exported f)); [intros [= <- <-]; exact HJ|].
  destruct (negb (isNilOrZero P field (fieldType f))); [intros [= <- <-]; exact HJ|].
  destruct (negb (String.eqb (Tag.Name tag) "")).
  { intros H. revert H.
    apply (preserves_bind JS); [apply preserves_getGraph| |exact HJ].
    intros g. gi_tac. }
  destruct (bool_decide (kindOf (fieldType f) = Struct)).
  { destruct (bool_decide (tag = injectPrivate)); [intros [= <- <-]; exact HJ|].
    destruct st as [g h]. apply (gi_made g h r o); auto. }
  destruct (bool_decide (kindOf (fieldType f) = Interface));
    [intros [= <- <-]; exact HJ|].
  destruct (bool_decide (kindOf (fieldType f) = Map)).
  { destruct (negb (bool_decide (tag = injectPrivate)));
      [intros [= <- <-]; exact HJ|]. intros H. exact (gi_Set _ _ _ _ _ _ HJ H). }
  destruct (negb (isStructPtr (fieldType f))); [intros [= <- <-]; exact HJ|].
  unfold bind at 1, getGraph. cbv beta iota.
  destruct (if negb (bool_decide (tag = injectPrivate))
            then findExisting P (unnamed (graph st)) (fieldType f) 0
            else None) as [[j existing]|].
  - intros H. revert H. apply (preserves_bind JS); [apply gi_Set|intros _; apply J_update|exact HJ].
  - unfold New. unfold bind at 1 2, getHeap. cbv beta iota.
    unfold bind at 1, putHeap, ret. cbv beta iota. cbn [graph heap].
    intros H.
    apply bind_state in H as [(st1 & [] & H1 & H2)|(out' & H1 & _)].
    + rewrite raiseMaxLevel_run in H1. injection H1 as <-. cbn [graph heap] in H2.
      apply bind_state in H2 as [(st2 & [] & H2 & H3)|(out' & H2 & _)].
      * eapply gi_Set; [|exact H3]. eapply (J_made (graph st)); [exact HJ|exact Ho| | | |exact H2];
          auto.
      * eapply (J_made (graph st)); [exact HJ|exact Ho| | | |exact H2]; auto.
    + rewrite raiseMaxLevel_run in H1. injection H1 as <- _. apply J_raise. exact HJ.
Qed.

Lemma gi_explicitField r i : preserves JS (explicitField P r i).
Proof.
  intros st st' out HJ H. unfold explicitField in H.
  apply bind_state in H as [(st1 & [[[o a] f] field] & H1 & H2)|(out' & H1 & _)].
  - destruct (readField_inv _ _ _ _ _ _ _ _ _ H1) as (-> & Ho & _).
    eapply gi_explicitBody; eassumption.
  - apply readField_state in H1 as ->. exact HJ.
Qed.

Lemma gi_numField r : preserves JS (numField P r).
Proof. intros st st' out HJ H. apply numField_state in H as ->. exact HJ. Qed.

Lemma gi_populateExplicit r : preserves JS (populateExplicit P r).
Proof.
  unfold populateExplicit. apply preserves_bind; [apply gi_numField|].
  intros [n|]; [|apply preserves_ret].
  apply preserves_forRange. intros i. apply gi_explicitField.
Qed.

Lemma gi_scanAssignable r o a f i count j found :
  preserves JS (scanAssignable P r o a f i count j found).
Proof.
  revert j found; induction count as [|count IH]; intros j found; simpl.
  - apply preserves_ret.
  - gi_tac.
Qed.

Lemma gi_readField r i : preserves JS (readField P r i).
Proof. intros st st' out HJ H. apply readField_state in H as ->. exact HJ. Qed.

Lemma gi_interfaceField r i : preserves JS (interfaceField P r i).
Proof.
  unfold interfaceField. apply preserves_bind; [apply gi_readField|].
  intros [[[o a] f] field]. unfold interfaceBody.
  pose proof (gi_scanAssignable r o a f i) as Hscan. gi_tac.
Qed.

Lemma gi_populateUnnamedInterface r : preserves JS (populateUnnamedInterface P r).
Proof.
  unfold populateUnnamedInterface. apply preserves_bind; [apply gi_numField|].
  intros [n|]; [|apply preserves_ret].
  apply preserves_forRange. intros i. apply gi_interfaceField.
Qed.

Lemma gi_explicitQueue fuel i : preserves JS (explicitQueue P fuel i).
Proof.
  revert i; induction fuel as [|fuel IH]; intros i; simpl.
  - apply preserves_bind; [apply preserves_getGraph|intros g].
    destruct (i =? length (unnamed g)); [apply preserves_ret|].
    intros st st' out HJ [= <- <-]. exact HJ.
  - apply preserves_bind; [apply preserves_getGraph|intros g].
    destruct (i =? length (unnamed g)); [apply preserves_ret|].
    apply preserves_bind; [apply preserves_need|intros o].
    destruct (Complete o); [apply IH|].
    apply preserves_bind; [apply gi_populateExplicit|intros _; apply IH].
Qed.

Lemma gi_populatePasses fuel order : preserves JS (populatePasses P fuel order).
Proof.
  unfold populatePasses.
  apply preserves_bind; [apply gi_explicitQueue|intros _].
  apply preserves_bind;
    [apply preserves_rangeNamed; intros r; apply gi_populateExplicit|intros _].
  apply preserves_bind;
    [apply preserves_rangeUnnamed; intros r; apply gi_populateUnnamedInterface
    |intros _].
  apply preserves_rangeNamed; intros r; apply gi_populateUnnamedInterface.
Qed.

Lemma gi_addToLevel r : preserves JS (addToLevel r).
Proof.
  intros st st' out HJ. unfold addToLevel, bind, getGraph, need, ret, crash, putGraph.
  destruct (getObject (graph st) r) as [o|]; [|intros [= <- <-]; exact HJ].
  destruct (levels (graph st) !! level o); intros [= <- <-];
    [apply J_levels|]; exact HJ.
Qed.

Lemma gi_buildLevels order : preserves JS (buildLevels order).
Proof.
  intros st st' out HJ H. unfold buildLevels in H.
  unfold bind at 1, getGraph in H. cbv beta iota in H.
  unfold bind at 1, putGraph in H. cbv beta iota in H.
  revert H. apply (preserves_bind JS).
  - apply preserves_forRange. intros j. apply gi_addToLevel.
  - intros _. induction order as [|name order IH]; simpl; [apply preserves_ret|].
    apply preserves_bind; [apply preserves_getGraph|intros g].
    destruct (named g !! name); [|exact IH].
    apply preserves_bind; [apply gi_addToLevel|intros _; exact IH].
  - apply J_levels. exact HJ.
Qed.

(** [Populate] is its passes followed by the loops that build the levels. *)
Lemma Populate_passes fuel order st :
  Populate P fuel order st =
  (populatePasses P fuel order ;; buildLevels (levelOrder order)) st.
Proof.
  unfold Populate, populatePasses, bind.
  destruct (explicitQueue P fuel 0 st) as [st1 [[]| | |]]; try reflexivity.
  destruct (rangeNamed _ (explicitOrder order) st1) as [st2 [[]| | |]]; try reflexivity.
  destruct (rangeUnnamed _ st2) as [st3 [[]| | |]]; try reflexivity.
Qed.

Lemma gi_Populate fuel order : preserves JS (Populate P fuel order).
Proof.
  intros st st' out HJ. rewrite Populate_passes. revert st st' out HJ.
  apply preserves_bind; [apply gi_populatePasses|intros _; apply gi_buildLevels].
Qed.

End GraphInvariant.

Section GraphSteps.

(** What [updateLevel] can do to the state. *)
Lemma updateLevel_cases use dep st st' out :
  updateLevel use dep st = (st', out) ->
  st' = st \/
  exists u d,
    getObject (graph st) use = Some u /\ getObject (graph st) dep = Some d /\
    level d < level u + 1 /\
    st' = {| graph :=
               withMaxLevel (setObject (graph st) dep (withLevel d (level u + 1)))
                 (Nat.max (maxLevel (graph st)) (level u + 1));
             heap := heap st |}.
Proof.
  unfold updateLevel, bind, getGraph, need, ret, crash.
  destruct (getObject (graph st) use) as [u|] eqn:Hu; [|intros [= <- <-]; auto].
  destruct (getObject (graph st) dep) as [d|] eqn:Hd; [|intros [= <- <-]; auto].
  destruct (Nat.leb_spec (level u + 1) (level d)); [intros [= <- <-]; auto|].
  unfold putGraph. rewrite raiseMaxLevel_run. intros [= <- <-]. right.
  exists u, d. repeat split; [lia|]. destruct dep; reflexivity.
Qed.

(** The objects of [setObject g r (withLevel o n)] are those of [g], but
    for a level. *)
Lemma setObject_unnamed g r o n j x' :
  getObject g r = Some o ->
  unnamed (setObject g r (withLevel o n)) !! j = Some x' ->
  exists x m, unnamed g !! j = Some x /\ x' = withLevel x m.
Proof.
  intros Ho. destruct r as [k|name]; simpl in *.
  - intros H. apply list_lookup_insert_Some in H as [(-> & <- & _)|[_ H]].
    + exists o, n. split; [exact Ho|reflexivity].
    + exists x', (level x'). split; [exact H|]. symmetry. apply withLevel_same.
  - intros H. exists x', (level x'). split; [exact H|]. symmetry. apply withLevel_same.
Qed.

Lemma setObject_named g r o n name x' :
  getObject g r = Some o ->
  named (setObject g r (withLevel o n)) !! name = Some x' ->
  exists x m, named g !! name = Some x /\ x' = withLevel x m.
Proof.
  intros Ho. destruct r as [k|name']; simpl in *.
  - intros H. exists x', (level x'). split; [exact H|]. symmetry. apply withLevel_same.
  - intros H. apply lookup_insert_Some in H as [[-> <-]|[_ H]].
    + exists o, n. split; [exact Ho|reflexivity].
    + exists x', (level x'). split; [exact H|]. symmetry. apply withLevel_same.
Qed.

End GraphSteps.

(** ** The registry *)

Section RegistryInvariant.

Context (P : Program).

Lemma registry_relevel g g' :
  unnamedType g' = unnamedType g ->
  (forall j x', unnamed g' !! j = Some x' ->
     exists x m, unnamed g !! j = Some x /\ x' = withLevel x m) ->
  (forall name x', named g' !! name = Some x' ->
     exists x m, named g !! name = Some x /\ x' = withLevel x m) ->
  registryOK g -> registryOK g'.
Proof.
  intros Ht Hu Hn (H1 & H2 & H3 & H4). split; [|split; [|split]].
  - intros j o' Ho'. destruct (Hu _ _ Ho') as (x & m & Hx & ->). exact (H1 _ _ Hx).
  - intros j o' Ho' Hp. destruct (Hu _ _ Ho') as (x & m & Hx & ->).
    rewrite Ht. exact (H2 _ _ Hx Hp).
  - intros i j oi oj Hi Hj Hpi Hpj Hs.
    destruct (Hu _ _ Hi) as (xi & mi & Hxi & ->), (Hu _ _ Hj) as (xj & mj & Hxj & ->).
    exact (H3 _ _ _ _ Hxi Hxj Hpi Hpj Hs).
  - intros name o' Ho'. destruct (Hn _ _ Ho') as (x & m & Hx & ->). exact (H4 _ _ Hx).
Qed.

Lemma registry_same g g' :
  unnamedType g' = unnamedType g -> unnamed g' = unnamed g -> named g' = named g ->
  registryOK g -> registryOK g'.
Proof.
  intros Ht Hu Hn. apply registry_relevel; [exact Ht| |].
  - intros j x' H. rewrite Hu in H. exists x', (level x'). split; [exact H|].
    symmetry. apply withLevel_same.
  - intros name x' H. rewrite Hn in H. exists x', (level x'). split; [exact H|].
    symmetry. apply withLevel_same.
Qed.

Lemma registry_updateLevel use dep :
  preserves (fun st => registryOK (graph st)) (updateLevel use dep).
Proof.
  intros st st' out HJ H.
  apply updateLevel_cases in H as [->|(u & d & Hu & Hd & _ & ->)]; [exact HJ|].
  revert HJ. apply registry_relevel; cbn [graph].
  - destruct dep; reflexivity.
  - intros j x'. apply (setObject_unnamed (graph st) dep d (level u + 1) j x' Hd).
  - intros name x'. apply (setObject_named (graph st) dep d (level u + 1) name x' Hd).
Qed.

Lemma registry_provideOne o :
  preserves (fun st => registryOK (graph st)) (provideOne o).
Proof.
  intros st st' out HJ. pose proof HJ as (H1 & H2 & H3 & H4).
  unfold provideOne, bind, getGraph, putGraph, fail.
  cbn [withReflect Name private reflectType reflectValue Value].
  destruct (String.eqb_spec (Name o) "") as [Hname|Hname].
  - destruct (isStructPtr (dynType (Value o))) eqn:Hptr; cbn [negb];
      [|intros [= <- <-]; exact HJ].
    assert (Hnew : forall j x, (unnamed (graph st) ++ [withReflect o]) !! j = Some x ->
              unnamed (graph st) !! j = Some x \/
              (j = length (unnamed (graph st)) /\ x = withReflect o)).
    { intros j x H. apply lookup_app_Some in H as [H|[Hle H]]; [auto|].
      apply list_lookup_singleton_Some in H as [Hj <-]. right. split; [lia|reflexivity]. }
    assert (Hfirst : forall j x, (unnamed (graph st) ++ [withReflect o]) !! j = Some x ->
              Name x = "" /\ isStructPtr (reflectType x) = true /\
              reflectType x = dynType (Value x) /\ reflectValue x = dynValue (Value x)).
    { intros j x H. destruct (Hnew _ _ H) as [Hold|[_ ->]]; [exact (H1 _ _ Hold)|].
      repeat split; assumption. }
    destruct (private o) eqn:Hpriv; cbn [negb].
    + intros [= <- <-]. unfold registryOK. cbn [graph unnamed unnamedType named].
      split; [exact Hfirst|]. split; [|split; [|exact H4]].
      * intros j x H Hp. destruct (Hnew _ _ H) as [Hold|[_ ->]]; [exact (H2 _ _ Hold Hp)|].
        simpl in Hp. congruence.
      * intros i j oi oj Hi Hj Hpi Hpj Hs.
        destruct (Hnew _ _ Hi) as [Holdi|[_ ->]]; [|simpl in Hpi; congruence].
        destruct (Hnew _ _ Hj) as [Holdj|[_ ->]]; [|simpl in Hpj; congruence].
        exact (H3 _ _ _ _ Holdi Holdj Hpi Hpj Hs).
    + destruct (default false (unnamedType (graph st) !! typeString (dynType (Value o))))
        eqn:Hkey; intros [= <- <-]; [exact HJ|].
      unfold registryOK. cbn [graph unnamed unnamedType named].
      assert (Hfree : forall j x, unnamed (graph st) !! j = Some x -> private x = false ->
                typeString (reflectType x) <> typeString (dynType (Value o))).
      { intros j x Hx Hp E. rewrite <- E, (H2 _ _ Hx Hp) in Hkey. discriminate. }
      split; [exact Hfirst|]. split; [|split; [|exact H4]].
      * intros j x H Hp. destruct (Hnew _ _ H) as [Hold|[_ ->]].
        -- rewrite lookup_insert_ne; [exact (H2 _ _ Hold Hp)|].
           intros E. exact (Hfree _ _ Hold Hp (eq_sym E)).
        -- apply lookup_insert_eq.
      * intros i j oi oj Hi Hj Hpi Hpj Hs.
        destruct (Hnew _ _ Hi) as [Holdi|[-> ->]], (Hnew _ _ Hj) as [Holdj|[-> ->]].
        -- exact (H3 _ _ _ _ Holdi Holdj Hpi Hpj Hs).
        -- exfalso. exact (Hfree _ _ Holdi Hpi Hs).
        -- exfalso. exact (Hfree _ _ Holdj Hpj (eq_sym Hs)).
        -- reflexivity.
  - destruct (named (graph st) !! Name o) eqn:Hfree; intros [= <- <-];
      [exact HJ|].
    unfold registryOK. cbn [graph unnamed unnamedType named].
    split; [exact H1|]. split; [exact H2|]. split; [exact H3|].
    intros name x H. apply lookup_insert_Some in H as [[<- <-]|[_ H]];
      [|exact (H4 _ _ H)].
    repeat split. exact Hname.
Qed.

Lemma registry_Provide objects :
  preserves (fun st => registryOK (graph st)) (Provide objects).
Proof.
  induction objects as [|o objects IH]; cbn [Provide]; [apply preserves_ret|].
  apply preserves_bind; [apply registry_provideOne|intros _; exact IH].
Qed.

Lemma registry_Populate fuel order :
  preserves (fun st => registryOK (graph st)) (Populate P fuel order).
Proof.
  apply gi_Populate.
  - intros g n. apply registry_same; reflexivity.
  - apply registry_updateLevel.
  - intros g h r o x st' out HJ _ _ _ _ H.
    eapply registry_provideOne; [|exact H]. cbn [graph].
    revert HJ. apply registry_same; reflexivity.
  - intros g ls. apply registry_same; reflexivity.
Qed.

Lemma registry_empty : registryOK emptyGraph.
Proof.
  split; [|split; [|split]]; cbn [emptyGraph unnamed named].
  - intros j o H. rewrite lookup_nil in H. discriminate.
  - intros j o H. rewrite lookup_nil in H. discriminate.
  - intros i j oi oj H. rewrite lookup_nil in H. discriminate.
  - intros name o H. rewrite lookup_empty in H. discriminate.
Qed.

(** X3.  The registry is kept consistent by every session: starting from
    the empty graph, after any number of calls of [Provide] (with
    whatever objects, accepted or not) and of [Populate] (whatever their
    outcome), every unnamed object is a pointer to a struct, no two
    unnamed objects that are not private have the same type (nor the same
    printed type, which is what [unnamedType] records), and every named
    object is stored under its own name, which is not empty.  A session
    is a list of calls: [inl objects] for [Provide], [inr (fuel, order)]
    for [Populate]. *)
Theorem registry_is_kept
    (calls : list (list Object + nat * MapOrder)) (h : list value) :
  registryOK
    (graph
       (foldl
          (fun st call =>
             match call with
             | inl objects => fst (Provide objects st)
             | inr (fuel, order) => fst (Populate P fuel order st)
             end)
          {| graph := emptyGraph; heap := h |} calls)).
Proof.
  assert (Hgen : forall st, registryOK (graph st) ->
            registryOK
              (graph
                 (foldl
                    (fun st call =>
                       match call with
                       | inl objects => fst (Provide objects st)
                       | inr (fuel, order) => fst (Populate P fuel order st)
                       end) st calls))).
  { induction calls as [|call calls IH]; intros st HJ; [exact HJ|].
    cbn [foldl]. apply IH. destruct call as [objects|[fuel order]].
    - eapply registry_Provide; [exact HJ|apply surjective_pairing].
    - eapply registry_Populate; [exact HJ|apply surjective_pairing]. }
  apply Hgen, registry_empty.
Qed.


End RegistryInvariant.

(** ** Levels and buckets *)

Section LevelInvariant.

Context (P : Program).

Lemma getObject_setObject g dep x r o :
  getObject g dep <> None ->
  getObject (setObject g dep x) r = Some o ->
  (r = dep /\ o = x) \/ (r <> dep /\ getObject g r = Some o).
Proof.
  intros Hd. destruct dep as [k|name], r as [j|name']; simpl in *.
  - intros H. apply list_lookup_insert_Some in H as [(-> & <- & _)|[Hne H]]; [auto|].
    right. split; [congruence|exact H].
  - intros H. right. split; [discriminate|exact H].
  - intros H. right. split; [discriminate|exact H].
  - intros H. apply lookup_insert_Some in H as [[-> <-]|[Hne H]]; [auto|].
    right. split; [congruence|exact H].
Qed.

(** What [Provide] does with an unnamed object, the graph in full. *)
Lemma provideOne_appends x st st' out :
  Name x = "" ->
  provideOne x st = (st', out) ->
  st' = st \/
  (out = Ret tt /\ heap st' = heap st /\
   unnamed (graph st') = unnamed (graph st) ++ [withReflect x] /\
   named (graph st') = named (graph st) /\
   maxLevel (graph st') = maxLevel (graph st) /\
   levels (graph st') = levels (graph st)).
Proof.
  intros Hn. unfold provideOne, bind, getGraph, putGraph, fail.
  cbn [withReflect Name private reflectType Value]. rewrite Hn. cbn [String.eqb].
  destruct (isStructPtr _); cbn [negb]; [|intros [= <- <-]; auto].
  destruct (private x); cbn [negb]; [intros [= <- <-]; right; repeat split|].
  destruct (default false _); intros [= <- <-]; [auto|right; repeat split].
Qed.

Lemma levelsOK_same g g' :
  (forall r, getObject g' r = getObject g r) -> maxLevel g <= maxLevel g' ->
  levelsOK g -> levelsOK g'.
Proof.
  intros Ho Hm HJ r o H. rewrite Ho in H. destruct (HJ _ _ H) as [Hl Hc].
  split; [lia|exact Hc].
Qed.

Lemma levelsOK_updateLevel use dep :
  preserves (fun st => levelsOK (graph st)) (updateLevel use dep).
Proof.
  intros st st' out HJ H.
  apply updateLevel_cases in H as [->|(u & d & Hu & Hd & Hlt & ->)]; [exact HJ|].
  intros r o Ho. cbn [graph] in Ho.
  assert (Ho' : getObject (setObject (graph st) dep (withLevel d (level u + 1))) r = Some o)
    by (destruct r, dep; exact Ho).
  clear Ho. apply getObject_setObject in Ho' as [[-> ->]|[_ Ho']]; [| |congruence].
  - split; [|intros _]; destruct dep; simpl; lia.
  - destruct (HJ _ _ Ho') as [Hl Hc]. split; [|exact Hc].
    destruct dep; simpl; lia.
Qed.

Lemma levelsOK_made g h r o x st' out :
  levelsOK g -> getObject g r = Some o ->
  Name x = "" -> level x = level o + 1 ->
  provideOne x
    {| graph := withMaxLevel g (Nat.max (maxLevel g) (level o + 1)); heap := h |} =
    (st', out) ->
  levelsOK (graph st').
Proof.
  intros HJ Ho Hn Hl H.
  assert (HJ1 : levelsOK (withMaxLevel g (Nat.max (maxLevel g) (level o + 1)))).
  { revert HJ. apply levelsOK_same; [intros []; reflexivity|simpl; lia]. }
  apply provideOne_appends in H as [->|(_ & _ & Hu & Hnm & Hm & _)];
    [exact HJ1| |exact Hn].
  cbn [graph unnamed named maxLevel withMaxLevel] in Hu, Hnm, Hm.
  intros r' o' Ho'. rewrite Hm. destruct r' as [j|name]; simpl in Ho'.
  - rewrite Hu in Ho'. apply lookup_app_Some in Ho' as [Ho'|[_ Ho']].
    + exact (HJ1 (RUnnamed j) o' Ho').
    + apply list_lookup_singleton_Some in Ho' as [_ <-]. simpl. rewrite Hl.
      split; [lia|intros _; lia].
  - rewrite Hnm in Ho'. exact (HJ1 (RNamed name) o' Ho').
Qed.

Lemma levelsOK_passes fuel order :
  preserves (fun st => levelsOK (graph st)) (populatePasses P fuel order).
Proof.
  apply gi_populatePasses.
  - intros g n. apply levelsOK_same; [intros []; reflexivity|simpl; lia].
  - apply levelsOK_updateLevel.
  - intros g h r o x st' out HJ Ho Hn Hl _ H. exact (levelsOK_made g h r o x st' out HJ Ho Hn Hl H).
Qed.

(** With every level below the number of buckets, adding an object to its
    bucket succeeds. *)
Lemma addToLevel_total r g h ls o :
  getObject g r = Some o -> level o < length ls ->
  exists ls',
    length ls' = length ls /\
    addToLevel r {| graph := withLevels g ls; heap := h |} =
    ({| graph := withLevels g ls'; heap := h |}, Ret tt).
Proof.
  intros Ho Hl. unfold addToLevel, bind, getGraph, need, ret, putGraph.
  cbn [graph heap].
  replace (getObject (withLevels g ls) r) with (Some o) by (destruct r; symmetry; exact Ho).
  cbn [levels withLevels].
  destruct (lookup_lt_is_Some_2 ls (level o) Hl) as [bucket Hb]. rewrite Hb.
  eexists. split; [|reflexivity]. apply length_insert.
Qed.

Lemma addUnnamed_total g h count start ls :
  levelsOK g -> maxLevel g < length ls ->
  start + count <= length (unnamed g) ->
  exists ls',
    length ls' = length ls /\
    forRange (fun j => addToLevel (RUnnamed j)) count start
      {| graph := withLevels g ls; heap := h |} =
    ({| graph := withLevels g ls'; heap := h |}, Ret tt).
Proof.
  intros HJ Hm. revert start ls Hm; induction count as [|count IH]; intros start ls Hm Hc.
  - exists ls. split; reflexivity.
  - destruct (lookup_lt_is_Some_2 (unnamed g) start ltac:(lia)) as [o Ho].
    destruct (HJ (RUnnamed start) o Ho) as [Hl _].
    destruct (addToLevel_total (RUnnamed start) g h ls o Ho ltac:(lia)) as (ls1 & Hlen1 & H1).
    destruct (IH (S start) ls1 ltac:(lia) ltac:(lia)) as (ls2 & Hlen2 & H2).
    exists ls2. split; [lia|]. cbn [forRange]. unfold bind. rewrite H1. exact H2.
Qed.

Lemma addNamed_total g h order ls :
  levelsOK g -> maxLevel g < length ls ->
  exists ls',
    length ls' = length ls /\
    addNamedToLevels order {| graph := withLevels g ls; heap := h |} =
    ({| graph := withLevels g ls'; heap := h |}, Ret tt).
Proof.
  intros HJ. revert ls; induction order as [|name order IH]; intros ls Hm.
  - exists ls. split; reflexivity.
  - cbn [addNamedToLevels]. unfold bind at 1, getGraph. cbn [graph named withLevels].
    destruct (named g !! name) as [o|] eqn:Ho; [|apply IH; exact Hm].
    destruct (HJ (RNamed name) o Ho) as [Hl _].
    destruct (addToLevel_total (RNamed name) g h ls o Ho ltac:(lia)) as (ls1 & Hlen1 & H1).
    destruct (IH ls1 ltac:(lia)) as (ls2 & Hlen2 & H2).
    exists ls2. split; [lia|]. unfold bind. rewrite H1. exact H2.
Qed.

Lemma buildLevels_total order st :
  levelsOK (graph st) ->
  exists ls,
    length ls = maxLevel (graph st) + 1 /\
    buildLevels order st =
    ({| graph := withLevels (graph st) ls; heap := heap st |}, Ret tt).
Proof.
  intros HJ. unfold buildLevels. unfold bind at 1, getGraph. cbv beta iota.
  unfold bind at 1, putGraph. cbv beta iota.
  destruct (addUnnamed_total (graph st) (heap st) (length (unnamed (graph st))) 0
              (replicate (maxLevel (graph st) + 1) []) HJ)
    as (ls1 & Hlen1 & H1); [rewrite length_replicate; lia|simpl; lia|].
  rewrite length_replicate in Hlen1.
  destruct (addNamed_total (graph st) (heap st) order ls1 HJ ltac:(lia))
    as (ls2 & Hlen2 & H2).
  exists ls2. split; [lia|]. unfold bind. rewrite H1. exact H2.
Qed.

(** X5.  Building the levels cannot fail.  On a graph in which no level
    is above [maxLevel] (such is every graph of objects provided by the
    caller), [Populate] returns what its passes return when they end with
    an error or a panic; when they succeed it succeeds too, with the
    [maxLevel + 1] buckets of [Levels] as its only further change: no
    [g.levels[o.level]] is out of range.  The passes keep every level at
    or below [maxLevel]. *)
Theorem Populate_builds_the_levels fuel order st :
  levelsOK (graph st) ->
  levelsOK (graph (fst (populatePasses P fuel order st))) /\
  match populatePasses P fuel order st with
  | (st1, Ret _) =>
      exists ls,
        length ls = maxLevel (graph st1) + 1 /\
        Populate P fuel order st =
        ({| graph := withLevels (graph st1) ls; heap := heap st1 |}, Ret tt)
  | (st1, out) => Populate P fuel order st = (st1, out)
  end.
Proof.
  intros HJ.
  assert (HJ1 : levelsOK (graph (fst (populatePasses P fuel order st)))).
  { eapply levelsOK_passes; [exact HJ|apply surjective_pairing]. }
  split; [exact HJ1|]. rewrite Populate_passes. unfold bind.
  destruct (populatePasses P fuel order st) as [st1 [[]| | |]]; try reflexivity.
  apply buildLevels_total. exact HJ1.
Qed.

(** X6.  Level 0 of [Levels] holds only objects that the caller
    provided: after a [Populate] that returns nil on a graph whose levels
    are consistent, no object the resolver made for a pointer field or for
    a struct held by value is in the first bucket. *)
Theorem first_level_holds_provided_objects fuel order st st' r :
  levelsOK (graph st) ->
  Populate P fuel order st = (st', Ret tt) ->
  inBucket (Levels (graph st')) 0 r ->
  exists o, getObject (graph st') r = Some o /\ level o = 0 /\
            created o = false /\ embedded o = false.
Proof.
  intros HJ H Hin. rewrite Populate_passes in H.
  apply bind_Ret in H as (st1 & [] & H1 & H2).
  pose proof (levelsOK_passes _ _ _ _ _ HJ H1) as HJ1.
  apply buildLevels_Ret in H2 as (Hsame & _ & Hb).
  apply Hb in Hin as (o & Ho & Hl & _).
  exists o. rewrite (sameObjects_getObject _ _ _ Hsame). split; [exact Ho|].
  split; [exact Hl|]. destruct (HJ1 _ _ Ho) as [_ Hc].
  destruct (created o); [specialize (Hc (or_introl eq_refl)); lia|].
  destruct (embedded o); [specialize (Hc (or_intror eq_refl)); lia|].
  split; reflexivity.
Qed.

End LevelInvariant.

(** ** Objects that are complete *)

Section CompleteObjects.

Context (P : Program).

Lemma explicitQueue_complete fuel i st :
  (forall j o, unnamed (graph st) !! j = Some o -> Complete o = true) ->
  i <= length (unnamed (graph st)) ->
  length (unnamed (graph st)) - i <= fuel ->
  explicitQueue P fuel i st = (st, Ret tt).
Proof.
  intros Hall. revert i; induction fuel as [|fuel IH]; intros i Hi Hfuel;
    cbn [explicitQueue]; unfold bind at 1, getGraph; cbv beta iota.
  - replace (i =? length (unnamed (graph st))) with true
      by (symmetry; apply Nat.eqb_eq; lia).
    reflexivity.
  - destruct (Nat.eqb_spec i (length (unnamed (graph st)))); [reflexivity|].
    destruct (lookup_lt_is_Some_2 (unnamed (graph st)) i ltac:(lia)) as [o Ho].
    unfold bind at 1, need. rewrite Ho. unfold ret at 1. cbv beta iota.
    rewrite (Hall _ _ Ho). apply IH; lia.
Qed.

Lemma rangeNamed_complete body order st :
  (forall name o, named (graph st) !! name = Some o -> Complete o = true) ->
  rangeNamed body order st = (st, Ret tt).
Proof.
  intros Hall. induction order as [|name order IH]; [reflexivity|].
  cbn [rangeNamed]. unfold bind at 1, getGraph. cbv beta iota.
  destruct (named (graph st) !! name) as [o|] eqn:Ho; [|exact IH].
  rewrite (Hall _ _ Ho). exact IH.
Qed.

Lemma rangeUnnamed_complete body st :
  (forall j o, unnamed (graph st) !! j = Some o -> Complete o = true) ->
  rangeUnnamed body st = (st, Ret tt).
Proof.
  intros Hall. unfold rangeUnnamed. unfold bind at 1, getGraph. cbv beta iota.
  assert (Hgen : forall count start, start + count <= length (unnamed (graph st)) ->
            forRange
              (fun j =>
                 let* g := getGraph in
                 let* o := need (unnamed g !! j) "index out of range" in
                 if Complete o then ret tt else body (RUnnamed j))
              count start st = (st, Ret tt)).
  { induction count as [|count IH]; intros start Hc; [reflexivity|].
    cbn [forRange]. unfold bind at 1. unfold bind at 1, getGraph. cbv beta iota.
    destruct (lookup_lt_is_Some_2 (unnamed (graph st)) start ltac:(lia)) as [o Ho].
    unfold bind at 1, need. rewrite Ho. unfold ret at 1. cbv beta iota.
    rewrite (Hall _ _ Ho). unfold ret at 1. cbv beta iota. apply IH. lia. }
  apply Hgen. simpl. lia.
Qed.

(** X7.  [Complete] objects are left alone.  On a graph all of whose
    objects are marked [Complete], [Populate] reads no field and writes
    none, whatever the types and the tags are: it returns nil, the heap
    and the objects are unchanged, and the only change is the buckets of
    [Levels]. *)
Theorem complete_objects_are_skipped fuel order st :
  (forall r o, getObject (graph st) r = Some o -> Complete o = true) ->
  levelsOK (graph st) ->
  length (unnamed (graph st)) <= fuel ->
  exists ls,
    length ls = maxLevel (graph st) + 1 /\
    Populate P fuel order st =
    ({| graph := withLevels (graph st) ls; heap := heap st |}, Ret tt).
Proof.
  intros Hall HJ Hfuel.
  assert (Hu : forall j o, unnamed (graph st) !! j = Some o -> Complete o = true)
    by (intros j o H; exact (Hall (RUnnamed j) o H)).
  assert (Hn : forall name o, named (graph st) !! name = Some o -> Complete o = true)
    by (intros name o H; exact (Hall (RNamed name) o H)).
  unfold Populate, bind.
  rewrite (explicitQueue_complete fuel 0 st Hu) by lia.
  rewrite (rangeNamed_complete _ _ st Hn).
  rewrite (rangeUnnamed_complete _ st Hu).
  rewrite (rangeNamed_complete _ _ st Hn).
  apply buildLevels_total. exact HJ.
Qed.

End CompleteObjects.

(** ** Names *)

Section Names.

Context (P : Program).

Lemma names_updateLevel (D : gset string) use dep :
  preserves (fun st => dom (named (graph st)) = D) (updateLevel use dep).
Proof.
  intros st st' out HJ H.
  apply updateLevel_cases in H as [->|(u & d & Hu & Hd & _ & ->)]; [exact HJ|].
  cbn [graph]. destruct dep as [k|name]; cbn [setObject withMaxLevel named]; [exact HJ|].
  rewrite dom_insert_lookup_L; [exact HJ|]. simpl in Hd. rewrite Hd. eauto.
Qed.

(** X8.  [Populate] gives no object a name and takes none away: whatever
    its outcome, the names under which objects are registered after it
    are those registered before it.  Only [Provide] called by the user
    adds a named object. *)
Theorem Populate_keeps_the_names fuel order st :
  dom (named (graph (fst (Populate P fuel order st)))) = dom (named (graph st)).
Proof.
  assert (Hp : preserves (fun st0 => dom (named (graph st0)) = dom (named (graph st)))
                 (Populate P fuel order)).
  { apply (gi_Populate P (fun g => dom (named g) = dom (named (graph st)))).
    - intros g n HJ. exact HJ.
    - apply names_updateLevel.
    - intros g h r o x st' out HJ _ Hn _ _ H.
      apply provideOne_appends in H as [->|(_ & _ & _ & Hnm & _)]; [exact HJ| |exact Hn].
      rewrite Hnm. exact HJ.
    - intros g ls HJ. exact HJ. }
  exact (Hp st _ _ eq_refl (surjective_pairing _)).
Qed.

End Names.

(** ** Fields that are set *)

Section SetFields.

Context (P : Program).

Lemma blank_struct fs : blank (VStruct fs) = forallb blank fs.
Proof. induction fs as [|x fs IH]; simpl in *; [reflexivity|]. rewrite IH. reflexivity. Qed.

Lemma blank_Zero ds t : blank (Zero ds t) = true.
Proof.
  revert t; induction ds as [|[id' fs] ds IH]; intros [name|id|id|elem|key elem];
    try reflexivity.
  simpl. destruct (decide (id = id')); [|apply IH].
  rewrite blank_struct. induction fs as [|f fs IHfs]; simpl; [reflexivity|].
  rewrite IH, IHfs. reflexivity.
Qed.

Lemma isNilOrZero_blank field ty :
  isNilOrZero P field ty = true -> blank field = true.
Proof.
  unfold isNilOrZero, DeepEqual. intros H.
  assert (field = VNil \/ field = Zero (structs P) ty) as [->| ->].
  { destruct (kindOf ty); apply value_eqb_eq in H; auto. }
  - reflexivity.
  - apply blank_Zero.
Qed.

Lemma getPath_blank v p w :
  blank v = true -> getPath v p = Some w -> blank w = true.
Proof.
  revert v; induction p as [|i p IH]; intros v Hv H; simpl in H.
  - congruence.
  - destruct v as [| | | |fs]; try discriminate.
    destruct (fs !! i) as [x|] eqn:Hx; [|discriminate].
    rewrite blank_struct in Hv. eapply IH; [|exact H].
    eapply forallb_lookup; eassumption.
Qed.

Lemma isSet_blank w : isSet w = true -> blank w = false.
Proof.
  destruct w as [|z| | |fs]; simpl; try discriminate; try reflexivity.
  intros H. apply negb_true_iff in H. exact H.
Qed.

(** A write into a blank field changes no field that is set. *)
Lemma setPath_keeps v q old new v' p w :
  getPath v q = Some old -> blank old = true ->
  setPath v q new = Some v' ->
  getPath v p = Some w -> isSet w = true ->
  getPath v' p = Some w.
Proof.
  revert v v' p; induction q as [|i q IH]; intros v v' p Hold Hblank Hset Hw Hs.
  - simpl in Hold. injection Hold as ->.
    pose proof (getPath_blank _ _ _ Hblank Hw) as Hb.
    rewrite (isSet_blank _ Hs) in Hb. discriminate.
  - simpl in Hold, Hset. destruct v as [| | | |fs]; try discriminate.
    destruct (fs !! i) as [x|] eqn:Hx; [|discriminate].
    destruct (setPath x q new) as [x'|] eqn:Hx'; [|discriminate].
    injection Hset as <-.
    destruct p as [|k p]; simpl in Hw |- *.
    + injection Hw as <-. discriminate.
    + destruct (decide (k = i)) as [->|Hne].
      * rewrite Hx in Hw. rewrite list_lookup_insert_eq by (eapply lookup_lt_Some, Hx).
        eapply IH; eassumption.
      * rewrite list_lookup_insert_ne by congruence. exact Hw.
Qed.

Lemma store_keeps h b old new h' :
  load h b = Some old -> blank old = true ->
  store h b new = Some h' -> keeps h h'.
Proof.
  unfold load, store. intros Hold Hblank Hstore a w Hw Hs. unfold load in *.
  destruct (h !! b.1) as [c|] eqn:Hc; [|discriminate].
  destruct (setPath c b.2 new) as [c'|] eqn:Hc'; [|discriminate].
  injection Hstore as <-.
  destruct (decide (a.1 = b.1)) as [E|Hne].
  - rewrite E in *. rewrite Hc in Hw. cbv beta iota in Hw.
    rewrite list_lookup_insert_eq by (eapply lookup_lt_Some, Hc). cbv beta iota.
    exact (setPath_keeps _ _ _ _ _ _ _ Hold Hblank Hc' Hw Hs).
  - rewrite list_lookup_insert_ne by congruence. exact Hw.
Qed.

Lemma keeps_refl h : keeps h h.
Proof. intros a w H _. exact H. Qed.

Lemma keeps_trans h1 h2 h3 : keeps h1 h2 -> keeps h2 h3 -> keeps h1 h3.
Proof. intros H12 H23 a w H Hs. apply H23; [|exact Hs]. apply H12; assumption. Qed.

Lemma load_app h z a w : load h a = Some w -> load (h ++ [z]) a = Some w.
Proof.
  unfold load. destruct (h !! a.1) as [c|] eqn:Hc; [|discriminate].
  rewrite (lookup_app_l_Some _ _ _ _ Hc). auto.
Qed.

Lemma keeps_app h z : keeps h (h ++ [z]).
Proof. intros a w H _. apply load_app, H. Qed.

(** What is read back from a field that was just written. *)
Lemma getPath_after_setPath v p new v' :
  setPath v p new = Some v' -> getPath v' p = Some new.
Proof.
  revert v v'; induction p as [|i p IH]; intros v v' H; simpl in H.
  - injection H as <-. reflexivity.
  - destruct v as [| | | |fs]; try discriminate.
    destruct (fs !! i) as [x|] eqn:Hx; [|discriminate].
    destruct (setPath x p new) as [x'|] eqn:Hx'; [|discriminate].
    injection H as <-. simpl.
    rewrite list_lookup_insert_eq by (eapply lookup_lt_Some, Hx).
    eapply IH, Hx'.
Qed.

Lemma load_after_store h a new h' :
  store h a new = Some h' -> load h' a = Some new.
Proof.
  unfold load, store. destruct (h !! a.1) as [c|] eqn:Hc; [|discriminate].
  destruct (setPath c a.2 new) as [c'|] eqn:Hc'; [|discriminate].
  intros [= <-]. rewrite list_lookup_insert_eq by (eapply lookup_lt_Some, Hc).
  eapply getPath_after_setPath, Hc'.
Qed.

End SetFields.

(** ** Invariants of the heap *)

Section HeapInvariant.

Context (P : Program) (K : list value -> Prop).

Hypothesis K_store :
  forall h b old new h',
    K h -> load h b = Some old -> blank old = true ->
    store h b new = Some h' -> K h'.
Hypothesis K_alloc : forall h z, K h -> K (h ++ [z]).

Let KS (st : State) : Prop := K (heap st).

Lemma hi_same {A} (m : M A) :
  (forall st st' out, m st = (st', out) -> heap st' = heap st) -> preserves KS m.
Proof. intros Hm st st' out HK H. unfold KS. rewrite (Hm _ _ _ H). exact HK. Qed.

Lemma updateLevel_heap use dep st st' out :
  updateLevel use dep st = (st', out) -> heap st' = heap st.
Proof.
  intros H. apply updateLevel_cases in H as [->|(u & d & _ & _ & _ & ->)]; reflexivity.
Qed.

Lemma hi_updateLevel use dep : preserves KS (updateLevel use dep).
Proof. apply hi_same. apply updateLevel_heap. Qed.

Lemma hi_Set canSet a v old st st' out :
  KS st -> load (heap st) a = Some old -> blank old = true ->
  Set_ canSet a v st = (st', out) -> KS st'.
Proof.
  intros HK Hload Hblank. rewrite Set_cases. destruct canSet; [|intros [= <- <-]; exact HK].
  destruct (store (heap st) a v) as [h'|] eqn:Hstore; intros [= <- <-]; [|exact HK].
  exact (K_store _ _ _ _ _ HK Hload Hblank Hstore).
Qed.

Lemma hi_wire canSet a v old use dep st st' out :
  KS st -> load (heap st) a = Some old -> blank old = true ->
  (Set_ canSet a v ;; updateLevel use dep) st = (st', out) -> KS st'.
Proof.
  intros HK Hload Hblank H.
  apply bind_state in H as [(st1 & [] & H1 & H2)|(out' & H1 & _)].
  - eapply hi_updateLevel; [|exact H2]. eapply hi_Set; eassumption.
  - eapply hi_Set; eassumption.
Qed.

Lemma hi_explicitBody r i o a f field st st' out :
  KS st -> load (heap st) (fieldAddr a i) = Some field ->
  explicitBody P r i o a f field st = (st', out) -> KS st'.
Proof.
  intros HK Hload. unfold explicitBody.
  destruct (parseTag (fieldTag f)) as [[tag|] [e|]];
    try (intros [= <- <-]; exact HK).
  destruct (negb (exported f)); [intros [= <- <-]; exact HK|].
  destruct (isNilOrZero P field (fieldType f)) eqn:Hzero; cbn [negb];
    [|intros [= <- <-]; exact HK].
  pose proof (isNilOrZero_blank P _ _ Hzero) as Hblank.
  destruct (negb (String.eqb (Tag.Name tag) "")).
  { unfold bind at 1, getGraph. cbv beta iota.
    destruct (named (graph st) !! Tag.Name tag) as [existing|];
      [|intros [= <- <-]; exact HK].
    destruct (negb (AssignableTo P (reflectType existing) (fieldType f)));
      [intros [= <- <-]; exact HK|].
    apply hi_wire with (old := field); assumption. }
  destruct (bool_decide (kindOf (fieldType f) = Struct)).
  { destruct (bool_decide (tag = injectPrivate)); [intros [= <- <-]; exact HK|].
    intros H. apply bind_state in H as [(st1 & [] & H1 & H2)|(out' & H1 & _)];
      rewrite raiseMaxLevel_run in H1.
    - injection H1 as <-. apply provideOne_outcome in H2 as [Hh _].
      unfold KS. rewrite Hh. exact HK.
    - injection H1 as <- _. exact HK. }
  destruct (bool_decide (kindOf (fieldType f) = Interface));
    [intros [= <- <-]; exact HK|].
  destruct (bool_decide (kindOf (fieldType f) = Map)).
  { destruct (negb (bool_decide (tag = injectPrivate)));
      [intros [= <- <-]; exact HK|].
    apply hi_Set with (old := field); assumption. }
  destruct (negb (isStructPtr (fieldType f))); [intros [= <- <-]; exact HK|].
  unfold bind at 1, getGraph. cbv beta iota.
  destruct (if negb (bool_decide (tag = injectPrivate))
            then findExisting P (unnamed (graph st)) (fieldType f) 0
            else None) as [[j existing]|].
  - apply hi_wire with (old := field); assumption.
  - unfold New. unfold bind at 1 2, getHeap. cbv beta iota.
    unfold bind at 1, putHeap, ret. cbv beta iota. cbn [graph heap].
    intros H.
    apply bind_state in H as [(st1 & [] & H1 & H2)|(out' & H1 & _)];
      rewrite raiseMaxLevel_run in H1; cbn [graph heap] in H1.
    + injection H1 as <-.
      apply bind_state in H2 as [(st2 & [] & H2 & H3)|(out' & H2 & _)];
        apply provideOne_outcome in H2 as [Hh _]; cbn [heap] in Hh.
      * eapply hi_Set; [| | |exact H3].
        -- unfold KS. rewrite Hh. apply K_alloc. exact HK.
        -- rewrite Hh. apply load_app. exact Hload.
        -- exact Hblank.
      * unfold KS. rewrite Hh. apply K_alloc. exact HK.
    + injection H1 as <- _. apply K_alloc. exact HK.
Qed.

Lemma hi_explicitField r i : preserves KS (explicitField P r i).
Proof.
  intros st st' out HK H. unfold explicitField in H.
  apply bind_state in H as [(st1 & [[[o a] f] field] & H1 & H2)|(out' & H1 & _)].
  - destruct (readField_inv _ _ _ _ _ _ _ _ _ H1) as (-> & _ & _ & _ & Hload).
    eapply hi_explicitBody; eassumption.
  - apply readField_state in H1 as ->. exact HK.
Qed.

Lemma hi_numField r : preserves KS (numField P r).
Proof. intros st st' out HK H. apply numField_state in H as ->. exact HK. Qed.

Lemma hi_populateExplicit r : preserves KS (populateExplicit P r).
Proof.
  unfold populateExplicit. apply preserves_bind; [apply hi_numField|].
  intros [n|]; [|apply preserves_ret].
  apply preserves_forRange. intros i. apply hi_explicitField.
Qed.

(** The scan of the capability pass writes at most once, into the field
    that is still blank. *)
Lemma hi_scanAssignable r o a f i count j found st st' out :
  KS st ->
  (found = None ->
   exists old, load (heap st) (fieldAddr a i) = Some old /\ blank old = true) ->
  scanAssignable P r o a f i count j found st = (st', out) ->
  KS st'.
Proof.
  revert j found st; induction count as [|count IH]; intros j found st HK Hold;
    simpl.
  - intros [= <- <-]. exact HK.
  - unfold bind at 1, getGraph. cbv beta iota.
    unfold bind at 1, need.
    destruct (unnamed (graph st) !! j) as [existing|] eqn:Hex;
      [|intros [= <- <-]; exact HK].
    unfold ret at 1. cbv beta iota.
    destruct (private existing) eqn:Hp; [apply IH; assumption|].
    destruct (AssignableTo P (reflectType existing) (fieldType f));
      [|apply IH; assumption].
    destruct found as [fnd|]; [intros [= <- <-]; exact HK|].
    destruct (Hold eq_refl) as (old & Hload & Hblank).
    intros H. apply bind_state in H as [(st1 & [] & H1 & H2)|(out' & H1 & _)].
    + pose proof (hi_Set _ _ _ _ _ _ _ HK Hload Hblank H1) as HK1.
      apply bind_state in H2 as [(st2 & [] & H2 & H3)|(out' & H2 & _)].
      * eapply (IH _ (Some existing) st2); [|discriminate|exact H3].
        eapply hi_updateLevel; eassumption.
      * eapply hi_updateLevel; eassumption.
    + eapply hi_Set; eassumption.
Qed.

Lemma hi_interfaceBody r i o a f field st st' out :
  KS st -> load (heap st) (fieldAddr a i) = Some field ->
  interfaceBody P r i o a f field st = (st', out) -> KS st'.
Proof.
  intros HK Hload. unfold interfaceBody.
  destruct (parseTag (fieldTag f)) as [[tag|] [e|]];
    try (intros [= <- <-]; exact HK).
  destruct (negb (bool_decide (kindOf (fieldType f) = Interface)));
    [intros [= <- <-]; exact HK|].
  destruct (bool_decide (tag = injectPrivate)); [intros [= <- <-]; exact HK|].
  destruct (isNilOrZero P field (fieldType f)) eqn:Hzero; cbn [negb];
    [|intros [= <- <-]; exact HK].
  destruct (negb (String.eqb (Tag.Name tag) "")); [intros [= <- <-]; exact HK|].
  unfold bind at 1, getGraph. cbv beta iota. intros H.
  assert (Hold : @None Object = None ->
            exists old, load (heap st) (fieldAddr a i) = Some old /\ blank old = true).
  { intros _. exists field. split; [exact Hload|]. eapply (isNilOrZero_blank P), Hzero. }
  apply bind_state in H as [(st1 & found & H1 & H2)|(out' & H1 & _)].
  - pose proof (hi_scanAssignable _ _ _ _ _ _ _ _ _ _ _ HK Hold H1) as HK1.
    destruct found; injection H2 as <- _; exact HK1.
  - exact (hi_scanAssignable _ _ _ _ _ _ _ _ _ _ _ HK Hold H1).
Qed.

Lemma hi_interfaceField r i : preserves KS (interfaceField P r i).
Proof.
  intros st st' out HK H. unfold interfaceField in H.
  apply bind_state in H as [(st1 & [[[o a] f] field] & H1 & H2)|(out' & H1 & _)].
  - destruct (readField_inv _ _ _ _ _ _ _ _ _ H1) as (-> & _ & _ & _ & Hload).
    eapply hi_interfaceBody; eassumption.
  - apply readField_state in H1 as ->. exact HK.
Qed.

Lemma hi_populateUnnamedInterface r : preserves KS (populateUnnamedInterface P r).
Proof.
  unfold populateUnnamedInterface. apply preserves_bind; [apply hi_numField|].
  intros [n|]; [|apply preserves_ret].
  apply preserves_forRange. intros i. apply hi_interfaceField.
Qed.

Lemma hi_explicitQueue fuel i : preserves KS (explicitQueue P fuel i).
Proof.
  revert i; induction fuel as [|fuel IH]; intros i; simpl.
  - apply preserves_bind; [apply preserves_getGraph|intros g].
    destruct (i =? length (unnamed g)); [apply preserves_ret|].
    intros st st' out HK [= <- <-]. exact HK.
  - apply preserves_bind; [apply preserves_getGraph|intros g].
    destruct (i =? length (unnamed g)); [apply preserves_ret|].
    apply preserves_bind; [apply preserves_need|intros o].
    destruct (Complete o); [apply IH|].
    apply preserves_bind; [apply hi_populateExplicit|intros _; apply IH].
Qed.

Lemma addToLevel_heap r st st' out :
  addToLevel r st = (st', out) -> heap st' = heap st.
Proof.
  unfold addToLevel, bind, getGraph, need, ret, crash, putGraph.
  destruct (getObject (graph st) r) as [o|]; [|intros [= <- <-]; reflexivity].
  destruct (levels (graph st) !! level o); intros [= <- <-]; reflexivity.
Qed.

Lemma hi_buildLevels order : preserves KS (buildLevels order).
Proof.
  intros st st' out HK H. unfold buildLevels in H.
  unfold bind at 1, getGraph in H. cbv beta iota in H.
  unfold bind at 1, putGraph in H. cbv beta iota in H.
  revert H. apply (preserves_bind KS).
  - apply preserves_forRange. intros j. apply hi_same, addToLevel_heap.
  - intros _. induction order as [|name order IH]; simpl; [apply preserves_ret|].
    apply preserves_bind; [apply preserves_getGraph|intros g].
    destruct (named g !! name); [|exact IH].
    apply preserves_bind; [apply hi_same, addToLevel_heap|intros _; exact IH].
  - exact HK.
Qed.

Lemma hi_Populate fuel order : preserves KS (Populate P fuel order).
Proof.
  unfold Populate.
  apply preserves_bind; [apply hi_explicitQueue|intros _].
  apply preserves_bind;
    [apply preserves_rangeNamed; intros r; apply hi_populateExplicit|intros _].
  apply preserves_bind;
    [apply preserves_rangeUnnamed; intros r; apply hi_populateUnnamedInterface
    |intros _].
  apply preserves_bind;
    [apply preserves_rangeNamed; intros r; apply hi_populateUnnamedInterface
    |intros _].
  apply hi_buildLevels.
Qed.

End HeapInvariant.

Section Overwriting.

Context (P : Program).

(** X9.  [Populate] does not overwrite.  A field that is set before the
    call (it holds a pointer, a map or a scalar other than zero), of a
    provided struct or of any other cell of the heap, at any depth of
    structs held by value, holds the same value after the call, whatever
    the outcome of the call. *)
Theorem set_fields_are_kept fuel order st a w :
  load (heap st) a = Some w -> isSet w = true ->
  load (heap (fst (Populate P fuel order st))) a = Some w.
Proof.
  intros Hw Hs.
  assert (Hp : preserves (fun st' => keeps (heap st) (heap st')) (Populate P fuel order)).
  { apply (hi_Populate P (keeps (heap st))).
    - intros h b old new h' HK Hload Hblank Hstore.
      eapply keeps_trans; [exact HK|]. eapply store_keeps; eassumption.
    - intros h z HK. eapply keeps_trans; [exact HK|apply keeps_app]. }
  exact (Hp st _ _ (keeps_refl _) (surjective_pairing _) a w Hw Hs).
Qed.

End Overwriting.

(** ** One instance for each type *)

Section Singletons.

Context (P : Program).

Lemma findExisting_index objs ty j e s :
  objs !! j = Some e -> isCandidate P ty e = true ->
  (forall k x, k < j -> objs !! k = Some x -> isCandidate P ty x = false) ->
  findExisting P objs ty s = Some (s + j, e).
Proof.
  revert j s; induction objs as [|x objs IH]; intros j s Hj Hc Hbefore;
    [rewrite lookup_nil in Hj; discriminate|].
  destruct j as [|j]; simpl in Hj |- *.
  - injection Hj as ->. unfold isCandidate in Hc.
    apply andb_true_iff in Hc as [Hp Ha]. apply negb_true_iff in Hp.
    rewrite Hp, Ha, Nat.add_0_r. reflexivity.
  - pose proof (Hbefore 0 x ltac:(lia) eq_refl) as Hx. unfold isCandidate in Hx.
    replace (s + S j) with (S s + j) by lia.
    assert (Hrec : findExisting P objs ty (S s) = Some (S s + j, e)).
    { apply IH; [exact Hj|exact Hc|]. intros k y Hk Hy. apply (Hbefore (S k)); [lia|exact Hy]. }
    destruct (private x); [exact Hrec|]. simpl in Hx. rewrite Hx. exact Hrec.
Qed.

Lemma findExisting_none objs ty s k x :
  findExisting P objs ty s = None -> objs !! k = Some x ->
  isCandidate P ty x = false.
Proof.
  rewrite findExisting_head.
  destruct (FindAssignableUnnamed P ty objs s) as [|[] ?] eqn:E; [|discriminate].
  intros _ Hx. pose proof (find_nil _ _ _ _ E) as Hall.
  rewrite Forall_forall in Hall. apply Hall, list_elem_of_lookup. eauto.
Qed.

(** The scan finds the same object in every later graph. *)
Lemma findExisting_extends g g' ty j e :
  extends g g' ->
  findExisting P (unnamed g) ty 0 = Some (j, e) ->
  exists n, findExisting P (unnamed g') ty 0 = Some (j, withLevel e n).
Proof.
  intros [_ Hext] Hfind.
  destruct (findExisting_Some _ _ _ _ _ _ Hfind) as (l1 & l2 & Hobjs & Hj & Hl1 & Hp & Ha).
  simpl in Hj. subst j.
  assert (He : unnamed g !! length l1 = Some e).
  { rewrite Hobjs. apply list_lookup_middle. reflexivity. }
  destruct (Hext (RUnnamed (length l1)) e He) as (n & _ & He').
  exists n. apply (findExisting_index _ _ _ _ 0 He').
  - unfold isCandidate. simpl. rewrite Hp, Ha. reflexivity.
  - intros k x' Hk Hx'.
    destruct (lookup_lt_is_Some_2 (unnamed g) k) as [x Hx].
    { rewrite Hobjs, length_app. lia. }
    destruct (Hext (RUnnamed k) x Hx) as (m & _ & Hx2). simpl in Hx2.
    rewrite Hx2 in Hx'. injection Hx' as <-.
    change (isCandidate P ty (withLevel x m)) with (isCandidate P ty x).
    rewrite Forall_forall in Hl1. apply Hl1.
    rewrite Hobjs, lookup_app_l in Hx by lia.
    apply list_elem_of_lookup. eauto.
Qed.

(** The creation that [Provide] refuses: nothing fits the field, and the
    printed type of the field is taken. *)
Lemma explicitField_refused r i st o a f field tag :
  readField P r i st = (st, Ret (o, a, f, field)) ->
  parseTag (fieldTag f) = (Some tag, None) ->
  Tag.Name tag = "" -> tag <> injectPrivate ->
  exported f = true ->
  isNilOrZero P field (fieldType f) = true ->
  isStructPtr (fieldType f) = true ->
  findExisting P (unnamed (graph st)) (fieldType f) 0 = None ->
  default false (unnamedType (graph st) !! typeString (fieldType f)) = true ->
  explicitField P r i st =
  ({| graph := withMaxLevel (graph st) (Nat.max (maxLevel (graph st)) (level o + 1));
      heap := heap st ++
                [Zero (structs P)
                   match fieldType f with TPtr elem => elem | _ => fieldType f end] |},
   Fail (DuplicateUnnamedType (fieldType f))).
Proof.
  intros Hread Htag Hname Hpriv Hexp Hzero Hptr Hfind Hkey.
  rewrite (explicitField_read _ _ _ _ _ _ _ _ Hread).
  rewrite (explicitBody_pointer _ _ _ _ _ _ _ _ _ Htag Hname Hexp Hzero Hptr).
  unfold bind at 1, getGraph. cbv beta iota.
  rewrite bool_decide_eq_false_2 by exact Hpriv. cbn [negb]. rewrite Hfind.
  unfold New, bind, getHeap, putHeap, ret. cbn [graph heap].
  rewrite raiseMaxLevel_run. cbn [graph heap].
  unfold provideOne, bind, getGraph, putGraph, fail.
  cbn [withReflect Name private reflectType Value dynType dynValue String.eqb
       graph heap withMaxLevel unnamed unnamedType named maxLevel levels].
  rewrite Hptr, Hkey. reflexivity.
Qed.

(** After a plain pointer field was filled, the scan for its type finds
    an object whose value is the one the field holds. *)
Lemma filled_field_has_its_instance r i st a ty st' :
  awaitsInstance P st r i a ty ->
  explicitField P r i st = (st', Ret tt) ->
  exists j e,
    findExisting P (unnamed (graph st')) ty 0 = Some (j, e) /\
    load (heap st') (fieldAddr a i) = Some (dynValue (Value e)).
Proof.
  intros (o & f & field & tag & Hread & Htag & Hname & Hpriv & Hexp & Hty & Hptr & Hzero) H.
  subst ty.
  destruct (findExisting P (unnamed (graph st)) (fieldType f) 0) as [[j e]|] eqn:Hfind.
  - destruct (explicitField_existing P _ _ _ _ _ _ _ _ _ _ Hread Htag Hname Hpriv Hexp
                Hzero Hptr Hfind) as (h' & Hstore & Heq).
    rewrite Heq in H.
    pose proof (grows_updateLevel _ _ _ _ _ H) as Hext. cbn [graph] in Hext.
    destruct (findExisting_extends _ _ _ _ _ Hext Hfind) as (n & Hfind').
    exists j, (withLevel e n). split; [exact Hfind'|].
    rewrite (updateLevel_heap _ _ _ _ _ H). cbn [heap].
    eapply load_after_store. exact Hstore.
  - destruct (default false (unnamedType (graph st) !! typeString (fieldType f)))
      eqn:Hkey.
    + rewrite (explicitField_refused _ _ _ _ _ _ _ _ Hread Htag Hname Hpriv Hexp
                 Hzero Hptr Hfind Hkey) in H. discriminate.
    + destruct (fieldType f) as [| | |elem|] eqn:Ety; try discriminate.
      simpl in Hptr. apply bool_decide_eq_true in Hptr.
      destruct (explicitField_create P r i st o a f field tag elem Hread Htag Hname Hexp)
        as (h' & Hstore & Heq).
      * rewrite Ety. exact Hzero.
      * exact Ety.
      * exact Hptr.
      * intros _. rewrite Ety. split; [exact Hfind|exact Hkey].
      * rewrite Heq in H. injection H as <-.
        rewrite bool_decide_eq_false_2 by exact Hpriv. cbn [graph heap registered unnamed].
        exists (length (unnamed (graph st))),
               (createdObject o (fieldType f) (length (heap st)) false).
        split.
        -- rewrite Ety.
           apply (findExisting_index _ _ _ _ 0).
           ++ apply list_lookup_middle. reflexivity.
           ++ unfold isCandidate, AssignableTo. simpl.
              rewrite bool_decide_eq_true_2 by reflexivity. reflexivity.
           ++ intros k x Hk Hx. rewrite lookup_app_l in Hx by exact Hk.
              eapply findExisting_none; [exact Hfind|exact Hx].
        -- apply load_app. simpl. eapply load_after_store. exact Hstore.
Qed.

(** X10.  One instance for each type.  Once [populateExplicit] has filled
    a plain pointer field of type [ty], every plain pointer field of the
    same type that it fills later, in the same graph grown by whatever
    calls, receives the same instance: the value stored in the second
    field is the value that was stored in the first. *)
Theorem same_type_same_instance ty r1 i1 a1 st1 st1' r2 i2 a2 st2 :
  awaitsInstance P st1 r1 i1 a1 ty ->
  explicitField P r1 i1 st1 = (st1', Ret tt) ->
  extends (graph st1') (graph st2) ->
  awaitsInstance P st2 r2 i2 a2 ty ->
  exists v,
    load (heap st1') (fieldAddr a1 i1) = Some v /\
    snd (explicitField P r2 i2 st2) = Ret tt /\
    load (heap (fst (explicitField P r2 i2 st2))) (fieldAddr a2 i2) = Some v.
Proof.
  intros Hfirst H1 Hext Hsecond.
  destruct (filled_field_has_its_instance _ _ _ _ _ _ Hfirst H1) as (j & e & Hfind & Hload).
  destruct (findExisting_extends _ _ _ _ _ Hext Hfind) as (n & Hfind2).
  destruct Hsecond
    as (o & f & field & tag & Hread & Htag & Hname & Hpriv & Hexp & Hty & Hptr & Hzero).
  subst ty.
  destruct (explicitField_existing P _ _ _ _ _ _ _ _ _ _ Hread Htag Hname Hpriv Hexp
              Hzero Hptr Hfind2) as (h' & Hstore & Heq).
  exists (dynValue (Value e)). split; [exact Hload|].
  destruct (readField_inv _ _ _ _ _ _ _ _ _ Hread) as (_ & Ho & _).
  destruct (findExisting_Some _ _ _ _ _ _ Hfind2) as (l1 & l2 & Hobjs & Hj & _).
  assert (Hd : getObject (graph st2) (RUnnamed j) = Some (withLevel e n)).
  { simpl. rewrite Hobjs, Hj. apply list_lookup_middle. reflexivity. }
  rewrite Heq.
  rewrite (updateLevel_run r2 (RUnnamed j) {| graph := graph st2; heap := h' |}
             o (withLevel e n) Ho Hd).
  split; [reflexivity|]. cbn [fst].
  replace (heap (if level o + 1 <=? level (withLevel e n)
                 then {| graph := graph st2; heap := h' |}
                 else _)) with h' by (destruct (_ <=? _); reflexivity).
  eapply load_after_store. exact Hstore.
Qed.

End Singletons.

(** ** The short-hand Populate *)

Section Shorthand.

Context (P : Program).

Lemma Provide_heap objects st : heap (fst (Provide objects st)) = heap st.
Proof.
  revert st; induction objects as [|o objects IH]; intros st; [reflexivity|].
  cbn [Provide]. unfold bind.
  destruct (provideOne o st) as [st1 out1] eqn:H1.
  destruct (provideOne_outcome _ _ _ _ H1) as [Hh [[-> [e ->]]| ->]]; [reflexivity|].
  rewrite IH. exact Hh.
Qed.

(** [Provide] on values without a name, from a graph whose recorded
    printed types are [seen]. *)
Lemma Provide_unnamed_accepts values : forall st (seen : list string),
  (forall key, default false (unnamedType (graph st) !! key) = true <-> key ∈ seen) ->
  snd (Provide (map (fun v => newObject v "" false) values) st) = Ret tt <->
  Forall (fun v => isStructPtr (dynType v) = true) values /\
  NoDup (map (fun v => typeString (dynType v)) values) /\
  (forall v, v ∈ values -> typeString (dynType v) ∉ seen).
Proof.
  induction values as [|v values IH]; intros st seen Hseen.
  - simpl. split; [intros _|reflexivity].
    split; [constructor|]. split; [constructor|].
    intros v Hv. apply elem_of_nil in Hv. contradiction.
  - cbn [map Provide]. unfold bind.
    unfold provideOne at 1, bind, getGraph, putGraph, fail.
    cbn [withReflect newObject Name private reflectType Value String.eqb negb].
    destruct (isStructPtr (dynType v)) eqn:Hptr; cbn [negb snd].
    + destruct (default false (unnamedType (graph st) !! typeString (dynType v)))
        eqn:Hkey; cbn [snd].
      * split; [discriminate|]. intros (_ & _ & Hfresh). exfalso.
        apply (Hfresh v); [apply elem_of_cons; auto|]. apply Hseen. exact Hkey.
      * rewrite (IH _ (typeString (dynType v) :: seen)).
        -- split.
           ++ intros (Hall & Hnd & Hfresh). split; [constructor; assumption|].
              split.
              ** cbn [map]. apply NoDup_cons. split; [|exact Hnd].
                 intros Hin. apply list_elem_of_fmap in Hin as (w & Hw & Hin).
                 apply (Hfresh w Hin). rewrite <- Hw. apply elem_of_cons. auto.
              ** intros w Hw Hin. apply elem_of_cons in Hw as [->|Hw].
                 --- apply Hseen in Hin. congruence.
                 --- apply (Hfresh w Hw). apply elem_of_cons. auto.
           ++ intros (Hall & Hnd & Hfresh). cbn [map] in Hnd.
              apply NoDup_cons in Hnd as [Hnotin Hnd].
              apply Forall_cons in Hall as [_ Hall].
              split; [exact Hall|]. split; [exact Hnd|].
              intros w Hw Hin. apply elem_of_cons in Hin as [Heq|Hin].
              ** apply Hnotin. rewrite <- Heq.
                 apply list_elem_of_fmap. exists w. auto.
              ** apply (Hfresh w); [apply elem_of_cons; auto|exact Hin].
        -- intros key. cbn [graph unnamedType].
           destruct (decide (key = typeString (dynType v))) as [->|Hne].
           ++ rewrite lookup_insert_eq. simpl. split; [intros _|reflexivity].
              apply elem_of_cons. auto.
           ++ rewrite lookup_insert_ne by congruence. rewrite Hseen.
              split; [intros H; apply elem_of_cons; auto|].
              intros H. apply elem_of_cons in H as [H|H]; [contradiction|exact H].
    + split; [discriminate|]. intros (Hall & _).
      apply Forall_cons in Hall as [Hv _]. congruence.
Qed.

(** X11.  The short-hand [Populate(values...)].  It provides every value
    to a new graph before it populates anything.  The values are all
    accepted exactly when each is a pointer to a struct and no two have
    the same printed type; then the call is [g.Populate()] on the graph of
    these objects.  Otherwise the call returns the error of [Provide] and
    has written nothing. *)
Theorem shorthand_Populate fuel values st :
  let objects := map (fun v => newObject v "" false) values in
  let st0 := {| graph := emptyGraph; heap := heap st |} in
  (snd (Provide objects st0) = Ret tt <->
     Forall (fun v => isStructPtr (dynType v) = true) values /\
     NoDup (map (fun v => typeString (dynType v)) values)) /\
  heap (fst (Provide objects st0)) = heap st /\
  PopulateValues P fuel values st =
  match Provide objects st0 with
  | (st1, Ret _) =>
      Populate P fuel {| explicitOrder := []; interfaceOrder := []; levelOrder := [] |} st1
  | refused => refused
  end.
Proof.
  intros objects st0. split; [|split].
  - unfold objects. rewrite (Provide_unnamed_accepts values st0 []).
    + split; [intros (H1 & H2 & _); auto|]. intros [H1 H2].
      split; [exact H1|]. split; [exact H2|].
      intros v _ Hin. apply elem_of_nil in Hin. contradiction.
    + intros key. cbn [st0 graph emptyGraph unnamedType]. rewrite lookup_empty. simpl.
      split; [discriminate|]. intros Hin. apply elem_of_nil in Hin. contradiction.
  - apply (Provide_heap objects st0).
  - unfold PopulateValues, bind, putGraph. fold objects. fold st0.
    destruct (Provide objects st0) as [st1 [[]| | |]]; reflexivity.
Qed.

End Shorthand.

(** ** A queue that never ends *)

Section EndlessQueue.

Context (P : Program).

Lemma Zero_one_pointer ds id f elem :
  lookupStruct ds id = Some [f] -> fieldType f = TPtr elem ->
  Zero ds (TStruct id) = VStruct [VNil].
Proof.
  intros Hl Hf. induction ds as [|[id' fs] ds IH]; [discriminate|].
  simpl in Hl |- *. destruct (decide (id = id')).
  - injection Hl as ->. simpl. rewrite Hf. destruct ds; reflexivity.
  - apply IH, Hl.
Qed.

Lemma explicitQueue_out_of_fuel st i fuel out st' :
  explicitQueue P fuel i st = (st', out) -> out = OutOfFuel ->
  snd (explicitQueue P fuel i st) = OutOfFuel.
Proof. intros -> ->. reflexivity. Qed.

(** The last object of the queue is a struct whose one field is a private
    pointer to a struct of the same type: working on it appends an object
    of the same kind. *)
Lemma queue_never_ends id f fuel :
  lookupStruct (structs P) id = Some [f] ->
  fieldType f = TPtr (TStruct id) ->
  parseTag (fieldTag f) = (Some injectPrivate, None) ->
  exported f = true ->
  forall i st o c,
    unnamed (graph st) !! i = Some o -> S i = length (unnamed (graph st)) ->
    Complete o = false -> Name o = "" ->
    reflectType o = TPtr (TStruct id) -> reflectValue o = VPtr (c, []) ->
    heap st !! c = Some (VStruct [VNil]) ->
    snd (explicitQueue P fuel i st) = OutOfFuel.
Proof.
  intros Hfields Hty Htag Hexp.
  induction fuel as [|fuel IH]; intros i st o c Ho Hlast Hcomplete Hname Hrt Hrv Hcell;
    cbn [explicitQueue]; unfold bind at 1, getGraph; cbv beta iota;
    (destruct (Nat.eqb_spec i (length (unnamed (graph st)))); [lia|]);
    [reflexivity|].
  unfold bind at 1, need. rewrite Ho. unfold ret at 1. cbv beta iota.
  rewrite Hcomplete.
  assert (Hread : readField P (RUnnamed i) 0 st = (st, Ret (o, (c, []), f, VNil))).
  { unfold readField, bind, getGraph, getHeap, need, ret. cbn [getObject].
    rewrite Ho, Hrv, Hrt. cbn [fieldsOf]. rewrite Hfields. cbn [lookup list_lookup].
    unfold load, fieldAddr. cbn [fst snd app]. rewrite Hcell. reflexivity. }
  destruct (explicitField_create P (RUnnamed i) 0 st o (c, []) f VNil injectPrivate
              (TStruct id) Hread Htag eq_refl Hexp)
    as (h' & Hstore & Hstep);
    [rewrite Hty; reflexivity|exact Hty|reflexivity|intros Hne; contradiction|].
  rewrite bool_decide_eq_true_2 in Hstep by reflexivity.
  assert (Hpop : populateExplicit P (RUnnamed i) st =
                 ({| graph := appended (graph st)
                                (createdObject o (fieldType f) (length (heap st)) true)
                                (level o + 1);
                     heap := h' ++ [Zero (structs P) (TStruct id)] |}, Ret tt)).
  { unfold populateExplicit, numField. unfold bind, getGraph, need, ret.
    cbn [getObject]. rewrite Ho, Hname, Hrv, Hrt. cbn [String.eqb negb andb fieldsOf].
    rewrite Hfields. cbn [length forRange]. unfold bind. rewrite Hstep. reflexivity. }
  unfold bind. rewrite Hpop.
  apply (IH (S i) _ (createdObject o (fieldType f) (length (heap st)) true)
            (length (heap st))).
  - cbn [graph appended unnamed]. rewrite Hlast. apply list_lookup_middle. reflexivity.
  - cbn [graph appended unnamed]. rewrite length_app. simpl. lia.
  - reflexivity.
  - reflexivity.
  - exact Hty.
  - reflexivity.
  - cbn [heap]. rewrite <- (store_length _ _ _ _ Hstore).
    rewrite list_lookup_middle by reflexivity.
    rewrite (Zero_one_pointer _ _ _ _ Hfields Hty). reflexivity.
Qed.

(** X12.  A loop that does not end.  For a struct type whose one field is
    a private pointer to a struct of the same type, [Populate] on a
    provided value of that type never returns: every round of the work
    queue creates a new instance and appends it to the queue, so the loop
    is still running after any number of rounds. *)
Theorem private_field_of_its_own_type_never_ends id f h cell fuel order :
  lookupStruct (structs P) id = Some [f] ->
  fieldType f = TPtr (TStruct id) ->
  parseTag (fieldTag f) = (Some injectPrivate, None) ->
  exported f = true ->
  h !! cell = Some (VStruct [VNil]) ->
  snd (Populate P fuel order
         (fst (Provide
                 [newObject {| dynType := TPtr (TStruct id);
                               dynValue := VPtr (cell, []) |} "" false]
                 {| graph := emptyGraph; heap := h |}))) = OutOfFuel.
Proof.
  intros Hfields Hty Htag Hexp Hcell.
  assert (Hst : fst (Provide
                 [newObject {| dynType := TPtr (TStruct id);
                               dynValue := VPtr (cell, []) |} "" false]
                 {| graph := emptyGraph; heap := h |}) =
          {| graph :=
               {| unnamed := [withReflect
                                (newObject {| dynType := TPtr (TStruct id);
                                              dynValue := VPtr (cell, []) |} "" false)];
                  unnamedType := <[typeString (TPtr (TStruct id)) := true]> ∅;
                  named := ∅; maxLevel := 0; levels := [] |};
             heap := h |}).
  { cbn [Provide]. unfold bind, provideOne, bind, getGraph, putGraph, ret.
    cbn [withReflect newObject Name private reflectType Value dynType String.eqb
         isStructPtr kindOf negb graph emptyGraph unnamedType].
    rewrite bool_decide_eq_true_2 by reflexivity. cbn [negb].
    rewrite lookup_empty. reflexivity. }
  rewrite Hst. unfold Populate, bind.
  pose proof (queue_never_ends id f fuel Hfields Hty Htag Hexp 0
                {| graph :=
                     {| unnamed := [withReflect
                                      (newObject {| dynType := TPtr (TStruct id);
                                                    dynValue := VPtr (cell, []) |} "" false)];
                        unnamedType := <[typeString (TPtr (TStruct id)) := true]> ∅;
                        named := ∅; maxLevel := 0; levels := [] |};
                   heap := h |}
                _ cell eq_refl eq_refl eq_refl eq_refl eq_refl eq_refl Hcell) as Hq.
  destruct (explicitQueue P fuel 0 _) as [st' out]. simpl in Hq. subst out. reflexivity.
Qed.

End EndlessQueue.

(** ** Pairs that are not finished *)

Section UnfinishedPairs.

Import TagGrammar.

Lemma scan_whole_key k :
  contains k " " = false -> contains k ":" = false -> contains k dquote = false ->
  scanKey k = len k /\ skipSpaces k = 0.
Proof.
  induction k as [|c k IH]; intros Hs Hc Hq; [split; reflexivity|].
  rewrite contains_cons in Hs, Hc, Hq.
  apply orb_false_iff in Hs as [Hs1 Hs2], Hc as [Hc1 Hc2], Hq as [Hq1 Hq2].
  destruct (IH Hs2 Hc2 Hq2) as [IH1 _].
  rewrite Ascii.eqb_sym in Hs1. rewrite Ascii.eqb_sym in Hc1. rewrite Ascii.eqb_sym in Hq1.
  simpl. rewrite Hs1, Hc1, Hq1. simpl. rewrite IH1. split; reflexivity.
Qed.

Lemma scanQuoted_whole v :
  contains v dquote = false -> contains v "\" = false -> scanQuoted v = len v.
Proof.
  induction v as [|c v IH]; intros Hq Hb; [reflexivity|].
  rewrite contains_cons in Hq, Hb.
  apply orb_false_iff in Hq as [Hq1 Hq2], Hb as [Hb1 Hb2].
  rewrite Ascii.eqb_sym in Hq1. rewrite Ascii.eqb_sym in Hb1.
  simpl. rewrite Hq1, Hb1, (IH Hq2 Hb2). reflexivity.
Qed.

Lemma parseTag_invalid t :
  extractTag t = (false, "", Some errInvalidTag) ->
  parseTag t = (None, Some errInvalidTag).
Proof. intros H. unfold parseTag. rewrite H. reflexivity. Qed.

(** X13.  A pair that is not finished is a malformed annotation.  For a
    key [k] without space, colon or double quote, the annotation is
    refused with the error of an invalid tag when it is the key alone
    (not empty), the key and its colon, or the key, the colon and a value
    that opens with a double quote and is not closed. *)
Theorem parseTag_refuses_an_unfinished_pair k v :
  contains k " " = false -> contains k ":" = false -> contains k dquote = false ->
  contains v dquote = false -> contains v "\" = false ->
  (k <> "" -> parseTag k = (None, Some errInvalidTag)) /\
  parseTag (k ++ ":") = (None, Some errInvalidTag) /\
  parseTag (k ++ String ":" (String dquote v)) = (None, Some errInvalidTag).
Proof.
  intros Hks Hkc Hkq Hvq Hvb. split; [|split].
  - intros Hne. apply parseTag_invalid. unfold extractTag.
    rewrite extractTag_loop_unfold.
    destruct (String.eqb_spec k ""); [contradiction|].
    destruct (scan_whole_key k Hks Hkc Hkq) as [Hscan Hsp].
    rewrite Hsp. change (from 0 k) with k. cbv zeta.
    destruct (String.eqb_spec k ""); [contradiction|].
    rewrite Hscan.
    destruct (Nat.leb_spec (len k) (len k + 1)); [reflexivity|lia].
  - apply parseTag_invalid. unfold extractTag. rewrite extractTag_loop_unfold.
    pose proof (keyOf_app k "" Hks Hkc Hkq) as Hk.
    destruct (keyOf_scan _ _ _ Hk) as (Hscan & _ & _ & Hsp & Hne).
    destruct (String.eqb_spec (k ++ ":") ""); [contradiction|].
    rewrite Hsp. change (from 0 (k ++ ":")) with (k ++ ":")%string. cbv zeta.
    destruct (String.eqb_spec (k ++ ":") ""); [contradiction|].
    rewrite Hscan, len_app. change (len ":") with 1.
    destruct (Nat.leb_spec (len k + 1) (len k + 1)); [reflexivity|lia].
  - apply parseTag_invalid. unfold extractTag. rewrite extractTag_loop_unfold.
    set (s := (k ++ String ":" (String dquote v))%string).
    pose proof (keyOf_app k (String dquote v) Hks Hkc Hkq) as Hk. fold s in Hk.
    destruct (keyOf_scan _ _ _ Hk) as (Hscan & Hname & Hfrom & Hsp & Hne).
    destruct (from_succ_colon _ _ _ Hfrom) as (Hfrom1 & Hat & Hlen).
    destruct (String.eqb_spec s ""); [contradiction|].
    rewrite Hsp. change (from 0 s) with s. cbv zeta.
    destruct (String.eqb_spec s ""); [contradiction|].
    rewrite Hscan, Hat, Hfrom1, (at_from _ _ _ _ Hfrom1), !isByte_refl.
    change (len (String dquote v)) with (S (len v)) in Hlen |- *.
    destruct (Nat.leb_spec (len s) (len k + 1)); [lia|].
    cbn [negb orb from Nat.add]. rewrite (scanQuoted_whole v Hvq Hvb).
    destruct (Nat.leb_spec (S (len v)) (S (len v))); [reflexivity|lia].
Qed.

End UnfinishedPairs.

(** ** Fuel *)

Section Fuel.

Context (P : Program).

Lemma explicitQueue_unfold fuel i st :
  explicitQueue P fuel i st =
  if i =? length (unnamed (graph st)) then (st, Ret tt)
  else
    match fuel with
    | 0 => (st, OutOfFuel)
    | S fuel' =>
        match unnamed (graph st) !! i with
        | None => (st, Crash "index out of range")
        | Some o =>
            if Complete o then explicitQueue P fuel' (S i) st
            else
              match populateExplicit P (RUnnamed i) st with
              | (st1, Ret _) => explicitQueue P fuel' (S i) st1
              | (st1, Fail e) => (st1, Fail e)
              | (st1, Crash why) => (st1, Crash why)
              | (st1, OutOfFuel) => (st1, OutOfFuel)
              end
        end
    end.
Proof.
  destruct fuel; cbn [explicitQueue]; unfold bind, getGraph, need, ret, crash;
    destruct (i =? length (unnamed (graph st))); try reflexivity.
  destruct (unnamed (graph st) !! i) as [o|]; [|reflexivity].
  destruct (Complete o); reflexivity.
Qed.



End Fuel.

(** ** The capability pass on an ambiguous field *)

Section Ambiguity.

Context (P : Program).

Lemma updateLevel_outcome use dep st st' out :
  updateLevel use dep st = (st', out) -> out = Ret tt \/ exists why, out = Crash why.
Proof.
  unfold updateLevel, bind, getGraph, need, ret, crash, putGraph.
  destruct (getObject (graph st) use); [|intros [= <- <-]; eauto].
  destruct (getObject (graph st) dep); [|intros [= <- <-]; eauto].
  destruct (_ <=? _); [intros [= <- <-]; auto|].
  rewrite raiseMaxLevel_run. intros [= <- <-]. auto.
Qed.

(** What the scan leaves in the field. *)
Lemma scanAssignable_field r o a f i count : forall j found st st' out,
  scanAssignable P r o a f i count j found st = (st', out) ->
  match found with
  | Some fnd =>
      heap st' = heap st /\
      match out with
      | Ret res => res = Some fnd
      | Fail (AmbiguousCapabilityValue _ _ _ v1 _ _) => v1 = dynValue (Value fnd)
      | _ => True
      end
  | None =>
      match out with
      | Ret None => heap st' = heap st
      | Ret (Some e) => load (heap st') (fieldAddr a i) = Some (dynValue (Value e))
      | Fail (AmbiguousCapabilityValue _ _ _ v1 _ _) =>
          load (heap st') (fieldAddr a i) = Some v1
      | _ => True
      end
  end.
Proof.
  induction count as [|count IH]; intros j found st st' out; simpl.
  - intros [= <- <-]. destruct found; auto.
  - unfold bind at 1, getGraph. cbv beta iota. unfold bind at 1, need.
    destruct (unnamed (graph st) !! j) as [existing|] eqn:Hex;
      [|intros [= <- <-]; destruct found; auto].
    unfold ret at 1. cbv beta iota.
    destruct (private existing); [apply IH|].
    destruct (AssignableTo P (reflectType existing) (fieldType f)); [|apply IH].
    destruct found as [fnd|]; [intros [= <- <-]; auto|].
    unfold bind at 1. rewrite Set_cases.
    destruct (exported f); [|intros [= <- <-]; exact I].
    destruct (store (heap st) (fieldAddr a i) (dynValue (Value existing)))
      as [h'|] eqn:Hstore; [|intros [= <- <-]; exact I].
    unfold bind at 1.
    destruct (updateLevel r (RUnnamed j) {| graph := graph st; heap := h' |})
      as [st2 out2] eqn:H2.
    pose proof (updateLevel_heap _ _ _ _ _ H2) as Hh2. cbn [heap] in Hh2.
    destruct (updateLevel_outcome _ _ _ _ _ H2) as [->|[why ->]];
      [|intros [= <- <-]; exact I].
    intros H3. apply IH in H3 as [Hh Hout]. rewrite Hh, Hh2.
    pose proof (load_after_store _ _ _ _ Hstore) as Hload.
    destruct out as [[e|]|[]| |]; auto; congruence.
Qed.

(** X15.  An ambiguous field is left assigned.  When the capability pass
    returns the error of more than one assignable value for a field, the
    field has been set to the first of the values, the one the error
    reports first: the assignment made before the second candidate was
    met is not undone. *)
Theorem ambiguous_field_keeps_the_first_value
    r i st st' o a f field name owner t1 v1 t2 v2 :
  readField P r i st = (st, Ret (o, a, f, field)) ->
  interfaceField P r i st =
    (st', Fail (AmbiguousCapabilityValue name owner t1 v1 t2 v2)) ->
  load (heap st') (fieldAddr a i) = Some v1.
Proof.
  intros Hread H. rewrite (interfaceField_read _ _ _ _ _ _ _ _ Hread) in H.
  unfold interfaceBody in H.
  destruct (parseTag (fieldTag f)) as [[tag|] [e|]]; try discriminate.
  destruct (negb (bool_decide (kindOf (fieldType f) = Interface))); [discriminate|].
  destruct (bool_decide (tag = injectPrivate)); [discriminate|].
  destruct (negb (isNilOrZero P field (fieldType f))); [discriminate|].
  destruct (negb (String.eqb (Tag.Name tag) "")); [discriminate|].
  unfold bind at 1, getGraph in H. cbv beta iota in H.
  unfold bind in H.
  destruct (scanAssignable P r o a f i (length (unnamed (graph st))) 0 None st)
    as [st1 out1] eqn:H1.
  apply scanAssignable_field in H1.
  destruct out1 as [[e|]|e| |]; try discriminate.
  injection H as <- ->. exact H1.
Qed.

End Ambiguity.

(** ** Provided objects *)

Section ProvidedLevels.

Lemma levelsOK_provideOne o st st' out :
  level o <= maxLevel (graph st) ->
  (created o = true \/ embedded o = true -> 1 <= level o) ->
  levelsOK (graph st) -> provideOne o st = (st', out) -> levelsOK (graph st').
Proof.
  intros Hl Hc HJ. unfold provideOne, bind, getGraph, putGraph, fail.
  assert (Happ : forall g' : Graph,
            maxLevel g' = maxLevel (graph st) ->
            unnamed g' = unnamed (graph st) ++ [withReflect o] ->
            named g' = named (graph st) -> levelsOK g').
  { intros g' Hm Hu Hn r x Hx. rewrite Hm. destruct r as [j|name]; simpl in Hx.
    - rewrite Hu in Hx. apply lookup_app_Some in Hx as [Hx|[_ Hx]].
      + exact (HJ (RUnnamed j) x Hx).
      + apply list_lookup_singleton_Some in Hx as [_ <-]. simpl. auto.
    - rewrite Hn in Hx. exact (HJ (RNamed name) x Hx). }
  destruct (String.eqb (Name (withReflect o)) "").
  - destruct (negb (isStructPtr _)); [intros [= <- <-]; exact HJ|].
    destruct (negb (private _)).
    + destruct (default false _); intros [= <- <-]; [exact HJ|].
      apply Happ; reflexivity.
    + intros [= <- <-]. apply Happ; reflexivity.
  - destruct (named (graph st) !! _) eqn:Hfree; intros [= <- <-]; [exact HJ|].
    intros r x Hx. cbn [graph maxLevel]. destruct r as [j|name]; simpl in Hx.
    + exact (HJ (RUnnamed j) x Hx).
    + apply lookup_insert_Some in Hx as [[_ <-]|[_ Hx]]; [simpl; auto|].
      exact (HJ (RNamed name) x Hx).
Qed.

(** A graph of objects that the caller provided has consistent levels. *)
Lemma levelsOK_Provide objects st :
  Forall (fun o => level o = 0 /\ created o = false /\ embedded o = false) objects ->
  levelsOK (graph st) -> levelsOK (graph (fst (Provide objects st))).
Proof.
  intros Hall. revert st; induction Hall as [|o objects (Hl & Hc & He) _ IH];
    intros st HJ; [exact HJ|].
  cbn [Provide]. unfold bind.
  destruct (provideOne o st) as [st1 out1] eqn:H1.
  assert (HJ1 : levelsOK (graph st1)).
  { eapply levelsOK_provideOne; [| |exact HJ|exact H1]; [lia|].
    intros [H|H]; congruence. }
  destruct out1 as [[]| | |]; [apply IH|..]; exact HJ1.
Qed.

Lemma levelsOK_empty : levelsOK emptyGraph.
Proof.
  intros [j|name] o H; simpl in H.
  - rewrite lookup_nil in H. discriminate.
  - rewrite lookup_empty in H. discriminate.
Qed.

End ProvidedLevels.

(** ** Runs of the package's tests *)

Section MoreRuns.

Import Examples MoreExamples.

Lemma simpleRoot_levelsOK : levelsOK (graph simpleRoot).
Proof.
  apply levelsOK_Provide; [|apply levelsOK_empty]. repeat constructor.
Qed.


(** [TestInjectSimple]: the passes leave the levels consistent. *)
Lemma Populate_builds_the_levels_witness :
  levelsOK (graph (fst (populatePasses testProgram 8 noOrder simpleRoot))).
Proof.
  exact (proj1 (Populate_builds_the_levels testProgram 8 noOrder simpleRoot
                  simpleRoot_levelsOK)).
Defined.

(** [TestInjectSimple]: the root is in the first bucket, and it was
    provided. *)
Lemma first_level_holds_provided_objects_witness :
  exists o,
    getObject (graph (fst (Populate testProgram 8 noOrder simpleRoot))) (RUnnamed 0) =
      Some o /\
    level o = 0 /\ created o = false /\ embedded o = false.
Proof.
  refine (first_level_holds_provided_objects testProgram 8 noOrder simpleRoot
            (fst (Populate testProgram 8 noOrder simpleRoot)) (RUnnamed 0)
            simpleRoot_levelsOK _ _).
  - vm_compute. reflexivity.
  - exists [RUnnamed 0]. split; [vm_compute; reflexivity|]. apply list_elem_of_here.
Defined.

(** [TestCompleteProvides]: nothing is injected into a complete root. *)
Lemma complete_objects_are_skipped_witness :
  exists ls,
    length ls = maxLevel (graph completeRoot) + 1 /\
    Populate testProgram 8 noOrder completeRoot =
    ({| graph := withLevels (graph completeRoot) ls; heap := heap completeRoot |},
     Ret tt).
Proof.
  refine (complete_objects_are_skipped testProgram 8 noOrder completeRoot _ _ _).
  - intros [[|j]|name] o H.
    + injection H as <-. reflexivity.
    + destruct j; discriminate H.
    + change (named emptyGraph !! name = Some o) in H. simpl in H.
      rewrite lookup_empty in H. discriminate H.
  - apply levelsOK_Provide; [|apply levelsOK_empty]. repeat constructor.
  - vm_compute. lia.
Defined.

(** [TestDoesNotOverwrite]: the field [A] still points to the cell 1. *)
Lemma set_fields_are_kept_witness :
  load (heap (fst (Populate testProgram 8 noOrder halfSet))) (0, [0]) =
  Some (VPtr (1, [])).
Proof.
  exact (set_fields_are_kept testProgram 8 noOrder halfSet (0, [0]) (VPtr (1, []))
           eq_refl eq_refl).
Defined.

(** The field [A] of the root and the field [A] of the nested struct
    receive the same [TypeAnswerStruct]. *)
Lemma same_type_same_instance_witness :
  exists v,
    load (heap (fst (explicitField testProgram (RUnnamed 0) 0 simpleAndNested)))
      (fieldAddr (0, []) 0) = Some v /\
    snd (explicitField testProgram (RUnnamed 1) 0
           (fst (explicitField testProgram (RUnnamed 0) 0 simpleAndNested))) = Ret tt /\
    load (heap (fst (explicitField testProgram (RUnnamed 1) 0
                       (fst (explicitField testProgram (RUnnamed 0) 0 simpleAndNested)))))
      (fieldAddr (1, []) 0) = Some v.
Proof.
  refine (same_type_same_instance testProgram (ptrTo "TypeAnswerStruct")
            (RUnnamed 0) 0 (0, []) simpleAndNested
            (fst (explicitField testProgram (RUnnamed 0) 0 simpleAndNested))
            (RUnnamed 1) 0 (1, [])
            (fst (explicitField testProgram (RUnnamed 0) 0 simpleAndNested))
            _ _ (extends_refl _) _).
  - exists (withReflect (unnamedObject (ptrTo "TypeInjectSimple") 0)),
           (tagged "A" (ptrTo "TypeAnswerStruct") "inject:''"), VNil, injectOnly.
    repeat split; try reflexivity. discriminate.
  - vm_compute. reflexivity.
  - exists (withReflect (unnamedObject (ptrTo "TypeNestedStruct") 1)),
           (tagged "A" (ptrTo "TypeAnswerStruct") "inject:''"), VNil, injectOnly.
    repeat split; try reflexivity. discriminate.
Defined.

(** A [Loop] provided to a new graph: the queue is still running after
    five rounds. *)
Lemma private_field_of_its_own_type_never_ends_witness :
  snd (Populate selfPrivate 5 noOrder
         (fst (Provide
                 [newObject {| dynType := TPtr (TStruct (inTest "Loop"));
                               dynValue := VPtr (0, []) |} "" false]
                 {| graph := emptyGraph; heap := [VStruct [VNil]] |}))) = OutOfFuel.
Proof.
  exact (private_field_of_its_own_type_never_ends selfPrivate (inTest "Loop")
           (tagged "Next" (ptrTo "Loop") "inject:'private'") [VStruct [VNil]] 0 5 noOrder
           eq_refl eq_refl eq_refl eq_refl eq_refl).
Defined.

(** The key [inject] with its colon and no value, as in
    [TestTagWithJustColon]. *)
Lemma parseTag_refuses_an_unfinished_pair_witness :
  parseTag "inject:" = (None, Some errInvalidTag).
Proof.
  exact (proj1 (proj2 (parseTag_refuses_an_unfinished_pair "inject" ""
                         eq_refl eq_refl eq_refl eq_refl eq_refl))).
Defined.


(** [TestInjectTwoSatisfyInterface]: the field [Answerable] is left
    pointing to the [TypeAnswerStruct], the first of the two values. *)
Lemma ambiguous_field_keeps_the_first_value_witness :
  load (heap (fst (interfaceField testProgram (RUnnamed 0) 0 twoAnswerable)))
    (fieldAddr (0, []) 0) = Some (VPtr (1, [])).
Proof.
  refine (ambiguous_field_keeps_the_first_value testProgram (RUnnamed 0) 0
            twoAnswerable
            (fst (interfaceField testProgram (RUnnamed 0) 0 twoAnswerable))
            (withReflect (unnamedObject (ptrTo "TypeInjectTwoSatisfyInterface") 0))
            (0, []) (tagged "Answerable" (TIface Answerable) "inject:''") VNil
            "Answerable" (ptrTo "TypeInjectTwoSatisfyInterface")
            (ptrTo "TypeAnswerStruct") (VPtr (1, []))
            (ptrTo "TypeNestedStruct") (VPtr (2, [])) _ _).
  - vm_compute. reflexivity.
  - vm_compute. reflexivity.
Defined.

End MoreRuns.

(** ** The explicit pass fills every target *)

Section Filling.

Context (P : Program).

Lemma getPath_app v p q :
  getPath v (p ++ q) =
  match getPath v p with
  | Some w => getPath w q
  | None => None
  end.
Proof.
  revert v; induction p as [|i p IH]; intros v; simpl; [reflexivity|].
  destruct v as [| | | |fs]; try reflexivity.
  destruct (fs !! i); [apply IH|reflexivity].
Qed.

Lemma load_fieldAddr h a k :
  load h (fieldAddr a k) =
  match load h a with
  | Some v => getPath v [k]
  | None => None
  end.
Proof.
  unfold load, fieldAddr. cbn [fst snd].
  destruct (h !! a.1); [apply getPath_app|reflexivity].
Qed.

(** The fields of a zero struct that are not structs themselves. *)
Lemma Zero_field ds id fs k f :
  lookupStruct ds id = Some fs -> fs !! k = Some f ->
  kindOf (fieldType f) = Ptr \/ kindOf (fieldType f) = Interface ->
  getPath (Zero ds (TStruct id)) [k] = Some VNil.
Proof.
  intros Hl Hk Hkind. induction ds as [|[id' fs'] ds IH]; [discriminate|].
  simpl in Hl |- *. destruct (decide (id = id')).
  - injection Hl as ->. rewrite list_lookup_fmap, Hk. simpl.
    destruct (fieldType f); destruct Hkind as [Hkind|Hkind]; try discriminate;
      destruct ds; reflexivity.
  - apply IH, Hl.
Qed.

Lemma isCapability_inv f :
  isCapability f = true ->
  exists tag,
    parseTag (fieldTag f) = (Some tag, None) /\ Tag.Name tag = "" /\
    tag <> injectPrivate /\ kindOf (fieldType f) = Interface.
Proof.
  unfold isCapability.
  destruct (parseTag (fieldTag f)) as [[tag|] [e|]]; try discriminate.
  intros H. apply andb_true_iff in H as [H Hk]. apply andb_true_iff in H as [Hn Hp].
  apply String.eqb_eq in Hn. apply negb_true_iff, bool_decide_eq_false in Hp.
  apply bool_decide_eq_true in Hk. eauto 10.
Qed.

Lemma isTarget_inv f :
  isTarget f = true ->
  exists tag elem,
    parseTag (fieldTag f) = (Some tag, None) /\ Tag.Name tag = "" /\
    fieldType f = TPtr elem /\ kindOf elem = Struct.
Proof.
  unfold isTarget. destruct (parseTag (fieldTag f)) as [[tag|] [e|]]; try discriminate.
  intros H. apply andb_true_iff in H as [Hn Hp]. apply String.eqb_eq in Hn.
  destruct (fieldType f) as [| | |elem|]; try discriminate.
  simpl in Hp. apply bool_decide_eq_true in Hp. eauto 10.
Qed.

(** A write of a leaf that is set into a blank field keeps the heap
    tidy. *)
Lemma setPath_tidy v q old new v' p :
  getPath v q = Some old -> isSet new = true ->
  setPath v q new = Some v' ->
  (forall w, getPath v p = Some w -> w = VNil \/ isSet w = true) ->
  forall w, getPath v' p = Some w -> w = VNil \/ isSet w = true.
Proof.
  revert v v' p; induction q as [|i q IH]; intros v v' p Hold Hnew Hset Ht w Hw.
  - simpl in Hset. injection Hset as <-.
    destruct p as [|k p]; simpl in Hw; [injection Hw as <-; auto|].
    destruct new; discriminate.
  - simpl in Hold, Hset. destruct v as [| | | |fs]; try discriminate.
    destruct (fs !! i) as [x|] eqn:Hx; [|discriminate].
    destruct (setPath x q new) as [x'|] eqn:Hx'; [|discriminate].
    injection Hset as <-.
    destruct p as [|k p].
    + destruct (Ht _ eq_refl) as [H|H]; discriminate.
    + simpl in Hw, Ht. destruct (decide (k = i)) as [->|Hne].
      * rewrite list_lookup_insert_eq in Hw by (eapply lookup_lt_Some, Hx).
        rewrite Hx in Ht. eapply IH; eassumption.
      * rewrite list_lookup_insert_ne in Hw by congruence. apply Ht, Hw.
Qed.

Lemma store_tidy h b old new h' a :
  load h b = Some old -> isSet new = true ->
  store h b new = Some h' -> tidy h a -> tidy h' a.
Proof.
  unfold tidy, load, store. intros Hold Hnew Hstore Ht w Hw.
  destruct (h !! b.1) as [c|] eqn:Hc; [|discriminate].
  destruct (setPath c b.2 new) as [c'|] eqn:Hc'; [|discriminate].
  injection Hstore as <-.
  destruct (decide (a.1 = b.1)) as [E|Hne].
  - rewrite E in *. rewrite Hc in Ht.
    rewrite list_lookup_insert_eq in Hw by (eapply lookup_lt_Some, Hc).
    cbv beta iota in Hw, Ht.
    exact (setPath_tidy _ _ _ _ _ _ Hold Hnew Hc' Ht w Hw).
  - rewrite list_lookup_insert_ne in Hw by congruence. apply Ht, Hw.
Qed.

Lemma tidy_app h z a : a.1 < length h -> tidy h a -> tidy (h ++ [z]) a.
Proof.
  unfold tidy, load. intros Hlt Ht w Hw.
  rewrite lookup_app_l in Hw by exact Hlt. apply Ht, Hw.
Qed.

Lemma filled_keeps h h' a : keeps h h' -> filled h a -> filled h' a.
Proof. intros Hk (v & Hv & Hs). exists v. split; [apply Hk; assumption|exact Hs]. Qed.

Lemma bind_cases {A B} (m : M A) (k : A -> M B) st st' out :
  bind m k st = (st', out) ->
  (exists st1 a, m st = (st1, Ret a) /\ k a st1 = (st', out)) \/
  ((forall b, out <> Ret b) /\
   exists out', m st = (st', out') /\ forall a, out' <> Ret a).
Proof.
  unfold bind. destruct (m st) as [st1 [a| | |]]; [eauto| | |];
    intros [= <- <-]; right; (split; [discriminate|]); eexists;
    (split; [reflexivity|discriminate]).
Qed.

(** The state changed in the levels of its objects, and in its heap in a
    way that keeps the allocated fields tidy. *)
Lemma ready_transfer st st' :
  named (graph st') = named (graph st) ->
  length (heap st) <= length (heap st') ->
  (forall j x', unnamed (graph st') !! j = Some x' ->
     exists x m, unnamed (graph st) !! j = Some x /\ x' = withLevel x m) ->
  (forall a, a.1 < length (heap st) -> tidy (heap st) a -> tidy (heap st') a) ->
  ready P st -> ready P st'.
Proof.
  intros Hn Hlen Hu Ht (HA & HB & HC). split; [congruence|]. split.
  - intros j x' Hx'. destruct (Hu _ _ Hx') as (x & m & Hx & ->).
    destruct (HB _ _ Hx) as (a & Hv & Hr & Ha). exists a. simpl.
    repeat split; [exact Hv|exact Hr|lia].
  - intros j a k (x' & fs & f & Hx' & _ & Hr & Hfs & Hk & Hf).
    destruct (Hu _ _ Hx') as (x & m & Hx & ->). simpl in Hr, Hfs.
    destruct (HB _ _ Hx) as (a' & _ & Hr' & Ha). rewrite Hr in Hr'.
    injection Hr' as <-.
    apply Ht; [exact Ha|]. apply (HC j). exists x, fs, f.
    repeat split; try assumption; try discriminate; exact Hf.
Qed.

Lemma ready_same_objects st st' :
  unnamed (graph st') = unnamed (graph st) -> named (graph st') = named (graph st) ->
  heap st' = heap st -> ready P st -> ready P st'.
Proof.
  intros Hu Hn Hh. apply ready_transfer; [exact Hn|rewrite Hh; lia| |].
  - intros j x' Hx'. rewrite Hu in Hx'. exists x', (level x').
    split; [exact Hx'|]. symmetry. apply withLevel_same.
  - intros a _. rewrite Hh. auto.
Qed.

Lemma ready_updateLevel use dep : preserves (ready P) (updateLevel use dep).
Proof.
  intros st st' out HR H.
  apply updateLevel_cases in H as [->|(u & d & Hu & Hd & _ & ->)]; [exact HR|].
  destruct dep as [k|name].
  - revert HR. apply ready_transfer; cbn [graph heap]; [reflexivity|lia| |auto].
    intros j x'. apply (setObject_unnamed (graph st) (RUnnamed k) d (level u + 1) j x' Hd).
  - destruct HR as (HA & _). simpl in Hd. rewrite HA, lookup_empty in Hd. discriminate.
Qed.

Lemma ready_store st b old new h' :
  ready P st -> load (heap st) b = Some old -> isSet new = true ->
  store (heap st) b new = Some h' ->
  ready P {| graph := graph st; heap := h' |}.
Proof.
  intros HR Hold Hnew Hstore. revert HR.
  apply ready_transfer; cbn [graph heap]; [reflexivity| | |].
  - rewrite (store_length _ _ _ _ Hstore). lia.
  - intros j x' Hx'. exists x', (level x'). split; [exact Hx'|].
    symmetry. apply withLevel_same.
  - intros a _. eapply store_tidy; eassumption.
Qed.

Lemma ready_alloc st z :
  ready P st -> ready P {| graph := graph st; heap := heap st ++ [z] |}.
Proof.
  apply ready_transfer; cbn [graph heap]; [reflexivity| | |].
  - rewrite length_app. lia.
  - intros j x' Hx'. exists x', (level x'). split; [exact Hx'|].
    symmetry. apply withLevel_same.
  - intros a Ha. apply tidy_app, Ha.
Qed.

Lemma ready_append st g' x a :
  ready P st ->
  unnamed g' = unnamed (graph st) ++ [x] -> named g' = named (graph st) ->
  dynValue (Value x) = VPtr a -> reflectValue x = VPtr a -> a.1 < length (heap st) ->
  (forall fs k f, fieldsOf P (reflectType x) = Some fs -> fs !! k = Some f ->
                  (isTarget f || isCapability f) = true ->
                  tidy (heap st) (fieldAddr a k)) ->
  ready P {| graph := g'; heap := heap st |}.
Proof.
  intros (HA & HB & HC) Hu Hn Hv Hr Ha Ht. split; [cbn [graph]; congruence|]. split.
  - intros j o Ho. cbn [graph heap] in *. rewrite Hu in Ho.
    apply lookup_app_Some in Ho as [Ho|[_ Ho]]; [exact (HB _ _ Ho)|].
    apply list_lookup_singleton_Some in Ho as [_ <-]. eauto.
  - intros j a' k (o & fs & f & Ho & _ & Hr' & Hfs & Hk & Hf). cbn [graph heap] in *.
    rewrite Hu in Ho. apply lookup_app_Some in Ho as [Ho|[_ Ho]].
    + apply (HC j). exists o, fs, f.
      repeat split; try assumption; try discriminate; exact Hf.
    + apply list_lookup_singleton_Some in Ho as [_ <-].
      rewrite Hr in Hr'. injection Hr' as <-. eapply Ht; eassumption.
Qed.

Lemma ready_Set a v old st st' out :
  ready P st -> load (heap st) a = Some old -> isSet v = true ->
  Set_ true a v st = (st', out) ->
  ready P st' /\ graph st' = graph st /\
  (out = Ret tt -> load (heap st') a = Some v).
Proof.
  intros HR Hold Hv. rewrite Set_cases.
  destruct (store (heap st) a v) as [h'|] eqn:Hstore; intros [= <- <-].
  - split; [eapply ready_store; eassumption|]. split; [reflexivity|].
    intros _. eapply load_after_store, Hstore.
  - split; [exact HR|]. split; [reflexivity|discriminate].
Qed.

(** Wiring a field to an object of the graph. *)
Lemma ready_wire a v old use dep st st' out :
  ready P st -> load (heap st) a = Some old -> isSet v = true ->
  (Set_ true a v ;; updateLevel use dep) st = (st', out) ->
  ready P st' /\ (out = Ret tt -> load (heap st') a = Some v).
Proof.
  intros HR Hold Hv H.
  apply bind_cases in H as [(st1 & [] & H1 & H2)|(Hout & out' & H1 & _)].
  - destruct (ready_Set _ _ _ _ _ _ HR Hold Hv H1) as (HR1 & _ & Hload).
    split; [eapply ready_updateLevel; eassumption|].
    intros _. rewrite (updateLevel_heap _ _ _ _ _ H2). auto.
  - destruct (ready_Set _ _ _ _ _ _ HR Hold Hv H1) as (HR1 & _ & _).
    split; [exact HR1|]. intros ->. exfalso. exact (Hout tt eq_refl).
Qed.

End Filling.

Section FillingSteps.

Context (P : Program).

Lemma awaited_kind f :
  (isTarget f || isCapability f) = true ->
  kindOf (fieldType f) = Ptr \/ kindOf (fieldType f) = Interface.
Proof.
  intros H. apply orb_true_iff in H as [H|H].
  - destruct (isTarget_inv _ H) as (t & elem & _ & _ & -> & _). auto.
  - destruct (isCapability_inv _ H) as (t & _ & _ & _ & Hk). auto.
Qed.

Lemma isTarget_kind f : isTarget f = true -> kindOf (fieldType f) = Ptr.
Proof.
  intros Ht. destruct (isTarget_inv _ Ht) as (t & elem & _ & _ & -> & _). reflexivity.
Qed.

Lemma isNilOrZero_struct field id :
  isNilOrZero P field (TStruct id) = true -> field = Zero (structs P) (TStruct id).
Proof. unfold isNilOrZero, DeepEqual. simpl. apply value_eqb_eq. Qed.

(** [Provide] on an object that the pass made, whose targets are tidy. *)
Lemma ready_provideOne x a st st' out :
  provideOne x st = (st', out) ->
  ready P st -> Name x = "" ->
  dynValue (Value x) = VPtr a -> a.1 < length (heap st) ->
  (forall fs k f, fieldsOf P (dynType (Value x)) = Some fs -> fs !! k = Some f ->
                  (isTarget f || isCapability f) = true ->
                  tidy (heap st) (fieldAddr a k)) ->
  ready P st' /\ heap st' = heap st.
Proof.
  intros H HR Hn Hv Ha Ht.
  apply provideOne_appends in H as [->|(_ & Hh & Hu & Hnm & _)]; [auto| |exact Hn].
  split; [|exact Hh]. destruct st' as [g' h']. cbn [graph heap] in *. subst h'.
  apply (ready_append P st g' (withReflect x) a); try assumption.
Qed.

Lemma explicitBody_step r i o a f field st st' out :
  ready P st ->
  readField P r i st = (st, Ret (o, a, f, field)) ->
  explicitBody P r i o a f field st = (st', out) ->
  ready P st' /\
  (out = Ret tt -> isTarget f = true -> filled (heap st') (fieldAddr a i)).
Proof.
  intros HR Hread.
  destruct (readField_inv _ _ _ _ _ _ _ _ _ Hread)
    as (_ & Ho & Ha & (fields & Hfs & Hf) & Hload).
  pose proof HR as (HA & HB & HC).
  destruct r as [j|name]; [|simpl in Ho; rewrite HA, lookup_empty in Ho; discriminate].
  simpl in Ho.
  destruct (HB _ _ Ho) as (a' & Hval & Hrv & Halloc).
  rewrite Ha in Hrv. injection Hrv as <-.
  assert (Htidy : isTarget f = true -> tidy (heap st) (fieldAddr a i)).
  { intros Ht. apply (HC j). exists o, fields, f.
    repeat split; try assumption; try discriminate.
    cbv beta. rewrite Ht. reflexivity. }
  pose proof (isTarget_kind f) as Hkind.
  unfold explicitBody.
  destruct (parseTag (fieldTag f)) as [[tag|] [e|]] eqn:Hparse;
    try (intros [= <- <-]; split; [exact HR|]; intros _ Ht;
         unfold isTarget in Ht; rewrite Hparse in Ht; discriminate).
  destruct (exported f) eqn:Hexp; cbn [negb];
    [|intros [= <- <-]; split; [exact HR|discriminate]].
  destruct (isNilOrZero P field (fieldType f)) eqn:Hzero; cbn [negb].
  2: { intros [= <- <-]. split; [exact HR|]. intros _ Ht.
       exists field. split; [exact Hload|].
       destruct (Htidy Ht _ Hload) as [->|Hs]; [|exact Hs].
       destruct (isTarget_inv _ Ht) as (t & elem & _ & _ & Hty & _).
       rewrite Hty in Hzero. discriminate Hzero. }
  destruct (String.eqb (Tag.Name tag) "") eqn:Hname; cbn [negb].
  2: { unfold bind at 1, getGraph. cbv beta iota. rewrite HA, lookup_empty.
       intros [= <- <-]. split; [exact HR|discriminate]. }
  destruct (bool_decide (kindOf (fieldType f) = Struct)) eqn:Hstruct.
  { apply bool_decide_eq_true in Hstruct.
    destruct (bool_decide (tag = injectPrivate));
      [intros [= <- <-]; split; [exact HR|discriminate]|].
    intros H. unfold bind in H. rewrite raiseMaxLevel_run in H. cbn [graph heap] in H.
    split; [|intros _ Ht; rewrite (Hkind Ht) in Hstruct; discriminate].
    destruct (fieldType f) as [|id| | |] eqn:Hty; try discriminate.
    refine (proj1 (ready_provideOne _ (fieldAddr a i) _ _ _ H _ eq_refl eq_refl _ _)).
    - revert HR. apply ready_same_objects; reflexivity.
    - exact Halloc.
    - cbn [Value dynType heap]. intros fs k f' Hfs' Hk' Ht' v Hv.
      rewrite load_fieldAddr, Hload in Hv.
      rewrite (isNilOrZero_struct _ _ Hzero) in Hv.
      rewrite (Zero_field _ _ _ _ _ Hfs' Hk' (awaited_kind _ Ht')) in Hv.
      injection Hv as <-. auto. }
  destruct (bool_decide (kindOf (fieldType f) = Interface)) eqn:Hiface.
  { apply bool_decide_eq_true in Hiface. intros [= <- <-]. split; [exact HR|].
    intros _ Ht. rewrite (Hkind Ht) in Hiface. discriminate. }
  destruct (bool_decide (kindOf (fieldType f) = Map)) eqn:Hmap.
  { apply bool_decide_eq_true in Hmap.
    destruct (negb (bool_decide (tag = injectPrivate)));
      [intros [= <- <-]; split; [exact HR|discriminate]|].
    intros H. destruct (ready_Set P _ (VMap 0) _ _ _ _ HR Hload eq_refl H) as (HR' & _ & _).
    split; [exact HR'|]. intros _ Ht. rewrite (Hkind Ht) in Hmap. discriminate. }
  destruct (isStructPtr (fieldType f)) eqn:Hptr; cbn [negb];
    [|intros [= <- <-]; split; [exact HR|discriminate]].
  unfold bind at 1, getGraph. cbv beta iota.
  destruct (if negb (bool_decide (tag = injectPrivate))
            then findExisting P (unnamed (graph st)) (fieldType f) 0
            else None) as [[j' e]|] eqn:Hfind.
  - destruct (negb (bool_decide (tag = injectPrivate))); [|discriminate].
    destruct (findExisting_Some _ _ _ _ _ _ Hfind) as (l1 & l2 & Hobjs & Hj' & _).
    assert (He : unnamed (graph st) !! j' = Some e).
    { rewrite Hobjs, Hj'. apply list_lookup_middle. reflexivity. }
    destruct (HB _ _ He) as (ae & Hve & _ & _).
    intros H.
    assert (Hset : isSet (dynValue (Value e)) = true) by (rewrite Hve; reflexivity).
    destruct (ready_wire P _ _ _ _ _ _ _ _ HR Hload Hset H) as [HR' Hl].
    split; [exact HR'|]. intros Hout _. exists (dynValue (Value e)).
    split; [exact (Hl Hout)|]. rewrite Hve. reflexivity.
  - clear Hfind. unfold New. unfold bind at 1 2, getHeap. cbv beta iota.
    unfold bind at 1, putHeap, ret. cbv beta iota. cbn [graph heap].
    set (z := Zero (structs P)
                match fieldType f with TPtr elem => elem | _ => fieldType f end).
    intros H. unfold bind at 1 in H. rewrite raiseMaxLevel_run in H.
    cbn [graph heap] in H.
    set (S1 := {| graph := withMaxLevel (graph st)
                             (Nat.max (maxLevel (graph st)) (level o + 1));
                  heap := heap st ++ [z] |}) in *.
    assert (HR1 : ready P S1).
    { apply (ready_same_objects P {| graph := graph st; heap := heap st ++ [z] |});
        try reflexivity. apply ready_alloc, HR. }
    assert (Hstep : forall st2 out2,
              provideOne
                {| Value := {| dynType := fieldType f;
                               dynValue := VPtr (length (heap st), []) |};
                   Name := ""; Complete := false;
                   reflectType := TBasic ""; reflectValue := VNil;
                   private := bool_decide (tag = injectPrivate);
                   level := level o + 1; created := true; embedded := false |} S1 =
              (st2, out2) ->
              ready P st2 /\ heap st2 = heap st ++ [z]).
    { intros st2 out2 H2.
      refine (ready_provideOne _ (length (heap st), []) _ _ _ H2 HR1 eq_refl eq_refl _ _).
      - cbn [S1 heap fst]. rewrite length_app. simpl. lia.
      - cbn [Value dynType S1 heap]. intros fs k f' Hfs' Hk' Ht' v Hv.
        destruct (fieldType f) as [| | |elem|] eqn:Hty; try discriminate.
        destruct elem as [|id| | |]; try discriminate.
        unfold load, fieldAddr in Hv. cbn [fst snd app] in Hv.
        rewrite list_lookup_middle in Hv by reflexivity.
        unfold z in Hv.
        rewrite (Zero_field _ _ _ _ _ Hfs' Hk' (awaited_kind _ Ht')) in Hv.
        injection Hv as <-. auto. }
    apply bind_cases in H as [(st2 & [] & H2 & H3)|(Hout & out' & H2 & _)].
    + destruct (Hstep _ _ H2) as [HR2 Hh2].
      assert (Hload2 : load (heap st2) (fieldAddr a i) = Some field)
        by (rewrite Hh2; apply load_app, Hload).
      destruct (ready_Set P _ (VPtr (length (heap st), [])) _ _ _ _ HR2 Hload2 eq_refl H3)
        as (HR3 & _ & Hl).
      split; [exact HR3|]. intros Hout _. eexists. split; [exact (Hl Hout)|reflexivity].
    + destruct (Hstep _ _ H2) as [HR2 _]. split; [exact HR2|].
      intros ->. exfalso. exact (Hout tt eq_refl).
Qed.

End FillingSteps.

Section FillingLoops.

Context (P : Program).

(** What a computation that keeps every invariant of the heap does to the
    fields that are set. *)
Lemma keeps_of {A} (m : M A) :
  (forall K : list value -> Prop,
     (forall h b old new h',
        K h -> load h b = Some old -> blank old = true ->
        store h b new = Some h' -> K h') ->
     (forall h z, K h -> K (h ++ [z])) ->
     preserves (fun st => K (heap st)) m) ->
  forall st st' out, m st = (st', out) -> keeps (heap st) (heap st').
Proof.
  intros Hm st st' out H.
  refine (Hm (keeps (heap st)) _ _ st st' out (keeps_refl _) H).
  - intros h b old new h' HK Hload Hblank Hstore.
    eapply keeps_trans; [exact HK|]. eapply store_keeps; eassumption.
  - intros h z HK. eapply keeps_trans; [exact HK|apply keeps_app].
Qed.

Lemma extends_unnamed g g' j o :
  extends g g' -> unnamed g !! j = Some o ->
  exists m, unnamed g' !! j = Some (withLevel o m).
Proof.
  intros [_ H] Ho. destruct (H (RUnnamed j) o Ho) as (m & _ & Hm). eauto.
Qed.

Lemma extends_length g g' :
  extends g g' -> length (unnamed g) <= length (unnamed g').
Proof.
  intros Hext. destruct (unnamed g) as [|x l] eqn:E; [simpl; lia|].
  destruct (lookup_lt_is_Some_2 (unnamed g) (length l)) as [o Ho];
    [rewrite E; simpl; lia|].
  destruct (extends_unnamed _ _ _ _ Hext Ho) as (m & Hm).
  apply lookup_lt_Some in Hm. simpl. lia.
Qed.

Lemma explicitField_step j i st st' out :
  ready P st ->
  explicitField P (RUnnamed j) i st = (st', out) ->
  ready P st' /\
  (out = Ret tt ->
   forall o a fs f,
     unnamed (graph st) !! j = Some o -> reflectValue o = VPtr a ->
     fieldsOf P (reflectType o) = Some fs -> fs !! i = Some f ->
     isTarget f = true -> filled (heap st') (fieldAddr a i)).
Proof.
  intros HR H. unfold explicitField in H.
  apply bind_cases in H as [(st1 & [[[o a] f] field] & H1 & H2)|(Hout & out' & H1 & _)].
  - destruct (readField_inv _ _ _ _ _ _ _ _ _ H1)
      as (-> & Ho & Ha & (fields & Hfs & Hf) & _).
    destruct (explicitBody_step P _ _ _ _ _ _ _ _ _ HR H1 H2) as [HR' Hfill].
    split; [exact HR'|]. intros Hout o' a' fs' f' Ho' Ha' Hfs' Hf' Ht.
    simpl in Ho. rewrite Ho in Ho'. injection Ho' as <-.
    rewrite Ha in Ha'. injection Ha' as <-.
    rewrite Hfs in Hfs'. injection Hfs' as <-.
    rewrite Hf in Hf'. injection Hf' as <-. auto.
  - apply readField_state in H1 as ->. split; [exact HR|].
    intros ->. exfalso. exact (Hout tt eq_refl).
Qed.

Lemma ready_explicitField r i : preserves (ready P) (explicitField P r i).
Proof.
  intros st st' out HR H. destruct r as [j|name].
  - exact (proj1 (explicitField_step _ _ _ _ _ HR H)).
  - unfold explicitField, bind, readField, bind, getGraph, need, crash in H.
    destruct HR as (HA & HB & HC). cbn [getObject] in H.
    rewrite HA, lookup_empty in H. injection H as <- _. repeat split; assumption.
Qed.

Lemma ready_populateExplicit r : preserves (ready P) (populateExplicit P r).
Proof.
  unfold populateExplicit. apply preserves_bind.
  - intros st st' out HR H. apply numField_state in H as ->. exact HR.
  - intros [n|]; [|apply preserves_ret].
    apply preserves_forRange. intros i. apply ready_explicitField.
Qed.

(** The struct loop of [populateExplicit]: the fields before [start] are
    filled, the loop fills the next [n]. *)
Lemma fields_fill j a fs n : forall start st st',
  ready P st ->
  (exists o, unnamed (graph st) !! j = Some o /\ reflectValue o = VPtr a /\
             fieldsOf P (reflectType o) = Some fs) ->
  (forall k f, k < start -> fs !! k = Some f -> isTarget f = true ->
               filled (heap st) (fieldAddr a k)) ->
  forRange (explicitField P (RUnnamed j)) n start st = (st', Ret tt) ->
  forall k f, k < start + n -> fs !! k = Some f -> isTarget f = true ->
              filled (heap st') (fieldAddr a k).
Proof.
  induction n as [|n IH]; intros start st st' HR Hobj Hdone H.
  - injection H as <-. intros k f Hk. apply Hdone. lia.
  - cbn [forRange] in H. apply bind_Ret in H as (st1 & [] & H1 & H2).
    destruct (explicitField_step _ _ _ _ _ HR H1) as [HR1 Hfill].
    pose proof (keeps_of _ (fun K Hs Ha => hi_explicitField P K Hs Ha (RUnnamed j) start)
                  _ _ _ H1) as Hkeeps.
    pose proof (grows_explicitField P _ _ _ _ _ H1) as Hext.
    destruct Hobj as (o & Ho & Ha & Hfs).
    destruct (extends_unnamed _ _ _ _ Hext Ho) as (m & Ho1).
    intros k f Hk. replace (start + S n) with (S start + n) in Hk by lia.
    revert k f Hk. apply (IH (S start) st1 st' HR1); [| |exact H2].
    + exists (withLevel o m). auto.
    + intros k f Hk Hf Ht. destruct (decide (k = start)) as [->|Hne].
      * exact (Hfill eq_refl o a fs f Ho Ha Hfs Hf Ht).
      * eapply filled_keeps; [exact Hkeeps|]. apply (Hdone k f); [lia|assumption..].
Qed.

Lemma numField_unnamed j st o a fs :
  unnamed (graph st) !! j = Some o -> reflectValue o = VPtr a ->
  fieldsOf P (reflectType o) = Some fs ->
  numField P (RUnnamed j) st = (st, Ret (Some (length fs))).
Proof.
  intros Ho Ha Hfs. unfold numField, bind, getGraph, need, ret. cbn [getObject].
  rewrite Ho, Ha, Hfs.
  destruct (reflectType o) as [| | |[|id| | |]|]; try discriminate.
  simpl. rewrite andb_false_r. reflexivity.
Qed.

Lemma populateExplicit_fills j st st' o a fs k f :
  ready P st ->
  populateExplicit P (RUnnamed j) st = (st', Ret tt) ->
  unnamed (graph st) !! j = Some o -> reflectValue o = VPtr a ->
  fieldsOf P (reflectType o) = Some fs -> fs !! k = Some f ->
  isTarget f = true ->
  filled (heap st') (fieldAddr a k).
Proof.
  intros HR H Ho Ha Hfs Hf Ht. unfold populateExplicit, bind in H.
  rewrite (numField_unnamed _ _ _ _ _ Ho Ha Hfs) in H.
  refine (fields_fill j a fs (length fs) 0 st st' HR _ _ H k f _ Hf Ht).
  - eauto.
  - intros k' f' Hk'. lia.
  - simpl. eapply lookup_lt_Some, Hf.
Qed.

(** The work queue: the objects before [i] have their targets filled, and
    so have all objects when the loop returns. *)
Lemma queue_fills fuel : forall i st st',
  ready P st ->
  (forall j a k, j < i -> targetOf P (graph st) true j a k ->
                 filled (heap st) (fieldAddr a k)) ->
  explicitQueue P fuel i st = (st', Ret tt) ->
  ready P st' /\
  forall j a k, targetOf P (graph st') true j a k -> filled (heap st') (fieldAddr a k).
Proof.
  induction fuel as [|fuel IH]; intros i st st' HR Hdone H;
    rewrite explicitQueue_unfold in H;
    (destruct (Nat.eqb_spec i (length (unnamed (graph st)))) as [Hi|Hi];
     [injection H as <-; split; [exact HR|];
      intros j a k Ht; apply (Hdone j); [|exact Ht];
      destruct Ht as (o & _ & _ & Ho & _); apply lookup_lt_Some in Ho; lia|]);
    [discriminate|].
  destruct (unnamed (graph st) !! i) as [o|] eqn:Ho; [|discriminate].
  destruct (Complete o) eqn:Hc.
  - apply (IH (S i) st st' HR); [|exact H].
    intros j a k Hj Ht. destruct (decide (j = i)) as [->|Hne].
    + destruct Ht as (o' & fs & f & Ho' & Hinc & _).
      rewrite Ho in Ho'. injection Ho' as <-. rewrite (Hinc eq_refl) in Hc. discriminate.
    + apply (Hdone j); [lia|exact Ht].
  - destruct (populateExplicit P (RUnnamed i) st) as [st1 [[]| | |]] eqn:H1;
      try discriminate.
    pose proof (ready_populateExplicit _ _ _ _ HR H1) as HR1.
    pose proof (keeps_of _ (fun K Hs Ha => hi_populateExplicit P K Hs Ha (RUnnamed i))
                  _ _ _ H1) as Hkeeps.
    pose proof (grows_populateExplicit P _ _ _ _ H1) as Hext.
    apply (IH (S i) st1 st' HR1); [|exact H].
    intros j a k Hj (o1 & fs & f & Ho1 & Hinc & Ha & Hfs & Hf & Ht).
    assert (Hlt : j < length (unnamed (graph st))).
    { apply lookup_lt_Some in Ho. lia. }
    destruct (lookup_lt_is_Some_2 _ _ Hlt) as [o0 Ho0].
    destruct (extends_unnamed _ _ _ _ Hext Ho0) as (m & Hm).
    rewrite Hm in Ho1. injection Ho1 as <-. simpl in Hinc, Ha, Hfs.
    destruct (decide (j = i)) as [->|Hne].
    + exact (populateExplicit_fills _ _ _ _ _ _ _ _ HR H1 Ho0 Ha Hfs Hf Ht).
    + eapply filled_keeps; [exact Hkeeps|]. apply (Hdone j); [lia|].
      exists o0, fs, f. repeat split; assumption.
Qed.

End FillingLoops.

Section FillingClaim.

Context (P : Program).

Lemma rangeNamed_empty body order st :
  named (graph st) = ∅ -> rangeNamed body order st = (st, Ret tt).
Proof.
  intros Hn. induction order as [|name order IH]; [reflexivity|].
  cbn [rangeNamed]. unfold bind at 1, getGraph. cbv beta iota.
  rewrite Hn, lookup_empty. exact IH.
Qed.

(** The graph [g] holds the unnamed objects of [g1], but for their
    levels, and no named object. *)
Lemma sameUnnamed_updateLevel g1 use dep :
  preserves
    (fun st =>
       named (graph st) = ∅ /\
       forall j x', unnamed (graph st) !! j = Some x' ->
         exists x m, unnamed g1 !! j = Some x /\ x' = withLevel x m)
    (updateLevel use dep).
Proof.
  intros st st' out [Hn Hu] H.
  apply updateLevel_cases in H as [->|(u & d & _ & Hd & _ & ->)]; [auto|].
  destruct dep as [k|name];
    [|simpl in Hd; rewrite Hn, lookup_empty in Hd; discriminate].
  split; [exact Hn|]. cbn [graph]. intros j x' Hx'.
  destruct (setObject_unnamed (graph st) (RUnnamed k) d (level u + 1) j x' Hd Hx')
    as (x & m & Hx & ->).
  destruct (Hu _ _ Hx) as (x1 & m1 & Hx1 & ->). exists x1, m. auto.
Qed.

(** X16.  [Populate] fills every target.  In a state of a Go program
    that holds unnamed objects only (the value of each is a pointer to an
    allocated struct, and each field that is a target is nil or set), a
    [Populate] that returns nil leaves no target empty: for every unnamed
    object of the graph that is not [Complete], provided by the caller or
    made by the resolver, every field of its struct that is a pointer to
    a struct under the plain or the private tag holds a pointer. *)
Theorem Populate_fills_every_target fuel order st st' :
  ready P st ->
  Populate P fuel order st = (st', Ret tt) ->
  forall j a k,
    targetOf P (graph st') true j a k -> filled (heap st') (fieldAddr a k).
Proof.
  intros HR H. unfold Populate in H.
  apply bind_Ret in H as (st1 & [] & H1 & H2).
  destruct (queue_fills P fuel 0 st st1 HR) as [HR1 Hfilled]; [|exact H1|].
  { intros j a k Hj. lia. }
  destruct HR1 as (HA1 & _ & _).
  assert (Hkeeps : keeps (heap st1) (heap st')).
  { revert H2. apply (keeps_of _). intros K Hs Ha.
    apply preserves_bind;
      [apply preserves_rangeNamed; intros r; apply (hi_populateExplicit P K Hs Ha)
      |intros _].
    apply preserves_bind;
      [apply preserves_rangeUnnamed; intros r;
       apply (hi_populateUnnamedInterface P K Hs)|intros _].
    apply preserves_bind;
      [apply preserves_rangeNamed; intros r;
       apply (hi_populateUnnamedInterface P K Hs)|intros _].
    apply hi_buildLevels. }
  assert (Hsame : forall j x', unnamed (graph st') !! j = Some x' ->
            exists x m, unnamed (graph st1) !! j = Some x /\ x' = withLevel x m).
  { apply bind_Ret in H2 as (st2 & [] & H2 & H3).
    rewrite (rangeNamed_empty _ _ _ HA1) in H2. injection H2 as <-.
    pose proof (sameUnnamed_updateLevel (graph st1)) as Hup.
    refine (proj2 (_ : named (graph st') = ∅ /\ _)).
    revert H3.
    apply (preserves_bind
             (fun st =>
                named (graph st) = ∅ /\
                forall j x', unnamed (graph st) !! j = Some x' ->
                  exists x m, unnamed (graph st1) !! j = Some x /\ x' = withLevel x m)).
    - apply preserves_rangeUnnamed. intros r.
      apply (gi_populateUnnamedInterface P
               (fun g => named g = ∅ /\
                  forall j x', unnamed g !! j = Some x' ->
                    exists x m, unnamed (graph st1) !! j = Some x /\ x' = withLevel x m)
               Hup).
    - intros _. apply preserves_bind.
      + apply preserves_rangeNamed. intros r.
        apply (gi_populateUnnamedInterface P
                 (fun g => named g = ∅ /\
                    forall j x', unnamed g !! j = Some x' ->
                      exists x m, unnamed (graph st1) !! j = Some x /\ x' = withLevel x m)
                 Hup).
      + intros _.
        apply (gi_buildLevels
                 (fun g => named g = ∅ /\
                    forall j x', unnamed g !! j = Some x' ->
                      exists x m, unnamed (graph st1) !! j = Some x /\ x' = withLevel x m)).
        intros g ls Hg. exact Hg.
    - split; [exact HA1|]. intros j x' Hx'. exists x', (level x').
      split; [exact Hx'|]. symmetry. apply withLevel_same. }
  intros j a k (o' & fs & f & Ho' & Hinc & Ha & Hfs & Hf & Ht).
  destruct (Hsame _ _ Ho') as (o1 & m & Ho1 & ->). simpl in Hinc, Ha, Hfs.
  eapply filled_keeps; [exact Hkeeps|]. apply (Hfilled j).
  exists o1, fs, f. repeat split; assumption.
Qed.

End FillingClaim.

Section FillingExample.

Import Examples MoreExamples.

(** [TestInjectSimple]: after [Populate] the field [A] of the root holds
    a pointer. *)
Lemma Populate_fills_every_target_witness :
  filled (heap (fst (Populate testProgram 8 noOrder simpleRoot)))
    (fieldAddr (0, []) 0).
Proof.
  refine (Populate_fills_every_target testProgram 8 noOrder simpleRoot
            (fst (Populate testProgram 8 noOrder simpleRoot)) _ _ 0 (0, []) 0 _).
  - split; [reflexivity|]. split.
    + intros [|j] o H; [|destruct j; discriminate H].
      injection H as <-. exists (0, []). repeat split.
      apply Nat.ltb_lt. vm_compute. reflexivity.
    + intros [|j] a k (o & fs & f & Ho & _ & Ha & Hfs & Hk & _) v Hv;
        [|destruct j; discriminate Ho].
      injection Ho as <-. injection Ha as <-.
      destruct k as [|[|k]]; vm_compute in Hv; [| |discriminate Hv];
        injection Hv as <-; auto.
  - vm_compute. reflexivity.
  - exists (withReflect (unnamedObject (ptrTo "TypeInjectSimple") 0)),
           [tagged "A" (ptrTo "TypeAnswerStruct") "inject:''";
            tagged "B" (ptrTo "TypeNestedStruct") "inject:''"],
           (tagged "A" (ptrTo "TypeAnswerStruct") "inject:''").
    repeat split.
Defined.

End FillingExample.

(** ** The capability pass fills every field of interface type *)

Section CapabilitySteps.

Context (P : Program).

(** The scan of the capability pass in a ready state: the value it
    assigns is the value of an object of the graph, a pointer. *)
Lemma scan_step r o a f i count : forall j found st st' out,
  ready P st ->
  (found = None -> exists old, load (heap st) (fieldAddr a i) = Some old) ->
  scanAssignable P r o a f i count j found st = (st', out) ->
  ready P st' /\
  (found = None -> forall e, out = Ret (Some e) -> filled (heap st') (fieldAddr a i)).
Proof.
  induction count as [|count IH]; intros j found st st' out HR Hold; simpl.
  - intros [= <- <-]. split; [exact HR|]. intros -> e He. discriminate.
  - unfold bind at 1, getGraph. cbv beta iota. unfold bind at 1, need.
    destruct (unnamed (graph st) !! j) as [existing|] eqn:Hex;
      [|intros [= <- <-]; split; [exact HR|intros _ e He; discriminate]].
    unfold ret at 1. cbv beta iota.
    destruct (private existing); [apply IH; assumption|].
    destruct (AssignableTo P (reflectType existing) (fieldType f));
      [|apply IH; assumption].
    destruct found as [fnd|];
      [intros [= <- <-]; split; [exact HR|intros Hf; discriminate]|].
    destruct (Hold eq_refl) as (old & Hload).
    pose proof HR as (_ & HB & _). destruct (HB _ _ Hex) as (ae & Hve & _ & _).
    assert (Hset : isSet (dynValue (Value existing)) = true)
      by (rewrite Hve; reflexivity).
    destruct (exported f).
    + intros H.
      apply bind_cases in H as [(st1 & [] & H1 & H2)|(Hout & out' & H1 & _)].
      * destruct (ready_Set P _ _ _ _ _ _ HR Hload Hset H1) as (HR1 & _ & Hl).
        apply bind_cases in H2 as [(st2 & [] & H2 & H3)|(Hout & out' & H2 & _)].
        -- pose proof (ready_updateLevel P _ _ _ _ _ HR1 H2) as HR2.
           pose proof (updateLevel_heap _ _ _ _ _ H2) as Hh2.
           assert (Hno : Some existing = None ->
                         exists old', load (heap st2) (fieldAddr a i) = Some old')
             by discriminate.
           destruct (IH _ _ _ _ _ HR2 Hno H3) as [HR3 _].
           split; [exact HR3|]. intros _ e He.
           destruct (scanAssignable_field P _ _ _ _ _ _ _ _ _ _ _ H3) as [Hh3 _].
           exists (dynValue (Value existing)). split; [|exact Hset].
           rewrite Hh3, Hh2. exact (Hl eq_refl).
        -- split; [eapply ready_updateLevel; eassumption|].
           intros _ e ->. exfalso. exact (Hout _ eq_refl).
      * destruct (ready_Set P _ _ _ _ _ _ HR Hload Hset H1) as (HR1 & _ & _).
        split; [exact HR1|]. intros _ e ->. exfalso. exact (Hout _ eq_refl).
    + unfold bind. rewrite Set_cases. intros [= <- <-].
      split; [exact HR|intros _ e He; discriminate].
Qed.

Lemma interfaceBody_step r i o a f field st st' out :
  ready P st ->
  readField P r i st = (st, Ret (o, a, f, field)) ->
  interfaceBody P r i o a f field st = (st', out) ->
  ready P st' /\
  (out = Ret tt -> isCapability f = true -> filled (heap st') (fieldAddr a i)).
Proof.
  intros HR Hread.
  destruct (readField_inv _ _ _ _ _ _ _ _ _ Hread)
    as (_ & Ho & Ha & (fields & Hfs & Hf) & Hload).
  pose proof HR as (HA & HB & HC).
  destruct r as [j|name]; [|simpl in Ho; rewrite HA, lookup_empty in Ho; discriminate].
  simpl in Ho.
  assert (Htidy : isCapability f = true -> tidy (heap st) (fieldAddr a i)).
  { intros Ht. apply (HC j). exists o, fields, f.
    repeat split; try assumption; try discriminate.
    cbv beta. rewrite Ht. apply orb_true_r. }
  unfold interfaceBody.
  destruct (parseTag (fieldTag f)) as [[tag|] [e|]] eqn:Hparse;
    try (intros [= <- <-]; split; [exact HR|]; intros _ Ht;
         unfold isCapability in Ht; rewrite Hparse in Ht; discriminate).
  destruct (bool_decide (kindOf (fieldType f) = Interface)) eqn:Hkind; cbn [negb].
  2: { intros [= <- <-]. split; [exact HR|]. intros _ Ht.
       destruct (isCapability_inv _ Ht) as (t & _ & _ & _ & Hk).
       apply bool_decide_eq_false in Hkind. contradiction. }
  apply bool_decide_eq_true in Hkind.
  destruct (bool_decide (tag = injectPrivate));
    [intros [= <- <-]; split; [exact HR|discriminate]|].
  destruct (isNilOrZero P field (fieldType f)) eqn:Hzero; cbn [negb].
  2: { intros [= <- <-]. split; [exact HR|]. intros _ Ht.
       exists field. split; [exact Hload|].
       destruct (Htidy Ht _ Hload) as [->|Hs]; [|exact Hs].
       unfold isNilOrZero in Hzero. rewrite Hkind in Hzero. discriminate Hzero. }
  destruct (negb (String.eqb (Tag.Name tag) ""));
    [intros [= <- <-]; split; [exact HR|discriminate]|].
  unfold bind at 1, getGraph. cbv beta iota. intros H.
  apply bind_cases in H as [(st1 & found & H1 & H2)|(Hout & out' & H1 & _)].
  - destruct (scan_step _ _ _ _ _ _ _ _ _ _ _ HR
                (fun _ => ex_intro _ field Hload) H1) as [HR1 Hfill].
    destruct found as [e|]; injection H2 as <- <-.
    + split; [exact HR1|]. intros _ _. exact (Hfill eq_refl e eq_refl).
    + split; [exact HR1|discriminate].
  - destruct (scan_step _ _ _ _ _ _ _ _ _ _ _ HR
                (fun _ => ex_intro _ field Hload) H1) as [HR1 _].
    split; [exact HR1|]. intros ->. exfalso. exact (Hout tt eq_refl).
Qed.

Lemma interfaceField_step j i st st' out :
  ready P st ->
  interfaceField P (RUnnamed j) i st = (st', out) ->
  ready P st' /\
  (out = Ret tt ->
   forall o a fs f,
     unnamed (graph st) !! j = Some o -> reflectValue o = VPtr a ->
     fieldsOf P (reflectType o) = Some fs -> fs !! i = Some f ->
     isCapability f = true -> filled (heap st') (fieldAddr a i)).
Proof.
  intros HR H. unfold interfaceField in H.
  apply bind_cases in H as [(st1 & [[[o a] f] field] & H1 & H2)|(Hout & out' & H1 & _)].
  - destruct (readField_inv _ _ _ _ _ _ _ _ _ H1)
      as (-> & Ho & Ha & (fields & Hfs & Hf) & _).
    destruct (interfaceBody_step _ _ _ _ _ _ _ _ _ HR H1 H2) as [HR' Hfill].
    split; [exact HR'|]. intros Hout o' a' fs' f' Ho' Ha' Hfs' Hf' Ht.
    simpl in Ho. rewrite Ho in Ho'. injection Ho' as <-.
    rewrite Ha in Ha'. injection Ha' as <-.
    rewrite Hfs in Hfs'. injection Hfs' as <-.
    rewrite Hf in Hf'. injection Hf' as <-. auto.
  - apply readField_state in H1 as ->. split; [exact HR|].
    intros ->. exfalso. exact (Hout tt eq_refl).
Qed.

Lemma ready_interfaceField r i : preserves (ready P) (interfaceField P r i).
Proof.
  intros st st' out HR H. destruct r as [j|name].
  - exact (proj1 (interfaceField_step _ _ _ _ _ HR H)).
  - unfold interfaceField, bind, readField, bind, getGraph, need, crash in H.
    destruct HR as (HA & HB & HC). cbn [getObject] in H.
    rewrite HA, lookup_empty in H. injection H as <- _. repeat split; assumption.
Qed.

Lemma ready_populateUnnamedInterface r :
  preserves (ready P) (populateUnnamedInterface P r).
Proof.
  unfold populateUnnamedInterface. apply preserves_bind.
  - intros st st' out HR H. apply numField_state in H as ->. exact HR.
  - intros [n|]; [|apply preserves_ret].
    apply preserves_forRange. intros i. apply ready_interfaceField.
Qed.

(** The struct loop of [populateUnnamedInterface]. *)
Lemma capabilities_fill j a fs n : forall start st st',
  ready P st ->
  (exists o, unnamed (graph st) !! j = Some o /\ reflectValue o = VPtr a /\
             fieldsOf P (reflectType o) = Some fs) ->
  (forall k f, k < start -> fs !! k = Some f -> isCapability f = true ->
               filled (heap st) (fieldAddr a k)) ->
  forRange (interfaceField P (RUnnamed j)) n start st = (st', Ret tt) ->
  forall k f, k < start + n -> fs !! k = Some f -> isCapability f = true ->
              filled (heap st') (fieldAddr a k).
Proof.
  induction n as [|n IH]; intros start st st' HR Hobj Hdone H.
  - injection H as <-. intros k f Hk. apply Hdone. lia.
  - cbn [forRange] in H. apply bind_Ret in H as (st1 & [] & H1 & H2).
    destruct (interfaceField_step _ _ _ _ _ HR H1) as [HR1 Hfill].
    pose proof (keeps_of _ (fun K Hs _ => hi_interfaceField P K Hs (RUnnamed j) start)
                  _ _ _ H1) as Hkeeps.
    pose proof (grows_interfaceField P _ _ _ _ _ H1) as Hext.
    destruct Hobj as (o & Ho & Ha & Hfs).
    destruct (extends_unnamed _ _ _ _ Hext Ho) as (m & Ho1).
    intros k f Hk. replace (start + S n) with (S start + n) in Hk by lia.
    revert k f Hk. apply (IH (S start) st1 st' HR1); [| |exact H2].
    + exists (withLevel o m). auto.
    + intros k f Hk Hf Ht. destruct (decide (k = start)) as [->|Hne].
      * exact (Hfill eq_refl o a fs f Ho Ha Hfs Hf Ht).
      * eapply filled_keeps; [exact Hkeeps|]. apply (Hdone k f); [lia|assumption..].
Qed.

Lemma populateUnnamedInterface_fills j st st' o a fs k f :
  ready P st ->
  populateUnnamedInterface P (RUnnamed j) st = (st', Ret tt) ->
  unnamed (graph st) !! j = Some o -> reflectValue o = VPtr a ->
  fieldsOf P (reflectType o) = Some fs -> fs !! k = Some f ->
  isCapability f = true ->
  filled (heap st') (fieldAddr a k).
Proof.
  intros HR H Ho Ha Hfs Hf Ht. unfold populateUnnamedInterface, bind in H.
  rewrite (numField_unnamed P _ _ _ _ _ Ho Ha Hfs) in H.
  refine (capabilities_fill j a fs (length fs) 0 st st' HR _ _ H k f _ Hf Ht).
  - eauto.
  - intros k' f' Hk'. lia.
  - simpl. eapply lookup_lt_Some, Hf.
Qed.

(** The sweep of the capability pass over the unnamed objects. *)
Lemma sweep_fills n : forall start st st',
  ready P st ->
  start + n <= length (unnamed (graph st)) ->
  (forall j a k, j < start -> capabilityOf P (graph st) true j a k ->
                 filled (heap st) (fieldAddr a k)) ->
  forRange
    (fun j =>
       let* g := getGraph in
       let* o := need (unnamed g !! j) "index out of range" in
       if Complete o then ret tt else populateUnnamedInterface P (RUnnamed j))
    n start st = (st', Ret tt) ->
  ready P st' /\
  forall j a k, j < start + n -> capabilityOf P (graph st') true j a k ->
                filled (heap st') (fieldAddr a k).
Proof.
  induction n as [|n IH]; intros start st st' HR Hlen Hdone H.
  - injection H as <-. split; [exact HR|]. intros j a k Hj. apply Hdone. lia.
  - cbn [forRange] in H. apply bind_Ret in H as (st1 & [] & H1 & H2).
    unfold bind at 1, getGraph in H1. cbv beta iota in H1.
    destruct (lookup_lt_is_Some_2 (unnamed (graph st)) start ltac:(lia)) as [o Ho].
    unfold bind at 1, need in H1. rewrite Ho in H1. unfold ret at 1 in H1.
    cbv beta iota in H1.
    assert (Hstep : ready P st1 /\ keeps (heap st) (heap st1) /\
                    extends (graph st) (graph st1) /\
                    forall a k, capabilityOf P (graph st) true start a k ->
                                filled (heap st1) (fieldAddr a k)).
    { destruct (Complete o) eqn:Hc.
      - injection H1 as <-. split; [exact HR|]. split; [apply keeps_refl|].
        split; [apply extends_refl|].
        intros a k (o' & fs & f & Ho' & Hinc & _).
        rewrite Ho in Ho'. injection Ho' as <-.
        rewrite (Hinc eq_refl) in Hc. discriminate.
      - split; [exact (ready_populateUnnamedInterface _ _ _ _ HR H1)|].
        split; [exact (keeps_of _ (fun K Hs _ =>
                         hi_populateUnnamedInterface P K Hs (RUnnamed start))
                         _ _ _ H1)|].
        split; [exact (grows_populateUnnamedInterface P _ _ _ _ H1)|].
        intros a k (o' & fs & f & Ho' & _ & Ha & Hfs & Hf & Ht).
        exact (populateUnnamedInterface_fills _ _ _ _ _ _ _ _ HR H1 Ho' Ha Hfs Hf Ht). }
    destruct Hstep as (HR1 & Hkeeps & Hext & Hnew).
    pose proof (extends_length _ _ Hext) as Hlen1.
    replace (start + S n) with (S start + n) by lia.
    apply (IH (S start) st1 st' HR1); [lia| |exact H2].
    intros j a k Hj (o1 & fs & f & Ho1 & Hinc & Ha & Hfs & Hf & Ht).
    destruct (lookup_lt_is_Some_2 (unnamed (graph st)) j ltac:(lia)) as [o0 Ho0].
    destruct (extends_unnamed _ _ _ _ Hext Ho0) as (m & Hm).
    rewrite Hm in Ho1. injection Ho1 as <-. simpl in Hinc, Ha, Hfs.
    assert (Hcap : capabilityOf P (graph st) true j a k)
      by (exists o0, fs, f; repeat split; assumption).
    destruct (decide (j = start)) as [->|Hne].
    + exact (Hnew a k Hcap).
    + eapply filled_keeps; [exact Hkeeps|]. apply (Hdone j); [lia|exact Hcap].
Qed.

(** X17.  [Populate] fills every field of interface type.  In a state of
    a Go program that holds unnamed objects only, a [Populate] that
    returns nil leaves no capability empty: for every unnamed object of
    the graph that is not [Complete], every field of its struct that is
    of interface type, under a tag that names no object and is not
    private, holds a value that is set. *)
Theorem Populate_fills_every_capability fuel order st st' :
  ready P st ->
  Populate P fuel order st = (st', Ret tt) ->
  forall j a k,
    capabilityOf P (graph st') true j a k -> filled (heap st') (fieldAddr a k).
Proof.
  intros HR H. unfold Populate in H.
  apply bind_Ret in H as (st1 & [] & H1 & H).
  destruct (queue_fills P fuel 0 st st1 HR) as [HR1 _]; [|exact H1|].
  { intros j a k Hj. lia. }
  apply bind_Ret in H as (st2 & [] & H2 & H).
  rewrite (rangeNamed_empty _ _ _ (proj1 HR1)) in H2. injection H2 as <-.
  apply bind_Ret in H as (st3 & [] & H3 & H).
  unfold rangeUnnamed in H3. unfold bind at 1, getGraph in H3. cbv beta iota in H3.
  destruct (sweep_fills (length (unnamed (graph st1))) 0 st1 st3 HR1)
    as [HR3 Hfilled]; [simpl; lia|intros j a k Hj; lia|exact H3|].
  simpl in Hfilled.
  assert (Hlen3 : forall j x, unnamed (graph st3) !! j = Some x ->
                    j < length (unnamed (graph st1))).
  { assert (Hp : preserves
              (fun s => named (graph s) = ∅ /\
                 forall j x', unnamed (graph s) !! j = Some x' ->
                   exists x m, unnamed (graph st1) !! j = Some x /\ x' = withLevel x m)
              (forRange
                 (fun j =>
                    let* g := getGraph in
                    let* o := need (unnamed g !! j) "index out of range" in
                    if Complete o then ret tt
                    else populateUnnamedInterface P (RUnnamed j))
                 (length (unnamed (graph st1))) 0)).
    { apply preserves_forRange. intros j.
      apply preserves_bind; [apply preserves_getGraph|intros g].
      apply preserves_bind; [apply preserves_need|intros o].
      destruct (Complete o); [apply preserves_ret|].
      apply (gi_populateUnnamedInterface P
               (fun g => named g = ∅ /\
                  forall j x', unnamed g !! j = Some x' ->
                    exists x m, unnamed (graph st1) !! j = Some x /\ x' = withLevel x m)
               (sameUnnamed_updateLevel (graph st1))). }
    intros j x Hx.
    destruct (Hp st1 st3 (Ret tt)) as [_ Hsame]; [| exact H3 |].
    - split; [exact (proj1 HR1)|]. intros i x' Hx'. exists x', (level x').
      split; [exact Hx'|]. symmetry. apply withLevel_same.
    - destruct (Hsame _ _ Hx) as (x0 & m & Hx0 & _). eapply lookup_lt_Some, Hx0. }
  apply bind_Ret in H as (st4 & [] & H4 & H5).
  rewrite (rangeNamed_empty _ _ _ (proj1 HR3)) in H4. injection H4 as <-.
  assert (Hkeeps : keeps (heap st3) (heap st')).
  { revert H5. apply (keeps_of _). intros K Hs Ha. apply hi_buildLevels. }
  apply buildLevels_Ret in H5 as ((Hu & _ & _) & _).
  intros j a k (o & fs & f & Ho & Hinc & Ha & Hfs & Hf & Ht).
  rewrite Hu in Ho.
  eapply filled_keeps; [exact Hkeeps|].
  apply (Hfilled j); [exact (Hlen3 _ _ Ho)|].
  exists o, fs, f. repeat split; assumption.
Qed.

End CapabilitySteps.

Section CapabilityExample.

Import Examples MoreExamples.

(** [TestInjectInterface]: after [Populate] the field [Answerable] of the
    root holds a pointer. *)
Lemma Populate_fills_every_capability_witness :
  filled (heap (fst (Populate testProgram 8 noOrder interfaceRoot)))
    (fieldAddr (0, []) 0).
Proof.
  refine (Populate_fills_every_capability testProgram 8 noOrder interfaceRoot
            (fst (Populate testProgram 8 noOrder interfaceRoot)) _ _ 0 (0, []) 0 _).
  - split; [reflexivity|]. split.
    + intros [|j] o H; [|destruct j; discriminate H].
      injection H as <-. exists (0, []). repeat split.
      apply Nat.ltb_lt. vm_compute. reflexivity.
    + intros [|j] a k (o & fs & f & Ho & _ & Ha & Hfs & Hk & _) v Hv;
        [|destruct j; discriminate Ho].
      injection Ho as <-. injection Ha as <-.
      destruct k as [|[|k]]; vm_compute in Hv; [| |discriminate Hv];
        injection Hv as <-; auto.
  - vm_compute. reflexivity.
  - exists (withReflect (unnamedObject (ptrTo "TypeInjectInterface") 0)),
           [tagged "Answerable" (TIface Answerable) "inject:''";
            tagged "A" (ptrTo "TypeAnswerStruct") "inject:''"],
           (tagged "Answerable" (TIface Answerable) "inject:''").
    repeat split.
Defined.

End CapabilityExample.
